(** * maddy: dispatcher and MTA-STS cache

    A shallow embedding of the message dispatcher ([Dispatcher],
    [dispatcherDelivery], [splitAddress]) and of the MTA-STS policy cache
    ([Cache.fetch]) of the maddy mail server, with the properties their
    specification states about them.

    Go strings are byte strings: they are modelled as [string], whose
    characters are the 8-bit [ascii] values.  Go maps are [gmap]s; where the
    program ranges over a map, the iteration order is an arbitrary
    enumeration of its entries.  Pointers used as identities (check groups,
    check states, recipient blocks, delivery targets, deliveries) are
    natural-number identifiers.  Calls into modules are recorded in an event
    log so that statements about what has or has not been called can be
    made. *)

From Stdlib Require Import ZArith Ascii String List Bool Lia DecimalString.
From stdpp Require Import base option list gmap strings fin_maps.

Local Open Scope string_scope.
Local Open Scope list_scope.
Local Open Scope Z_scope.

(** ** Go runtime pieces used by the program *)

Module Go.

(** The value of a byte of a string. *)
Definition byteZ (c : ascii) : Z := Z.of_N (N_of_ascii c).

(** [utf8.RuneSelf] and [utf8.RuneError]. *)
Definition RuneSelf : Z := 0x80.
Definition RuneError : Z := 0xFFFD.

Definition between (lo hi b : Z) : bool := (lo <=? b) && (b <=? hi).

(** The continuation bits of a byte, [b & 0x3F]. *)
Definition cont (b : Z) : Z := Z.land b 0x3F.

(** [utf8.DecodeRuneInString]: the first rune of [s] and its width in
    bytes.  An invalid or truncated encoding decodes to [RuneError] with
    width 1; the empty string to [RuneError] with width 0.  The accepted
    ranges of the second byte are those of the table [acceptRanges]. *)
Definition DecodeRuneInString (s : string) : Z * nat :=
  match s with
  | EmptyString => (RuneError, 0%nat)
  | String c0 s1 =>
    let b0 := byteZ c0 in
    if b0 <? RuneSelf then (b0, 1%nat)
    else if between 0xC2 0xDF b0 then
      match s1 with
      | String c1 _ =>
        let b1 := byteZ c1 in
        if between 0x80 0xBF b1
        then (Z.lor (Z.shiftl (Z.land b0 0x1F) 6) (cont b1), 2%nat)
        else (RuneError, 1%nat)
      | _ => (RuneError, 1%nat)
      end
    else if between 0xE0 0xEF b0 then
      match s1 with
      | String c1 (String c2 _) =>
        let b1 := byteZ c1 in
        let b2 := byteZ c2 in
        let lo := if b0 =? 0xE0 then 0xA0 else 0x80 in
        let hi := if b0 =? 0xED then 0x9F else 0xBF in
        if between lo hi b1 && between 0x80 0xBF b2
        then (Z.lor (Z.lor (Z.shiftl (Z.land b0 0x0F) 12)
                           (Z.shiftl (cont b1) 6)) (cont b2), 3%nat)
        else (RuneError, 1%nat)
      | _ => (RuneError, 1%nat)
      end
    else if between 0xF0 0xF4 b0 then
      match s1 with
      | String c1 (String c2 (String c3 _)) =>
        let b1 := byteZ c1 in
        let b2 := byteZ c2 in
        let b3 := byteZ c3 in
        let lo := if b0 =? 0xF0 then 0x90 else 0x80 in
        let hi := if b0 =? 0xF4 then 0x8F else 0xBF in
        if between lo hi b1 && between 0x80 0xBF b2 && between 0x80 0xBF b3
        then (Z.lor (Z.lor (Z.lor (Z.shiftl (Z.land b0 0x07) 18)
                                  (Z.shiftl (cont b1) 12))
                           (Z.shiftl (cont b2) 6)) (cont b3), 4%nat)
        else (RuneError, 1%nat)
      | _ => (RuneError, 1%nat)
      end
    else (RuneError, 1%nat)
  end.

(** [s[n:]] for [n] within the string. *)
Fixpoint drop_bytes (n : nat) (s : string) : string :=
  match n, s with
  | S n', String _ s' => drop_bytes n' s'
  | _, _ => s
  end.

(** The first rune of a non-empty string and the rest of the string, as
    [strings.EqualFold] extracts them (a byte below [RuneSelf] is its own
    rune). *)
Definition nextRune (s : string) : Z * string :=
  match s with
  | EmptyString => (RuneError, EmptyString)
  | String c s' =>
    if byteZ c <? RuneSelf then (byteZ c, s')
    else let '(r, size) := DecodeRuneInString s in (r, drop_bytes size s)
  end.

(** [unicode.SimpleFold] on the case orbits of the ASCII runes: the table
    [asciiFold] (upper to lower, lower to upper, except that k goes to the
    Kelvin sign U+212A and s to the long s U+017F) and the two entries of
    [caseOrbit] that lead back into ASCII.  A comparison against an ASCII
    string applies [SimpleFold] to runes of these orbits only; other runes
    are left as they are here. *)
Definition SimpleFold (r : Z) : Z :=
  if between 0x41 0x5A r then r + 0x20
  else if r =? 0x6B then 0x212A
  else if r =? 0x73 then 0x17F
  else if between 0x61 0x7A r then r - 0x20
  else if r =? 0x17F then 0x53
  else if r =? 0x212A then 0x4B
  else r.

(** The loop [for r != sr && r < tr { r = unicode.SimpleFold(r) }] of
    [strings.EqualFold]. *)
Fixpoint foldTowards (fuel : nat) (sr tr r : Z) : Z :=
  match fuel with
  | O => r
  | S n => if negb (r =? sr) && (r <? tr)
           then foldTowards n sr tr (SimpleFold r) else r
  end.

(** One comparison of [strings.EqualFold]: are the runes [sr] and [tr]
    equal under simple case folding. *)
Definition foldEq (sr tr : Z) : bool :=
  if tr =? sr then true
  else
    let '(sr, tr) := if tr <? sr then (tr, sr) else (sr, tr) in
    if tr <? RuneSelf then
      between 0x41 0x5A sr && (tr =? sr + 0x61 - 0x41)
    else
      foldTowards 4 sr tr (SimpleFold sr) =? tr.

(** [strings.EqualFold]: the loop runs while both strings are non-empty and
    consumes at least one byte of each per iteration. *)
Fixpoint EqualFold_loop (fuel : nat) (s t : string) : bool :=
  match fuel with
  | O => String.eqb s t
  | S n =>
    match s, t with
    | String _ _, String _ _ =>
      let '(sr, s') := nextRune s in
      let '(tr, t') := nextRune t in
      if foldEq sr tr then EqualFold_loop n s' t' else false
    | _, _ => String.eqb s t
    end
  end.

Definition EqualFold (s t : string) : bool :=
  EqualFold_loop (String.length s) s t.

(** [strings.Split(s, sep)] for a separator of one byte. *)
Fixpoint Split (s : string) (sep : ascii) : list string :=
  match s with
  | EmptyString => [EmptyString]
  | String c s' =>
    if Ascii.eqb c sep then EmptyString :: Split s' sep
    else match Split s' sep with
         | p :: ps => String c p :: ps
         | [] => [String c EmptyString]
         end
  end.

(** The ASCII path of [strings.ToLower]. *)
Definition lowerByte (c : ascii) : ascii :=
  if between 0x41 0x5A (byteZ c)
  then ascii_of_N (N_of_ascii c + 32) else c.

Fixpoint asciiLower (s : string) : string :=
  match s with
  | EmptyString => EmptyString
  | String c s' => String (lowerByte c) (asciiLower s')
  end.

Fixpoint isASCII (s : string) : bool :=
  match s with
  | EmptyString => true
  | String c s' => (byteZ c <? RuneSelf) && isASCII s'
  end.

(** A 32-bit signed integer: the value of [int32(z)], and of an [int32]
    sum that overflows. *)
Definition int32 (z : Z) : Z := (z + 2^31) mod 2^32 - 2^31.

(** [%d] of [fmt.Sprintf]. *)
Definition fmt_d (z : Z) : string := NilZero.string_of_int (Z.to_int z).

End Go.

(** ** Errors *)

(** An [error] value: one made by [errors.New] or [fmt.Errorf], or an
    [*smtp.SMTPError]. *)
Inductive error : Type :=
| Errorf (msg : string)
| SMTPError (Code : Z) (EnhancedCode : Z * Z * Z) (Message : string).

(** [err.Error()]. *)
Definition Error_ (e : error) : string :=
  match e with
  | Errorf msg => msg
  | SMTPError _ _ msg => msg
  end.

(** ** The address matcher *)

Definition at_sign : ascii := "@"%char.

(** [splitAddress]: left is the error, right the pair of mailbox and
    domain. *)
Definition splitAddress (addr : string) : error + (string * string) :=
  let parts := Go.Split addr at_sign in
  match parts with
  | [p0] =>
    if Go.EqualFold p0 "postmaster" then inr (p0, "")
    else inl (Errorf "malformed address")
  | [p0; p1] =>
    if (String.length p0 =? 0)%nat || (String.length p1 =? 0)%nat
    then inl (Errorf "malformed address")
    else inr (p0, p1)
  | _ => inl (Errorf "malformed address")
  end.

(** ** What the dispatcher sees of the modules it drives *)

(** A call into a module, as the event log of a message records it. *)
Inductive hook : Type :=
| HConnection
| HSender (mailFrom : string)
| HRcpt (to : string).

Inductive event : Type :=
| EvNewMessage (group : nat) (state : option nat)
| EvCheck (state : nat) (h : hook)
| EvClose (state : nat)
| EvStart (target : nat) (delivery : option nat)
| EvAddRcpt (target delivery : nat) (to : string)
| EvCommit (delivery : nat)
| EvAbort (delivery : nat).

(** What a module answers may depend on everything that happened to the
    message before: each method takes the event log at the time of the
    call. *)
Definition history : Type := list event.

(** [textproto.Header]: the fields from top to bottom.  [Add] puts a field
    on top, [Fields] iterates from the top. *)
Module Header.
Definition t : Type := list (string * string).
Definition Add (k v : string) (h : t) : t := (k, v) :: h.
Definition Fields (h : t) : list (string * string) := h.
End Header.

Module MsgMetadata.
(** Modelled from the spec: the declaration of [module.MsgMetadata] is not
    among the sources; of the message metadata the dispatcher touches the
    [Quarantine] flag only. *)
Record t : Type := { Quarantine : bool }.
End MsgMetadata.

Module CheckResult.
(** Modelled from the spec: the declaration of [module.CheckResult] is not
    among the sources.  [ScoreAdjust] is an [int32], as the addition to
    [checkScore] requires; an entry of [AuthResult] is kept as text. *)
Record t : Type := {
  RejectErr : option error;
  Quarantine : bool;
  ScoreAdjust : Z;
  AuthResult : list string;
  Header : Header.t
}.
End CheckResult.

Module CheckState.
(** Modelled from the spec: the interface [module.CheckState], with the
    hooks that [Start] and [AddRcpt] call. *)
Record t : Type := {
  id : nat;
  CheckConnection : history -> CheckResult.t;
  CheckSender : history -> string -> CheckResult.t;
  CheckRcpt : history -> string -> CheckResult.t
}.
End CheckState.

Module CheckGroup.
(** Modelled from the spec: the declaration of [CheckGroup] is not among
    the sources; [NewMessage] starts the checks of the group for a
    message and gives their state, or fails. *)
Record t : Type := {
  id : nat;
  NewMessage : history -> error + CheckState.t
}.
End CheckGroup.

Module Delivery.
(** Modelled from the spec: the interface [module.Delivery]. *)
Record t : Type := {
  id : nat;
  AddRcpt : history -> string -> option error;
  Commit : history -> option error;
  Abort : history -> option error
}.
End Delivery.

Module DeliveryTarget.
(** Modelled from the spec: the interface [module.DeliveryTarget]; [id]
    is the identity of the target, the key of the dispatcher's map of
    deliveries. *)
Record t : Type := {
  id : nat;
  Start : history -> error + Delivery.t
}.
End DeliveryTarget.

Module rcptBlock.
(** The struct [rcptBlock]; it is used through pointers, [id] is the
    identity of the block. *)
Record t : Type := {
  id : nat;
  checks : CheckGroup.t;
  rejectErr : option error;
  targets : list DeliveryTarget.t
}.
End rcptBlock.

Module sourceBlock.
Record t : Type := {
  checks : CheckGroup.t;
  rejectErr : option error;
  perRcpt : gmap string rcptBlock.t;
  defaultRcpt : rcptBlock.t
}.
End sourceBlock.

(** Modelled from the spec: the declaration of [dispatcherCfg], embedded in
    [Dispatcher], is not among the sources.  Its fields are those the
    dispatcher reads; the two scores are optional integers ([nil] when not
    configured), converted with [int32] where they are compared. *)
Record Dispatcher : Type := {
  globalChecks : CheckGroup.t;
  perSource : gmap string sourceBlock.t;
  defaultSource : sourceBlock.t;
  rejectScore : option Z;
  quarantineScore : option Z;
  hostname : string
}.

(** The struct [dispatcherDelivery].  [msgMeta] is the metadata object the
    struct points to.  [sourceBlock] is [None] for the zero value the field
    has until [Start] assigns it; the two check states are [None] while
    [nil]. *)
Record dispatcherDelivery : Type := {
  d : Dispatcher;
  globalChecksState : option CheckState.t;
  sourceChecksState : option CheckState.t;
  rcptChecksState : gmap nat CheckState.t;
  sourceAddr : string;
  sourceBlock : option sourceBlock.t;
  deliveries : gmap nat Delivery.t;
  msgMeta : MsgMetadata.t;
  checkScore : Z;
  authRes : list string;
  header : Header.t
}.

(** Assignments to the fields of a [dispatcherDelivery]. *)
Definition set_globalChecksState (v : option CheckState.t) (dd : dispatcherDelivery) :=
  {| d := d dd; globalChecksState := v;
     sourceChecksState := sourceChecksState dd;
     rcptChecksState := rcptChecksState dd; sourceAddr := sourceAddr dd;
     sourceBlock := sourceBlock dd; deliveries := deliveries dd;
     msgMeta := msgMeta dd; checkScore := checkScore dd;
     authRes := authRes dd; header := header dd |}.

Definition set_sourceChecksState (v : option CheckState.t) (dd : dispatcherDelivery) :=
  {| d := d dd; globalChecksState := globalChecksState dd;
     sourceChecksState := v;
     rcptChecksState := rcptChecksState dd; sourceAddr := sourceAddr dd;
     sourceBlock := sourceBlock dd; deliveries := deliveries dd;
     msgMeta := msgMeta dd; checkScore := checkScore dd;
     authRes := authRes dd; header := header dd |}.

Definition set_rcptChecksState (v : gmap nat CheckState.t) (dd : dispatcherDelivery) :=
  {| d := d dd; globalChecksState := globalChecksState dd;
     sourceChecksState := sourceChecksState dd;
     rcptChecksState := v; sourceAddr := sourceAddr dd;
     sourceBlock := sourceBlock dd; deliveries := deliveries dd;
     msgMeta := msgMeta dd; checkScore := checkScore dd;
     authRes := authRes dd; header := header dd |}.

Definition set_sourceAddr (v : string) (dd : dispatcherDelivery) :=
  {| d := d dd; globalChecksState := globalChecksState dd;
     sourceChecksState := sourceChecksState dd;
     rcptChecksState := rcptChecksState dd; sourceAddr := v;
     sourceBlock := sourceBlock dd; deliveries := deliveries dd;
     msgMeta := msgMeta dd; checkScore := checkScore dd;
     authRes := authRes dd; header := header dd |}.

Definition set_sourceBlock (v : option sourceBlock.t) (dd : dispatcherDelivery) :=
  {| d := d dd; globalChecksState := globalChecksState dd;
     sourceChecksState := sourceChecksState dd;
     rcptChecksState := rcptChecksState dd; sourceAddr := sourceAddr dd;
     sourceBlock := v; deliveries := deliveries dd;
     msgMeta := msgMeta dd; checkScore := checkScore dd;
     authRes := authRes dd; header := header dd |}.

Definition set_deliveries (v : gmap nat Delivery.t) (dd : dispatcherDelivery) :=
  {| d := d dd; globalChecksState := globalChecksState dd;
     sourceChecksState := sourceChecksState dd;
     rcptChecksState := rcptChecksState dd; sourceAddr := sourceAddr dd;
     sourceBlock := sourceBlock dd; deliveries := v;
     msgMeta := msgMeta dd; checkScore := checkScore dd;
     authRes := authRes dd; header := header dd |}.

Definition set_Quarantine (v : bool) (dd : dispatcherDelivery) :=
  {| d := d dd; globalChecksState := globalChecksState dd;
     sourceChecksState := sourceChecksState dd;
     rcptChecksState := rcptChecksState dd; sourceAddr := sourceAddr dd;
     sourceBlock := sourceBlock dd; deliveries := deliveries dd;
     msgMeta := {| MsgMetadata.Quarantine := v |}; checkScore := checkScore dd;
     authRes := authRes dd; header := header dd |}.

Definition set_checkScore (v : Z) (dd : dispatcherDelivery) :=
  {| d := d dd; globalChecksState := globalChecksState dd;
     sourceChecksState := sourceChecksState dd;
     rcptChecksState := rcptChecksState dd; sourceAddr := sourceAddr dd;
     sourceBlock := sourceBlock dd; deliveries := deliveries dd;
     msgMeta := msgMeta dd; checkScore := v;
     authRes := authRes dd; header := header dd |}.

Definition set_authRes (v : list string) (dd : dispatcherDelivery) :=
  {| d := d dd; globalChecksState := globalChecksState dd;
     sourceChecksState := sourceChecksState dd;
     rcptChecksState := rcptChecksState dd; sourceAddr := sourceAddr dd;
     sourceBlock := sourceBlock dd; deliveries := deliveries dd;
     msgMeta := msgMeta dd; checkScore := checkScore dd;
     authRes := v; header := header dd |}.

Definition set_header (v : Header.t) (dd : dispatcherDelivery) :=
  {| d := d dd; globalChecksState := globalChecksState dd;
     sourceChecksState := sourceChecksState dd;
     rcptChecksState := rcptChecksState dd; sourceAddr := sourceAddr dd;
     sourceBlock := sourceBlock dd; deliveries := deliveries dd;
     msgMeta := msgMeta dd; checkScore := checkScore dd;
     authRes := authRes dd; header := v |}.

(** ** Scoring of check results *)

(** Is the running score [score] at or above the configured threshold. *)
Definition reached (threshold : option Z) (score : Z) : bool :=
  match threshold with
  | Some t => Go.int32 t <=? score
  | None => false
  end.

Definition scoreError (score : Z) : error :=
  SMTPError 550 (5, 7, 0)
    ("Message is rejected due to multiple local policy violations (score "
       +:+ Go.fmt_d score +:+ ")").

(** [dispatcherDelivery.checkResult]: the error returned ([None] for
    [nil]) and the delivery after the call. *)
Definition checkResult (dd : dispatcherDelivery) (checkResult : CheckResult.t)
  : option error * dispatcherDelivery :=
  match CheckResult.RejectErr checkResult with
  | Some err => (Some err, dd)
  | None =>
    let dd := if CheckResult.Quarantine checkResult
              then set_Quarantine true dd else dd in
    let dd := set_checkScore
                (Go.int32 (checkScore dd + CheckResult.ScoreAdjust checkResult)) dd in
    if reached (rejectScore (d dd)) (checkScore dd) then
      (Some (scoreError (checkScore dd)), dd)
    else
      let dd := if reached (quarantineScore (d dd)) (checkScore dd)
                then set_Quarantine true dd else dd in
      let dd := if negb (length (CheckResult.AuthResult checkResult) =? 0)%nat
                then set_authRes (authRes dd ++ CheckResult.AuthResult checkResult) dd
                else dd in
      let dd := set_header
                  (fold_left (fun h field => Header.Add field.1 field.2 h)
                     (Header.Fields (CheckResult.Header checkResult)) (header dd)) dd in
      (None, dd)
  end.

(** ** The dispatcher *)

Section Dispatcher.

(** [strings.Map(unicode.ToLower, s)], the path [strings.ToLower] takes for
    a string that is not pure ASCII; it depends on the Unicode tables. *)
Variable MapToLower : string -> string.

(** [strings.ToLower]. *)
Definition ToLower (s : string) : string :=
  if Go.isASCII s then Go.asciiLower s else MapToLower s.

Definition invalidAddress (what : string) (err : error) : error :=
  SMTPError 501 (5, 1, 3) ("Invalid " +:+ what +:+ " address: " +:+ Error_ err).

(** [dd.checkResult(state.Check...(...))]: the hook of the check state is
    called and its result is scored. *)
Definition runCheck (dd : dispatcherDelivery) (log : history)
    (state : CheckState.t) (h : hook)
  : option error * dispatcherDelivery * history :=
  let res := match h with
             | HConnection => CheckState.CheckConnection state log
             | HSender mailFrom => CheckState.CheckSender state log mailFrom
             | HRcpt to => CheckState.CheckRcpt state log to
             end in
  let '(err, dd) := checkResult dd res in
  (err, dd, log ++ [EvCheck (CheckState.id state) h]).

(** The deferred closures of [Start] at a [return]: each closes its check
    state when the variable [err] of the function body is not [nil].
    [states] are the states whose closure has been deferred, the last
    deferred first, which is the order in which the closures run. *)
Definition deferred (err : option error) (states : list CheckState.t) : history :=
  match err with
  | Some _ => map (fun s => EvClose (CheckState.id s)) states
  | None => []
  end.

(** What [Start] returns: the delivery or the error, the metadata object of
    the message as [Start] leaves it, and the event log. *)
Definition started : Type :=
  (error + dispatcherDelivery) * MsgMetadata.t * history.

(** [Dispatcher.Start] from the point where the source block has been
    chosen (the test of [sourceBlock.rejectErr] to the end).  [err] is
    the variable of the function body declared with [globalChecksState]: it
    is [nil] when control arrives here, the [err] of the [if] statements
    before being variables of their own, and it is assigned again by the
    call of [NewMessage] for the source block. *)
Definition Start_source (dd : dispatcherDelivery) (log : history)
    (globalChecksState : CheckState.t) (sourceBlock : sourceBlock.t)
    (mailFrom : string) : started :=
  let err : option error := None in
  match sourceBlock.rejectErr sourceBlock with
  | Some rejectErr =>
    (inl rejectErr, msgMeta dd, log ++ deferred err [globalChecksState])
  | None =>
    let dd := set_sourceBlock (Some sourceBlock) dd in
    match CheckGroup.NewMessage (sourceBlock.checks sourceBlock) log with
    | inl e =>
      let err := Some e in
      (inl e, msgMeta dd,
       (log ++ [EvNewMessage (CheckGroup.id (sourceBlock.checks sourceBlock)) None])
         ++ deferred err [globalChecksState])
    | inr sourceChecksState =>
      let err : option error := None in
      let log := log ++ [EvNewMessage (CheckGroup.id (sourceBlock.checks sourceBlock))
                           (Some (CheckState.id sourceChecksState))] in
      let '(e, dd, log) := runCheck dd log sourceChecksState HConnection in
      match e with
      | Some e =>
        (inl e, msgMeta dd, log ++ deferred err [sourceChecksState; globalChecksState])
      | None =>
        let '(e, dd, log) := runCheck dd log sourceChecksState (HSender mailFrom) in
        match e with
        | Some e =>
          (inl e, msgMeta dd,
           log ++ deferred err [sourceChecksState; globalChecksState])
        | None =>
          let dd := set_sourceChecksState (Some sourceChecksState) dd in
          let dd := set_sourceAddr mailFrom dd in
          (inr dd, msgMeta dd,
           log ++ deferred err [sourceChecksState; globalChecksState])
        end
      end
    end
  end.

(** [Dispatcher.Start] up to the assignment of [dd.globalChecksState]: the
    global checks.  Left is a [return] of [Start] taken here, right the
    global check state, the delivery and the log with which [Start] goes
    on.  The log of a message starts empty.  After [NewMessage] has
    succeeded the variable [err] of the function body is [nil], and the
    [err] of each [if] statement is a variable of that statement. *)
Definition Start_global (d0 : Dispatcher) (msgMeta0 : MsgMetadata.t) (mailFrom : string)
  : started + (CheckState.t * dispatcherDelivery * history) :=
  let dd := {| d := d0; globalChecksState := None; sourceChecksState := None;
               rcptChecksState := ∅; sourceAddr := ""; sourceBlock := None;
               deliveries := ∅; msgMeta := msgMeta0; checkScore := 0;
               authRes := []; header := [] |} in
  let log : history := [] in
  match CheckGroup.NewMessage (globalChecks d0) log with
  | inl e =>
    inl (inl e, msgMeta0, log ++ [EvNewMessage (CheckGroup.id (globalChecks d0)) None])
  | inr globalChecksState =>
    let err : option error := None in
    let log := log ++ [EvNewMessage (CheckGroup.id (globalChecks d0))
                         (Some (CheckState.id globalChecksState))] in
    let '(e, dd, log) := runCheck dd log globalChecksState HConnection in
    match e with
    | Some e => inl (inl e, msgMeta dd, log ++ deferred err [globalChecksState])
    | None =>
      let '(e, dd, log) := runCheck dd log globalChecksState (HSender mailFrom) in
      match e with
      | Some e => inl (inl e, msgMeta dd, log ++ deferred err [globalChecksState])
      | None => inr (globalChecksState,
                     set_globalChecksState (Some globalChecksState) dd, log)
      end
    end
  end.

(** [Dispatcher.Start]. *)
Definition Start (d0 : Dispatcher) (msgMeta0 : MsgMetadata.t) (mailFrom : string)
  : started :=
  match Start_global d0 msgMeta0 mailFrom with
  | inl returned => returned
  | inr (globalChecksState, dd, log) =>
    let err : option error := None in
    match perSource d0 !! ToLower mailFrom with
    | Some sourceBlock => Start_source dd log globalChecksState sourceBlock mailFrom
    | None =>
      match splitAddress mailFrom with
      | inl e =>
        (inl (invalidAddress "sender" e), msgMeta dd,
         log ++ deferred err [globalChecksState])
      | inr (_, domain) =>
        match perSource d0 !! ToLower domain with
        | Some sourceBlock =>
          Start_source dd log globalChecksState sourceBlock mailFrom
        | None =>
          Start_source dd log globalChecksState (defaultSource d0) mailFrom
        end
      end
    end
  end.

(** The loop of [AddRcpt] over the targets of the recipient block. *)
Fixpoint AddRcpt_targets (dd : dispatcherDelivery) (log : history) (to : string)
    (targets : list DeliveryTarget.t)
  : option error * dispatcherDelivery * history :=
  match targets with
  | [] => (None, dd, log)
  | target :: rest =>
    let opened :=
      match deliveries dd !! DeliveryTarget.id target with
      | Some delivery => inr (delivery, dd, log)
      | None =>
        match DeliveryTarget.Start target log with
        | inl err => inl (err, log ++ [EvStart (DeliveryTarget.id target) None])
        | inr delivery =>
          inr (delivery,
               set_deliveries (<[DeliveryTarget.id target := delivery]> (deliveries dd)) dd,
               log ++ [EvStart (DeliveryTarget.id target) (Some (Delivery.id delivery))])
        end
      end in
    match opened with
    | inl (err, log) => (Some err, dd, log)
    | inr (delivery, dd, log) =>
      let log' := log ++ [EvAddRcpt (DeliveryTarget.id target) (Delivery.id delivery) to] in
      match Delivery.AddRcpt delivery log to with
      | Some err => (Some err, dd, log')
      | None => AddRcpt_targets dd log' to rest
      end
    end
  end.

(** [dispatcherDelivery.AddRcpt] from the point where the recipient block
    has been chosen (the test of [rcptBlock.rejectErr] to the end). *)
Definition AddRcpt_block (dd : dispatcherDelivery) (log : history) (to : string)
    (rcptBlock : rcptBlock.t)
  : option error * dispatcherDelivery * history :=
  match rcptBlock.rejectErr rcptBlock with
  | Some rejectErr => (Some rejectErr, dd, log)
  | None =>
    let checked :=
      match rcptChecksState dd !! rcptBlock.id rcptBlock with
      | Some state => inr (state, dd, log)
      | None =>
        match CheckGroup.NewMessage (rcptBlock.checks rcptBlock) log with
        | inl err =>
          inl (err, dd,
               log ++ [EvNewMessage (CheckGroup.id (rcptBlock.checks rcptBlock)) None])
        | inr state =>
          let log := log ++ [EvNewMessage (CheckGroup.id (rcptBlock.checks rcptBlock))
                               (Some (CheckState.id state))] in
          let '(e, dd, log) := runCheck dd log state HConnection in
          match e with
          | Some err => inl (err, dd, log)
          | None =>
            let '(e, dd, log) :=
              runCheck dd log state (HSender (sourceAddr dd)) in
            match e with
            | Some err => inl (err, dd, log)
            | None =>
              inr (state,
                   set_rcptChecksState
                     (<[rcptBlock.id rcptBlock := state]> (rcptChecksState dd)) dd,
                   log)
            end
          end
        end
      end in
    match checked with
    | inl (err, dd, log) => (Some err, dd, log)
    | inr (state, dd, log) =>
      let '(e, dd, log) := runCheck dd log state (HRcpt to) in
      match e with
      | Some err => (Some err, dd, log)
      | None => AddRcpt_targets dd log to (rcptBlock.targets rcptBlock)
      end
    end
  end.

(** [dispatcherDelivery.AddRcpt].  The result is [None] when the call
    dereferences the [nil] default block of a zero-valued [sourceBlock],
    which is a run-time panic; [Start] never returns such a delivery. *)
Definition AddRcpt (dd : dispatcherDelivery) (log : history) (to : string)
  : option (option error * dispatcherDelivery * history) :=
  let perRcpt := from_option sourceBlock.perRcpt ∅ (sourceBlock dd) in
  match perRcpt !! ToLower to with
  | Some rcptBlock => Some (AddRcpt_block dd log to rcptBlock)
  | None =>
    match splitAddress to with
    | inl err => Some (Some (invalidAddress "recipient" err), dd, log)
    | inr (_, domain) =>
      match perRcpt !! ToLower domain with
      | Some rcptBlock => Some (AddRcpt_block dd log to rcptBlock)
      | None =>
        match sourceBlock dd with
        | Some sb => Some (AddRcpt_block dd log to (sourceBlock.defaultRcpt sb))
        | None => None
        end
      end
    end
  end.

(** The loop of [Commit] over the deliveries, in the order [ds] in which
    the [range] over the map yields them. *)
Fixpoint Commit_range (ds : list (nat * Delivery.t)) (log : history)
  : option error * history :=
  match ds with
  | [] => (None, log)
  | (_, delivery) :: rest =>
    let log' := log ++ [EvCommit (Delivery.id delivery)] in
    match Delivery.Commit delivery log with
    | Some err => (Some err, log')
    | None => Commit_range rest log'
    end
  end.

(** The loop of [Abort]. *)
Fixpoint Abort_range (ds : list (nat * Delivery.t)) (lastErr : option error)
    (log : history) : option error * history :=
  match ds with
  | [] => (lastErr, log)
  | (_, delivery) :: rest =>
    let log' := log ++ [EvAbort (Delivery.id delivery)] in
    match Delivery.Abort delivery log with
    | Some err => Abort_range rest (Some err) log'
    | None => Abort_range rest lastErr log'
    end
  end.

(** The order of a [range] over a map is not specified: [order] is one of
    the enumerations of the entries of [m]. *)
Definition ranges {V : Type} (m : gmap nat V) (order : list (nat * V)) : Prop :=
  order ≡ₚ map_to_list m.

(** [dispatcherDelivery.Commit] and [dispatcherDelivery.Abort], for the
    order [order] of the [range] over [dd.deliveries]. *)
Definition Commit (dd : dispatcherDelivery) (order : list (nat * Delivery.t))
    (log : history) : option error * history :=
  Commit_range order log.

Definition Abort (dd : dispatcherDelivery) (order : list (nat * Delivery.t))
    (log : history) : option error * history :=
  Abort_range order None log.

(** *** Vocabulary of the statements about the dispatcher *)

(** The part of an address after its first [@]: its domain ([""] when
    there is no [@]). *)
Fixpoint after_at (s : string) : string :=
  match s with
  | EmptyString => EmptyString
  | String c s' => if Ascii.eqb c at_sign then s' else after_at s'
  end.

(** The part before the first [@]. *)
Fixpoint before_at (s : string) : string :=
  match s with
  | EmptyString => EmptyString
  | String c s' => if Ascii.eqb c at_sign then EmptyString else String c (before_at s')
  end.

(** The resolution of a policy block in the words of the specification:
    the exact lowercased address, then the lowercased domain, then the
    default block, for every address. *)
Definition resolve_claimed {B : Type} (blocks : gmap string B) (dflt : B)
    (addr : string) : B :=
  match blocks !! ToLower addr with
  | Some b => b
  | None =>
    match blocks !! ToLower (after_at addr) with
    | Some b => b
    | None => dflt
    end
  end.

(** The resolution with the refusal of malformed addresses: the exact
    lowercased address; otherwise the address has to pass [splitAddress],
    and its lowercased domain is looked up, then the default block is
    taken.  Left is the error of [splitAddress]. *)
Definition resolve_order {B : Type} (blocks : gmap string B) (dflt : B)
    (addr : string) : error + B :=
  match blocks !! ToLower addr with
  | Some b => inr b
  | None =>
    match splitAddress addr with
    | inl e => inl e
    | inr (_, domain) => inr (default dflt (blocks !! ToLower domain))
    end
  end.

(** A sequence of [AddRcpt] calls on a delivery, whatever each call
    returns; [None] if one of them panics. *)
Fixpoint AddRcpts (dd : dispatcherDelivery) (log : history) (tos : list string)
  : option (dispatcherDelivery * history) :=
  match tos with
  | [] => Some (dd, log)
  | to :: rest =>
    match AddRcpt dd log to with
    | Some (_, dd, log) => AddRcpts dd log rest
    | None => None
    end
  end.

End Dispatcher.



(** An event of the checks, not of a target or a delivery. *)
Definition check_event (ev : event) : Prop :=
  match ev with
  | EvNewMessage _ _ | EvCheck _ _ | EvClose _ => True
  | _ => False
  end.

(** Check results processed one after the other, whatever each call of
    [checkResult] returns. *)
Definition processAll (dd : dispatcherDelivery) (results : list CheckResult.t)
  : dispatcherDelivery :=
  fold_left (fun dd res => (checkResult dd res).2) results dd.

(** The [Commit] calls on the deliveries [ds], in order. *)
Definition commitEvents (ds : list (nat * Delivery.t)) : history :=
  map (fun e => EvCommit (Delivery.id e.2)) ds.

(** Every delivery of [ds] commits without error when called in order from
    the log [log]. *)
Fixpoint commits_ok (ds : list (nat * Delivery.t)) (log : history) : Prop :=
  match ds with
  | [] => True
  | (_, delivery) :: rest =>
    Delivery.Commit delivery log = None
    /\ commits_ok rest (log ++ [EvCommit (Delivery.id delivery)])
  end.

Definition abortEvents (ds : list (nat * Delivery.t)) : history :=
  map (fun e => EvAbort (Delivery.id e.2)) ds.

(** What the [Abort] calls on [ds] return, in order, from the log [log]. *)
Fixpoint abortOutcomes (ds : list (nat * Delivery.t)) (log : history)
  : list (option error) :=
  match ds with
  | [] => []
  | (_, delivery) :: rest =>
    Delivery.Abort delivery log
      :: abortOutcomes rest (log ++ [EvAbort (Delivery.id delivery)])
  end.

(** The last error among the outcomes, [None] when there is none. *)
Definition lastObserved (outcomes : list (option error)) : option error :=
  last (omap id outcomes).

(** The number of [@] in a string. *)
Fixpoint count_at (s : string) : nat :=
  match s with
  | EmptyString => 0%nat
  | String c s' => if Ascii.eqb c at_sign then S (count_at s') else count_at s'
  end.

(** The address matcher in the words of the specification: the lowercased
    pair of mailbox and domain. *)
Definition splitAddress_lowercased (addr : string) : error + (string * string) :=
  let low := Go.asciiLower addr in
  if (count_at addr =? 1)%nat then
    if String.eqb (before_at low) "" || String.eqb (after_at low) ""
    then inl (Errorf "malformed address")
    else inr (before_at low, after_at low)
  else if String.eqb low "postmaster" then inr ("postmaster", "")
  else inl (Errorf "malformed address").

(** ** The MTA-STS policy cache *)

Module mtasts.

(** Modelled from the spec: the declaration of [Policy] is not among the
    sources; a policy has a mode, a maximal age in seconds and MX
    patterns. *)
Record Policy : Type := {
  Mode : string;
  MaxAge : Z;
  MX : list string
}.

Definition ErrNoPolicy : error := Errorf "mtasts: no MTA-STS policy found".

(** What [Cache.fetch] obtains from the file system, the clock, the
    resolver and the policy host during one call.  [readDNSRecord] is not
    among the sources.  An instant is a number; [expired fetchTime maxAge]
    is the test [fetchTime.Add(time.Duration(maxAge) * time.Second)
    .Before(time.Now())]. *)
Record Env : Type := {
  load : string -> error + (string * Z * option Policy);
  IsNotExist : error -> bool;
  expired : Z -> Z -> bool;
  LookupTXT : string -> error + list string;
  permanentDNSError : error -> bool;
  readDNSRecord : string -> error + string;
  downloadPolicy : string -> error + Policy;
  Now : Z;
  store : string -> string -> Z -> Policy -> option error
}.

(** [Cache.fetch] after the cache file has been read. *)
Definition fetch_lookup (env : Env) (domain : string) (validCache : bool)
    (cachedId : string) (cachedPolicy : option Policy)
  : bool * option Policy * option error :=
  match LookupTXT env ("_mta-sts." +:+ domain) with
  | inl err =>
    if permanentDNSError env err then (false, None, Some ErrNoPolicy)
    else (false, None, Some err)
  | inr records =>
    match records with
    | [record] =>
      match readDNSRecord env record with
      | inl _ =>
        if validCache then (true, cachedPolicy, None)
        else (false, None, Some ErrNoPolicy)
      | inr dnsId =>
        if negb validCache || negb (String.eqb dnsId cachedId) then
          match downloadPolicy env domain with
          | inl err => (false, None, Some err)
          | inr policy =>
            match store env domain dnsId (Now env) policy with
            | Some _ => (false, cachedPolicy, None)
            | None => (false, Some policy, None)
            end
          end
        else (true, cachedPolicy, None)
      end
    | _ =>
      if validCache then (true, cachedPolicy, None)
      else (false, None, Some ErrNoPolicy)
    end
  end.

(** [Cache.fetch]: the values of [cacheHit], [p] and [err].  The result is
    [None] when the cache file holds no policy and [cachedPolicy.MaxAge]
    dereferences [nil], a run-time panic. *)
Definition fetch (env : Env) (domain : string)
  : option (bool * option Policy * option error) :=
  match load env domain with
  | inl err =>
    if negb (IsNotExist env err) then Some (false, None, Some err)
    else Some (fetch_lookup env domain false "" None)
  | inr (cachedId, fetchTime, cachedPolicy) =>
    match cachedPolicy with
    | None => None
    | Some p =>
      let validCache := negb (expired env fetchTime (MaxAge p)) in
      Some (fetch_lookup env domain validCache cachedId cachedPolicy)
    end
  end.

(** [Cache.Get]. *)
Definition Get (env : Env) (domain : string) : option (option Policy * option error) :=
  match fetch env domain with
  | Some (_, p, err) => Some (p, err)
  | None => None
  end.

End mtasts.

(** ** Concrete messages *)

Module Ex.

Definition accept : CheckResult.t :=
  {| CheckResult.RejectErr := None; CheckResult.Quarantine := false;
     CheckResult.ScoreAdjust := 0; CheckResult.AuthResult := [];
     CheckResult.Header := [] |}.

Definition adjust (n : Z) : CheckResult.t :=
  {| CheckResult.RejectErr := None; CheckResult.Quarantine := false;
     CheckResult.ScoreAdjust := n; CheckResult.AuthResult := [];
     CheckResult.Header := [] |}.

Definition blocked : error := SMTPError 550 (5, 7, 1) "Blocked by policy".

Definition reject (n : Z) : CheckResult.t :=
  {| CheckResult.RejectErr := Some blocked; CheckResult.Quarantine := true;
     CheckResult.ScoreAdjust := n; CheckResult.AuthResult := ["spf=fail"];
     CheckResult.Header := [("X-Spam", "yes")] |}.

(** A check state whose hooks all answer [res]. *)
Definition state (i : nat) (res : CheckResult.t) : CheckState.t :=
  {| CheckState.id := i;
     CheckState.CheckConnection := fun _ => res;
     CheckState.CheckSender := fun _ _ => res;
     CheckState.CheckRcpt := fun _ _ => res |}.

Definition group (g i : nat) (res : CheckResult.t) : CheckGroup.t :=
  {| CheckGroup.id := g; CheckGroup.NewMessage := fun _ => inr (state i res) |}.

Definition broken (g : nat) : CheckGroup.t :=
  {| CheckGroup.id := g;
     CheckGroup.NewMessage := fun _ => inl (Errorf "check is not available") |}.

Definition delivery (i : nat) (commit abort : option error) : Delivery.t :=
  {| Delivery.id := i;
     Delivery.AddRcpt := fun _ _ => None;
     Delivery.Commit := fun _ => commit;
     Delivery.Abort := fun _ => abort |}.

Definition target (t i : nat) : DeliveryTarget.t :=
  {| DeliveryTarget.id := t;
     DeliveryTarget.Start := fun _ => inr (delivery i None None) |}.

Definition rcpt : rcptBlock.t :=
  {| rcptBlock.id := 0; rcptBlock.checks := group 2 12 accept;
     rcptBlock.rejectErr := None; rcptBlock.targets := [target 0 100] |}.

Definition refusedRcpt : rcptBlock.t :=
  {| rcptBlock.id := 1; rcptBlock.checks := group 3 13 accept;
     rcptBlock.rejectErr := Some blocked; rcptBlock.targets := [target 0 100] |}.

Definition source : sourceBlock.t :=
  {| sourceBlock.checks := group 1 11 accept; sourceBlock.rejectErr := None;
     sourceBlock.perRcpt := {[ "spam.example" := refusedRcpt ]};
     sourceBlock.defaultRcpt := rcpt |}.

Definition refusedSource : sourceBlock.t :=
  {| sourceBlock.checks := group 4 14 accept; sourceBlock.rejectErr := Some blocked;
     sourceBlock.perRcpt := ∅; sourceBlock.defaultRcpt := rcpt |}.

Definition brokenSource : sourceBlock.t :=
  {| sourceBlock.checks := broken 5; sourceBlock.rejectErr := None;
     sourceBlock.perRcpt := ∅; sourceBlock.defaultRcpt := rcpt |}.

Definition checkedSource : sourceBlock.t :=
  {| sourceBlock.checks := group 6 16 (reject 0); sourceBlock.rejectErr := None;
     sourceBlock.perRcpt := ∅; sourceBlock.defaultRcpt := rcpt |}.

(** Reject at score 10, quarantine at score 5. *)
Definition disp : Dispatcher :=
  {| globalChecks := group 0 10 accept;
     perSource := {[ "bad.example" := refusedSource; "odd.example" := brokenSource;
                     "strict.example" := checkedSource ]};
     defaultSource := source;
     rejectScore := Some 10; quarantineScore := Some 5;
     hostname := "mx.example.org" |}.

(** The same dispatcher with a global check that rejects every message. *)
Definition strict : Dispatcher :=
  {| globalChecks := group 0 10 (reject 0);
     perSource := perSource disp; defaultSource := source;
     rejectScore := Some 10; quarantineScore := Some 5;
     hostname := "mx.example.org" |}.

Definition meta : MsgMetadata.t := {| MsgMetadata.Quarantine := false |}.

Definition quarantined : MsgMetadata.t := {| MsgMetadata.Quarantine := true |}.

(** A stand-in for the Unicode path of [strings.ToLower], which the ASCII
    addresses of these messages do not take. *)
Definition unicodeLower : string -> string := fun s => s.

(** A delivery as [Start] makes it for the sender [a@x]. *)
Definition dd0 : dispatcherDelivery :=
  {| d := disp; globalChecksState := Some (state 10 accept);
     sourceChecksState := Some (state 11 accept);
     rcptChecksState := ∅; sourceAddr := "a@x"; sourceBlock := Some source;
     deliveries := ∅; msgMeta := meta; checkScore := 0;
     authRes := []; header := [] |}.

(** The log of [Start] for the sender [a@x]. *)
Definition log0 : history :=
  [EvNewMessage 0 (Some 10%nat); EvCheck 10 HConnection; EvCheck 10 (HSender "a@x");
   EvNewMessage 1 (Some 11%nat); EvCheck 11 HConnection; EvCheck 11 (HSender "a@x")].

(** The delivery of [Start] after the global checks. *)
Definition afterGlobal : dispatcherDelivery :=
  {| d := disp; globalChecksState := Some (state 10 accept);
     sourceChecksState := None;
     rcptChecksState := ∅; sourceAddr := ""; sourceBlock := None;
     deliveries := ∅; msgMeta := meta; checkScore := 0;
     authRes := []; header := [] |}.

Definition failure : error := Errorf "connection lost".

(** Three opened deliveries; the second fails to commit and to abort. *)
Definition opened : gmap nat Delivery.t :=
  {[ 0%nat := delivery 100 None None;
     1%nat := delivery 101 (Some failure) (Some failure);
     2%nat := delivery 102 None None ]}.

Definition dd3 : dispatcherDelivery := set_deliveries opened dd0.

Definition order3 : list (nat * Delivery.t) :=
  [(0%nat, delivery 100 None None);
   (1%nat, delivery 101 (Some failure) (Some failure));
   (2%nat, delivery 102 None None)].

(** Two opened deliveries that commit and abort. *)
Definition dd2 : dispatcherDelivery :=
  set_deliveries {[ 0%nat := delivery 100 None None;
                    2%nat := delivery 102 None None ]} dd0.

Definition order2 : list (nat * Delivery.t) :=
  [(0%nat, delivery 100 None None); (2%nat, delivery 102 None None)].

Definition policy : mtasts.Policy :=
  {| mtasts.Mode := "enforce"; mtasts.MaxAge := 604800;
     mtasts.MX := ["*.example.org"] |}.

(** No cache file, one TXT record, a policy on the policy host, and a
    cache directory that cannot be written. *)
Definition readonly : mtasts.Env :=
  {| mtasts.load := fun _ => inl (Errorf "no such file or directory");
     mtasts.IsNotExist := fun _ => true;
     mtasts.expired := fun _ _ => false;
     mtasts.LookupTXT := fun _ => inr ["v=STSv1; id=20230101"];
     mtasts.permanentDNSError := fun _ => false;
     mtasts.readDNSRecord := fun _ => inr "20230101";
     mtasts.downloadPolicy := fun _ => inr policy;
     mtasts.Now := 1700000000;
     mtasts.store := fun _ _ _ _ => Some (Errorf "permission denied") |}.

Definition oldPolicy : mtasts.Policy :=
  {| mtasts.Mode := "testing"; mtasts.MaxAge := 86400;
     mtasts.MX := ["mx.example.org"] |}.

(** The same with a cached policy whose id is no longer the one in the
    DNS. *)
Definition outdated : mtasts.Env :=
  {| mtasts.load := fun _ => inr ("20220101", 1600000000, Some oldPolicy);
     mtasts.IsNotExist := fun _ => false;
     mtasts.expired := fun _ _ => false;
     mtasts.LookupTXT := fun _ => inr ["v=STSv1; id=20230101"];
     mtasts.permanentDNSError := fun _ => false;
     mtasts.readDNSRecord := fun _ => inr "20230101";
     mtasts.downloadPolicy := fun _ => inr policy;
     mtasts.Now := 1700000000;
     mtasts.store := fun _ _ _ _ => Some (Errorf "permission denied") |}.

End Ex.

(** ** The body of a message *)

(** The calls that [Body] makes: the [CheckBody] hook of a check state, and
    [Body] of a delivery with the header it is given. *)
Inductive bodyEvent : Type :=
| EvCheckBody (state : nat)
| EvBody (delivery : nat) (hdr : Header.t).

Section Body.

(** The [CheckBody] hook of a check state and the [Body] method of a
    delivery, for the body of the message at hand; what they answer may
    depend on the calls made before.  [Format] is [authres.Format]. *)
Variable CheckBody : CheckState.t -> list bodyEvent -> Header.t -> CheckResult.t.
Variable DeliveryBody : Delivery.t -> list bodyEvent -> Header.t -> option error.
Variable Format : string -> list string -> string.

(** [dd.checkResult(state.CheckBody(dd.cancelCtx, header, body))]. *)
Definition runCheckBody (dd : dispatcherDelivery) (blog : list bodyEvent)
    (state : CheckState.t) (msgHeader : Header.t)
  : option error * dispatcherDelivery * list bodyEvent :=
  let '(err, dd) := checkResult dd (CheckBody state blog msgHeader) in
  (err, dd, blog ++ [EvCheckBody (CheckState.id state)]).

(** The loop of [Body] over the recipient check states, in the order
    [states] of the range over the map. *)
Fixpoint Body_rcptChecks (states : list (nat * CheckState.t))
    (dd : dispatcherDelivery) (blog : list bodyEvent) (msgHeader : Header.t)
  : option error * dispatcherDelivery * list bodyEvent :=
  match states with
  | [] => (None, dd, blog)
  | (_, rcptState) :: rest =>
    let '(e, dd, blog) := runCheckBody dd blog rcptState msgHeader in
    match e with
    | Some err => (Some err, dd, blog)
    | None => Body_rcptChecks rest dd blog msgHeader
    end
  end.

(** The loop of [Body] over the deliveries. *)
Fixpoint Body_deliveries (ds : list (nat * Delivery.t)) (blog : list bodyEvent)
    (hdr : Header.t) : option error * list bodyEvent :=
  match ds with
  | [] => (None, blog)
  | (_, delivery) :: rest =>
    let blog' := blog ++ [EvBody (Delivery.id delivery) hdr] in
    match DeliveryBody delivery blog hdr with
    | Some err => (Some err, blog')
    | None => Body_deliveries rest blog' hdr
    end
  end.

(** The header after [Body] has added the Authentication-Results field and
    the accumulated header fields of the checks. *)
Definition stamp (dd : dispatcherDelivery) (msgHeader : Header.t) : Header.t :=
  let h := if negb (length (authRes dd) =? 0)%nat
           then Header.Add "Authentication-Results"
                  (Format (hostname (d dd)) (authRes dd)) msgHeader
           else msgHeader in
  fold_left (fun h field => Header.Add field.1 field.2 h)
    (Header.Fields (header dd)) h.

(** [dispatcherDelivery.Body], for the orders [rcptOrder] and [delOrder] of
    the ranges over [dd.rcptChecksState] and [dd.deliveries].  The result
    is [None] when the global or the source check state is [nil] and the
    call of its hook panics. *)
Definition Body (dd : dispatcherDelivery) (rcptOrder : list (nat * CheckState.t))
    (delOrder : list (nat * Delivery.t)) (msgHeader : Header.t)
  : option (option error * dispatcherDelivery * list bodyEvent) :=
  match globalChecksState dd with
  | None => None
  | Some globalState =>
    let '(e, dd, blog) := runCheckBody dd [] globalState msgHeader in
    match e with
    | Some err => Some (Some err, dd, blog)
    | None =>
      match sourceChecksState dd with
      | None => None
      | Some sourceState =>
        let '(e, dd, blog) := runCheckBody dd blog sourceState msgHeader in
        match e with
        | Some err => Some (Some err, dd, blog)
        | None =>
          let '(e, dd, blog) := Body_rcptChecks rcptOrder dd blog msgHeader in
          match e with
          | Some err => Some (Some err, dd, blog)
          | None =>
            let '(e, blog) := Body_deliveries delOrder blog (stamp dd msgHeader) in
            Some (e, dd, blog)
          end
        end
      end
    end
  end.

End Body.

(** The [CheckBody] calls on the check states [states], in order. *)
Definition checkBodyEvents (states : list CheckState.t) : list bodyEvent :=
  map (fun st => EvCheckBody (CheckState.id st)) states.

(** The [Body] calls on the deliveries [ds] with the header [hdr]. *)
Definition bodyEvents (ds : list (nat * Delivery.t)) (hdr : Header.t)
  : list bodyEvent :=
  map (fun e => EvBody (Delivery.id e.2) hdr) ds.

(** The header fields of the check results that [checkResult] accepts when
    it processes [results] one after the other from [dd], in the order of
    the results and, for each result, of its fields. *)
Fixpoint acceptedFields (dd : dispatcherDelivery) (results : list CheckResult.t)
  : list (string * string) :=
  match results with
  | [] => []
  | res :: rest =>
    match (checkResult dd res).1 with
    | None => CheckResult.Header res ++ acceptedFields (checkResult dd res).2 rest
    | Some _ => acceptedFields (checkResult dd res).2 rest
    end
  end.

(** The check results that the [CheckBody] hooks of the check states
    [states] give when they are called one after the other after the calls
    [blog]. *)
Fixpoint bodyResults
    (CheckBody : CheckState.t -> list bodyEvent -> Header.t -> CheckResult.t)
    (states : list CheckState.t) (blog : list bodyEvent) (msgHeader : Header.t)
  : list CheckResult.t :=
  match states with
  | [] => []
  | st :: rest =>
    CheckBody st blog msgHeader
      :: bodyResults CheckBody rest (blog ++ [EvCheckBody (CheckState.id st)]) msgHeader
  end.

(** [checkResult] returns [nil] for every check result of [results],
    processed one after the other from [dd]. *)
Fixpoint accepted (dd : dispatcherDelivery) (results : list CheckResult.t) : Prop :=
  match results with
  | [] => True
  | res :: rest =>
    (checkResult dd res).1 = None /\ accepted (checkResult dd res).2 rest
  end.

(** Every delivery of [ds] takes the body without error when the deliveries
    are called in order after the calls [blog]. *)
Fixpoint bodies_ok
    (DeliveryBody : Delivery.t -> list bodyEvent -> Header.t -> option error)
    (ds : list (nat * Delivery.t)) (blog : list bodyEvent) (hdr : Header.t) : Prop :=
  match ds with
  | [] => True
  | (_, delivery) :: rest =>
    DeliveryBody delivery blog hdr = None
    /\ bodies_ok DeliveryBody rest (blog ++ [EvBody (Delivery.id delivery) hdr]) hdr
  end.

(** ** The cache refresh *)

Module refresh.

(** Is the error the variable [ErrNoPolicy].  An error is a value here, so
    the comparison [err == ErrNoPolicy] is a comparison of messages. *)
Definition isErrNoPolicy (err : error) : bool :=
  match err with
  | Errorf msg => String.eqb msg "mtasts: no MTA-STS policy found"
  | SMTPError _ _ _ => false
  end.

(** The loop of [Cache.RefreshCache] over the directory entries, each a name
    and whether it is a directory; the result is the list of the files that
    [os.Remove] has been called on, or [None] when [fetch] panics. *)
Fixpoint RefreshCache_entries (env : mtasts.Env) (dir : list (string * bool))
  : option (list string) :=
  match dir with
  | [] => Some []
  | (name, isDir) :: rest =>
    if isDir then RefreshCache_entries env rest
    else
      match mtasts.fetch env name with
      | None => None
      | Some (cacheHit, _, err) =>
        let removed :=
          if negb cacheHit && from_option isErrNoPolicy false err
          then [name] else [] in
        option_map (app removed) (RefreshCache_entries env rest)
      end
  end.

(** [Cache.RefreshCache], for the result [readDir] of [ioutil.ReadDir]: the
    error returned and the files removed. *)
Definition RefreshCache (env : mtasts.Env) (readDir : error + list (string * bool))
  : option (option error * list string) :=
  match readDir with
  | inl err => Some (Some err, [])
  | inr dir => option_map (pair None) (RefreshCache_entries env dir)
  end.

End refresh.

(** ** The SMTP session *)

Module SMTP.

(** The calls that a session makes on the dispatcher and on its delivery;
    [ok] tells whether the call returned without error. *)
Inductive call : Type :=
| CallStart (mailFrom : string) (ok : bool)
| CallAddRcpt (delivery : nat) (to : string)
| CallBody (delivery : nat) (ok : bool)
| CallCommit (delivery : nat) (ok : bool)
| CallAbort (delivery : nat).

(** Modelled from the spec: the interface [module.Delivery], as the session
    uses it. *)
Record Delivery : Type := {
  id : nat;
  AddRcpt : list call -> string -> option error;
  Body : list call -> Header.t -> option error;
  Commit : list call -> option error;
  Abort : list call -> option error
}.

(** Of [SMTPEndpoint], the dispatcher and the [submission] flag;
    [dispatcher_Start] gives the delivery ([None] for [nil]) and the error
    that [Start] returns. *)
Record Endpoint : Type := {
  dispatcher_Start : list call -> string -> option Delivery * option error;
  submission : bool
}.

(** [SMTPSession], with the fields of its context that [Mail] sets. *)
Record Session : Type := {
  endp : Endpoint;
  delivery : option Delivery;
  DeliveryID : string;
  From : string
}.

Definition set_delivery (v : option Delivery) (s : Session) : Session :=
  {| endp := endp s; delivery := v; DeliveryID := DeliveryID s; From := From s |}.

(** The abort of [Reset] and of [Logout]. *)
Definition abort (s : Session) (log : list call) : Session * list call :=
  match delivery s with
  | Some dl => (set_delivery None s, log ++ [CallAbort (id dl)])
  | None => (s, log)
  end.

(** [SMTPSession.Reset]. *)
Definition Reset (s : Session) (log : list call) : Session * list call :=
  abort s log.

(** [SMTPSession.Logout]: it returns [nil]. *)
Definition Logout (s : Session) (log : list call)
  : option error * Session * list call :=
  let '(s, log) := abort s log in (None, s, log).

(** [SMTPSession.Mail]; [rawID] is what [rand.Read] gives, in hexadecimal,
    or its error. *)
Definition Mail (s : Session) (log : list call) (rawID : error + string)
    (mailFrom : string) : option error * Session * list call :=
  match rawID with
  | inl _ =>
    (Some (SMTPError 451 (0, 0, 0) "Temporary internal error, try again later"),
     s, log)
  | inr hexID =>
    let s := {| endp := endp s; delivery := delivery s;
                DeliveryID := hexID; From := mailFrom |} in
    let '(dl, err) := dispatcher_Start (endp s) log mailFrom in
    (err, set_delivery dl s, log ++ [CallStart mailFrom (bool_decide (err = None))])
  end.

(** [SMTPSession.Rcpt]; [None] when the session has no delivery and the
    call panics. *)
Definition Rcpt (s : Session) (log : list call) (to : string)
  : option (option error * Session * list call) :=
  match delivery s with
  | None => None
  | Some dl => Some (AddRcpt dl log to, s, log ++ [CallAddRcpt (id dl) to])
  end.

(** [SMTPSession.Data]; [readHeader], [prepare] and [buffered] are what
    [textproto.ReadHeader], [SubmissionPrepare] and [buffer.BufferInMemory]
    give for the data at hand. *)
Definition Data (s : Session) (log : list call) (readHeader : error + Header.t)
    (prepare buffered : option error)
  : option (option error * Session * list call) :=
  match readHeader with
  | inl err => Some (Some err, s, log)
  | inr hdr =>
    match (if submission (endp s) then prepare else None) with
    | Some err => Some (Some err, s, log)
    | None =>
      match buffered with
      | Some err => Some (Some err, s, log)
      | None =>
        match delivery s with
        | None => None
        | Some dl =>
          match Body dl log hdr with
          | Some err => Some (Some err, s, log ++ [CallBody (id dl) false])
          | None =>
            let log := log ++ [CallBody (id dl) true] in
            let committed := bool_decide (Commit dl log = None) in
            Some (None, set_delivery None s, log ++ [CallCommit (id dl) committed])
          end
        end
      end
    end
  end.

(** What a client can make the session do. *)
Inductive command : Type :=
| CmdMail (rawID : error + string) (mailFrom : string)
| CmdRcpt (to : string)
| CmdData (readHeader : error + Header.t) (prepare buffered : option error)
| CmdReset
| CmdLogout.

Definition step (s : Session) (log : list call) (c : command)
  : option (Session * list call) :=
  match c with
  | CmdMail rawID mailFrom =>
    let '(_, s, log) := Mail s log rawID mailFrom in Some (s, log)
  | CmdRcpt to =>
    match Rcpt s log to with
    | Some (_, s, log) => Some (s, log)
    | None => None
    end
  | CmdData readHeader prepare buffered =>
    match Data s log readHeader prepare buffered with
    | Some (_, s, log) => Some (s, log)
    | None => None
    end
  | CmdReset => Some (Reset s log)
  | CmdLogout => let '(_, s, log) := Logout s log in Some (s, log)
  end.

(** A sequence of commands; [None] if one of them panics. *)
Fixpoint run (s : Session) (log : list call) (cs : list command)
  : option (Session * list call) :=
  match cs with
  | [] => Some (s, log)
  | c :: rest =>
    match step s log c with
    | Some (s, log) => run s log rest
    | None => None
    end
  end.

(** A call that ends a delivery. *)
Definition terminal (c : call) : bool :=
  match c with
  | CallCommit _ _ | CallAbort _ => true
  | _ => false
  end.

Definition is_Start (c : call) : Prop :=
  match c with
  | CallStart _ _ => True
  | _ => False
  end.

(** May the call [c] come after the call [prev] ([None] at the beginning):
    a [Commit] comes at once after a [Body] of the same delivery that
    returned without error, and only a [Start] comes first or after a
    [Commit] or an [Abort]. *)
Definition allowed (prev : option call) (c : call) : Prop :=
  match c with
  | CallCommit dl _ => prev = Some (CallBody dl true)
  | _ => True
  end
  /\ match prev with
     | Some p => terminal p = true -> is_Start c
     | None => is_Start c
     end.

(** The calls of a log obey the protocol of a delivery. *)
Fixpoint protocol (prev : option call) (log : list call) : Prop :=
  match log with
  | [] => True
  | c :: rest => allowed prev c /\ protocol (Some c) rest
  end.

End SMTP.

(** ** The chain of tables *)

Module table.

(** Modelled from the spec: the interface [module.Table]; [Lookup] gives
    the value, whether the key is there, and the error. *)
Record Table : Type := {
  Lookup : string -> string * bool * option error
}.

(** The struct [Chain], without the names. *)
Record Chain : Type := {
  chain : list Table;
  optional : list bool
}.

(** [NewChain]. *)
Definition NewChain : Chain := {| chain := []; optional := [] |}.

(** The callbacks that [Init] registers for the directives [step] and
    [optional_step]; [tbl] is what [ModuleFromNode] gives for the node. *)
Definition step_callback (tbl : error + Table) (s : Chain) : option error * Chain :=
  match tbl with
  | inl err => (Some err, s)
  | inr tbl => (None, {| chain := chain s ++ [tbl]; optional := optional s ++ [false] |})
  end.

Definition optional_step_callback (tbl : error + Table) (s : Chain)
  : option error * Chain :=
  match tbl with
  | inl err => (Some err, s)
  | inr tbl => (None, {| chain := chain s ++ [tbl]; optional := optional s ++ [true] |})
  end.

(** The directives of a configuration block, as far as [Init] handles
    them. *)
Inductive directive : Type :=
| Step (tbl : error + Table)
| OptionalStep (tbl : error + Table).

(** The callbacks called for the directives [ds], whatever they return. *)
Definition callbacks (ds : list directive) (s : Chain) : Chain :=
  fold_left (fun s dir =>
               match dir with
               | Step tbl => (step_callback tbl s).2
               | OptionalStep tbl => (optional_step_callback tbl s).2
               end) ds s.

(** The loop of [Chain.Lookup] from the step [i] on: [steps] are the
    remaining steps.  The result is [None] when [s.optional[i]] is out of
    range, which panics. *)
Fixpoint Lookup_from (steps : list Table) (opt : list bool) (i : nat) (key : string)
  : option (string * bool * option error) :=
  match steps with
  | [] => Some (key, true, None)
  | step :: rest =>
    let '(val, ok, err) := Lookup step key in
    match err with
    | Some e => Some ("", false, Some e)
    | None =>
      if negb ok then
        match opt !! i with
        | None => None
        | Some true => Lookup_from rest opt (S i) key
        | Some false => Some ("", false, None)
        end
      else Lookup_from rest opt (S i) val
    end
  end.

(** [Chain.Lookup]. *)
Definition Chain_Lookup (s : Chain) (key : string)
  : option (string * bool * option error) :=
  Lookup_from (chain s) (optional s) 0 key.

End table.

(** ** The registry of modules *)

Module registry.

Section Registry.

(** The type [NewModule] of the factories. *)
Variable NewModule : Type.

(** The variables [modules] and [ModuleDirectives]. *)
Record state : Type := {
  modules : gmap string NewModule;
  ModuleDirectives : list string
}.

(** [Register]; [None] when it panics. *)
Definition Register (name : string) (factory : NewModule)
    (cfgDirectives : list string) (st : state) : option state :=
  match modules st !! name with
  | Some _ => None
  | None =>
    Some {| modules := <[name := factory]> (modules st);
            ModuleDirectives := ModuleDirectives st ++ cfgDirectives |}
  end.

(** [GetMod]; [None] is [nil]. *)
Definition GetMod (name : string) (st : state) : option NewModule :=
  modules st !! name.

(** A sequence of registrations; [None] if one of them panics. *)
Fixpoint Registers (rs : list (string * NewModule * list string)) (st : state)
  : option state :=
  match rs with
  | [] => Some st
  | (name, factory, ds) :: rest =>
    match Register name factory ds st with
    | Some st => Registers rest st
    | None => None
    end
  end.

End Registry.

End registry.

(** ** The steps of the pipeline *)

Module pipeline.

(** The first occurrence of the byte [sep] in [s]: what is before it and
    what is after it. *)
Fixpoint cut (s : string) (sep : ascii) : option (string * string) :=
  match s with
  | EmptyString => None
  | String c s' =>
    if Ascii.eqb c sep then Some (EmptyString, s')
    else match cut s' sep with
         | Some (before, after) => Some (String c before, after)
         | None => None
         end
  end.

(** The loop of [strings.SplitN] (in [genSplit]) with [k] cuts left. *)
Fixpoint splitUpTo (k : nat) (s : string) (sep : ascii) : list string :=
  match k with
  | O => [s]
  | S k' =>
    match cut s sep with
    | Some (before, after) => before :: splitUpTo k' after sep
    | None => [s]
    end
  end.

(** [strings.SplitN(s, sep, n)] for a separator of one byte. *)
Definition SplitN (s : string) (sep : ascii) (n : Z) : list string :=
  if n =? 0 then []
  else if n <? 0 then Go.Split s sep
  else splitUpTo (Z.to_nat (n - 1)) s sep.

(** [readOpts]; [None] when [parts[0]] or [parts[1]] is out of range, which
    panics. *)
Definition readOpts (args : list string) : option (gmap string string) :=
  fold_left (fun res arg =>
               match res with
               | None => None
               | Some res =>
                 let parts := SplitN arg "="%char 1 in
                 if (length parts =? 1)%nat then
                   match parts with
                   | p0 :: _ => Some (<[p0 := ""]> res)
                   | [] => None
                   end
                 else
                   match parts with
                   | p0 :: p1 :: _ => Some (<[p0 := p1]> res)
                   | _ => None
                   end
               end) args (Some ∅).

(** [destinationCond]; the compiled regular expression is given by the
    strings it matches. *)
Record destinationCond : Type := {
  value : string;
  regexp : option (string -> bool)
}.

Section Steps.

Variable MapToLower : string -> string.

(** [destinationCond.matches]. *)
Definition matches (cond : destinationCond) (addr : string) : bool :=
  match regexp cond with
  | Some re => re addr
  | None =>
    if (0 <? count_at (value cond))%nat then String.eqb (value cond) addr
    else
      match Go.Split addr at_sign with
      | [_; dom] =>
        String.eqb (ToLower MapToLower dom) (ToLower MapToLower (value cond))
      | _ => false
      end
  end.

(** The loop of [destinationStep.Pass] over the conditions for one
    recipient: the recipient is added to the matched recipients at the
    first condition that matches, and to the unmatched ones at every
    condition tried before. *)
Fixpoint sort_rcpt (conds : list destinationCond) (rcpt : string)
    (matched unmatched : list string) : list string * list string :=
  match conds with
  | [] => (matched, unmatched)
  | cond :: rest =>
    if matches cond rcpt then (matched ++ [rcpt], unmatched)
    else sort_rcpt rest rcpt matched (unmatched ++ [rcpt])
  end.

(** The loop of [destinationStep.Pass] over the recipients: [ctxCpy.To] and
    [unmatchedRcpts]. *)
Definition sort_rcpts (conds : list destinationCond) (to : list string)
  : list string * list string :=
  fold_left (fun acc rcpt => sort_rcpt conds rcpt acc.1 acc.2) to ([], []).

End Steps.

(** What a step gives back as the new body: [nil], the reader it was given,
    or another reader, which is given by what copying it yields. *)
Inductive reader : Type :=
| Nil
| Same
| Other (copied : error + string).

(** The error of a step: [module.ErrSilentDrop] or another error. *)
Inductive stepError : Type :=
| ErrSilentDrop
| Failed (err : error).

Section Pipeline.

(** The delivery context, which the steps may change. *)
Variable Context : Type.

(** [SMTPPipelineStep]: [Pass] with the context and the body, giving the new
    body, whether to go on, the error, and the context afterwards. *)
Definition Step : Type :=
  Context -> string -> reader * bool * option stepError * Context.

(** [stopStep.Pass]. *)
Definition stopStep : Step := fun ctx _ => (Nil, false, None, ctx).

(** The loop of [passThroughPipeline]: [buf] is the content of the buffer.
    The result is the new body ([None] for [nil]), whether to go on, the
    error, and the context. *)
Fixpoint pass_steps (steps : list Step) (ctx : Context) (buf : string)
  : option string * bool * option error * Context :=
  match steps with
  | [] => (Some buf, true, None, ctx)
  | step :: rest =>
    let '(r, cont, err, ctx) := step ctx buf in
    let stop :=
      if negb cont then
        match err with
        | Some ErrSilentDrop => Some (None, false, None)
        | Some (Failed e) => Some (None, true, Some e)
        | None => None
        end
      else None in
    match stop with
    | Some (body, cont, err) => (body, cont, err, ctx)
    | None =>
      match r with
      | Other (inl e) => (None, false, Some e, ctx)
      | Other (inr content) => pass_steps rest ctx content
      | Nil | Same => pass_steps rest ctx buf
      end
    end
  end.

(** [passThroughPipeline]; [msg] is what reading the message yields. *)
Definition passThroughPipeline (steps : list Step) (ctx : Context)
    (msg : error + string) : option string * bool * option error * Context :=
  match msg with
  | inl e => (None, false, Some e, ctx)
  | inr content => pass_steps steps ctx content
  end.

End Pipeline.

(** Modelled from the spec: the declaration of [module.DeliveryContext] is
    not among the sources; these are its fields that the steps below read
    or write.  A context is a value here, so [DeepCopy] is the identity. *)
Record DeliveryContext : Type := {
  To : list string;
  AuthUser : string;
  Opts : gmap string string
}.

Definition set_To (v : list string) (ctx : DeliveryContext) : DeliveryContext :=
  {| To := v; AuthUser := AuthUser ctx; Opts := Opts ctx |}.

Definition set_Opts (v : gmap string string) (ctx : DeliveryContext)
  : DeliveryContext :=
  {| To := To ctx; AuthUser := AuthUser ctx; Opts := v |}.

(** [requireAuthStep.Pass]. *)
Definition requireAuthStep : Step DeliveryContext :=
  fun ctx _ =>
    if negb (String.eqb (AuthUser ctx) "") then (Nil, true, None, ctx)
    else (Nil, false,
          Some (Failed (SMTPError 550 (0, 0, 0) "Authentication is required")), ctx).

(** [filterStep.Pass]; [Apply] is the method of the filter [step.f], which
    gives a reader and an error and may change the context. *)
Definition filterStep
    (Apply : DeliveryContext -> string -> reader * option stepError * DeliveryContext)
    (opts : gmap string string) : Step DeliveryContext :=
  fun ctx msg =>
    let '(r, err, ctx) := Apply (set_Opts opts ctx) msg in
    match err with
    | Some ErrSilentDrop => (Nil, false, None, ctx)
    | Some (Failed e) => (Nil, false, Some (Failed e), ctx)
    | None => (r, true, None, ctx)
    end.

Section Destination.

Variable MapToLower : string -> string.

(** [destinationStep.Pass].  The substeps get the copy of the context with
    the matched recipients, and what they do to it is lost; the reader that
    [passThroughPipeline] gives back is a new one. *)
Definition destinationStep (conds : list destinationCond)
    (substeps : list (Step DeliveryContext)) : Step DeliveryContext :=
  fun ctx msg =>
    let '(matched, unmatchedRcpts) := sort_rcpts MapToLower conds (To ctx) in
    if (length matched =? 0)%nat then (Nil, true, None, ctx)
    else
      let ctxCpy := set_To matched ctx in
      let ctx := set_To unmatchedRcpts ctx in
      let '(newBody, shouldContinue, err, _) :=
        passThroughPipeline DeliveryContext substeps ctxCpy (inr msg) in
      (match newBody with
       | Some content => Other (inr content)
       | None => Nil
       end,
       shouldContinue && negb (length (To ctx) =? 0)%nat,
       option_map Failed err,
       ctx).

End Destination.

End pipeline.

(** ** More concrete messages and caches *)

Module Ex2.

(** A cache file whose id is the one in the DNS, and a policy host that
    cannot be reached. *)
Definition cached : mtasts.Env :=
  {| mtasts.load := fun _ => inr ("20230101", 1699913600, Some Ex.oldPolicy);
     mtasts.IsNotExist := fun _ => false;
     mtasts.expired := fun _ _ => false;
     mtasts.LookupTXT := fun _ => inr ["v=STSv1; id=20230101"];
     mtasts.permanentDNSError := fun _ => false;
     mtasts.readDNSRecord := fun _ => inr "20230101";
     mtasts.downloadPolicy := fun _ => inl (Errorf "no route to host");
     mtasts.Now := 1700000000;
     mtasts.store := fun _ _ _ _ => None |}.

(** The same cache file and a domain that is not in the DNS. *)
Definition vanished : mtasts.Env :=
  {| mtasts.load := fun _ => inr ("20230101", 1699913600, Some Ex.oldPolicy);
     mtasts.IsNotExist := fun _ => false;
     mtasts.expired := fun _ _ => false;
     mtasts.LookupTXT := fun _ => inl (Errorf "no such host");
     mtasts.permanentDNSError := fun _ => true;
     mtasts.readDNSRecord := fun _ => inr "20230101";
     mtasts.downloadPolicy := fun _ => inr Ex.policy;
     mtasts.Now := 1700000000;
     mtasts.store := fun _ _ _ _ => None |}.

(** The delivery of [Ex.dd0] after the recipient [b@y]. *)
Definition dd1 : dispatcherDelivery :=
  set_deliveries {[ 0%nat := Ex.delivery 100 None None ]}
    (set_rcptChecksState {[ 0%nat := Ex.state 12 Ex.accept ]} Ex.dd0).

(** A [CheckBody] hook that accepts the body and gives a header field and
    an Authentication-Results entry; deliveries that take every body; and a
    formatter that joins the entries. *)
Definition checkBody (st : CheckState.t) (blog : list bodyEvent) (hdr : Header.t)
  : CheckResult.t :=
  {| CheckResult.RejectErr := None; CheckResult.Quarantine := false;
     CheckResult.ScoreAdjust := 0; CheckResult.AuthResult := ["spf=pass"];
     CheckResult.Header := [("X-Checked", "yes")] |}.

(** A [CheckBody] hook that rejects the body at the check state 12, the
    one of the recipient block, and accepts it at the others. *)
Definition strictBody (st : CheckState.t) (blog : list bodyEvent) (hdr : Header.t)
  : CheckResult.t :=
  if (CheckState.id st =? 12)%nat then Ex.reject 0 else Ex.accept.

Definition deliveryBody (dl : Delivery.t) (blog : list bodyEvent) (hdr : Header.t)
  : option error := None.

Definition format (host : string) (results : list string) : string :=
  host +:+ "; " +:+ String.concat "; " results.

(** Two check results with header fields. *)
Definition signed : CheckResult.t :=
  {| CheckResult.RejectErr := None; CheckResult.Quarantine := false;
     CheckResult.ScoreAdjust := 0; CheckResult.AuthResult := ["dkim=pass"];
     CheckResult.Header := [("X-A", "1"); ("X-B", "2")] |}.

Definition scanned : CheckResult.t :=
  {| CheckResult.RejectErr := None; CheckResult.Quarantine := false;
     CheckResult.ScoreAdjust := 0; CheckResult.AuthResult := [];
     CheckResult.Header := [("X-C", "3")] |}.

(** A delivery that takes the body and fails to commit; an endpoint whose
    dispatcher gives it; and a session of this endpoint. *)
Definition unreliable : SMTP.Delivery :=
  {| SMTP.id := 7; SMTP.AddRcpt := fun _ _ => None; SMTP.Body := fun _ _ => None;
     SMTP.Commit := fun _ => Some Ex.failure; SMTP.Abort := fun _ => None |}.

Definition endpoint : SMTP.Endpoint :=
  {| SMTP.dispatcher_Start := fun _ _ => (Some unreliable, None);
     SMTP.submission := false |}.

Definition session : SMTP.Session :=
  {| SMTP.endp := endpoint; SMTP.delivery := None;
     SMTP.DeliveryID := ""; SMTP.From := "" |}.

(** A table of aliases and a table of mailboxes, and a chain of each: the
    aliases are optional, the mailboxes are not. *)
Definition aliases : table.Table :=
  {| table.Lookup := fun key =>
       if String.eqb key "postmaster" then ("root", true, None)
       else ("", false, None) |}.

Definition mailboxes : table.Table :=
  {| table.Lookup := fun key =>
       if String.eqb key "root" then ("root@example.org", true, None)
       else ("", false, None) |}.

Definition aliasChain : table.Chain :=
  {| table.chain := [aliases]; table.optional := [true] |}.

Definition mailboxChain : table.Chain :=
  {| table.chain := [mailboxes]; table.optional := [false] |}.

(** Two registrations into an empty registry; a factory is given by a
    number. *)
Definition emptyRegistry : registry.state nat :=
  {| registry.modules := ∅; registry.ModuleDirectives := [] |}.

Definition registrations : list (string * nat * list string) :=
  [("table.chain", 1%nat, ["step"; "optional_step"]); ("smtp", 2%nat, ["hostname"])].

(** A filter that drops every message silently. *)
Definition dropAll (ctx : pipeline.DeliveryContext) (msg : string)
  : pipeline.reader * option pipeline.stepError * pipeline.DeliveryContext :=
  (pipeline.Nil, Some pipeline.ErrSilentDrop, ctx).

(** A context with three recipients, and the conditions of a destination
    block for two domains. *)
Definition ctx3 : pipeline.DeliveryContext :=
  {| pipeline.To := ["a@x"; "b@y"; "c@z"]; pipeline.AuthUser := "";
     pipeline.Opts := ∅ |}.

Definition forX : pipeline.destinationCond :=
  {| pipeline.value := "x"; pipeline.regexp := None |}.

Definition forY : pipeline.destinationCond :=
  {| pipeline.value := "y"; pipeline.regexp := None |}.

End Ex2.

(** ** Vocabulary of the further properties *)

(** The parts of a delivery that [Start] sets and that stay as they are
    afterwards. *)
Definition same_session (dd dd' : dispatcherDelivery) : Prop :=
  d dd' = d dd
  /\ globalChecksState dd' = globalChecksState dd
  /\ sourceChecksState dd' = sourceChecksState dd
  /\ sourceAddr dd' = sourceAddr dd
  /\ sourceBlock dd' = sourceBlock dd.

(** Does some condition of [conds] match the recipient, and does the first
    condition of [conds] not match it. *)
Definition any_matches (MapToLower : string -> string)
    (conds : list pipeline.destinationCond) (rcpt : string) : bool :=
  existsb (fun cond => pipeline.matches MapToLower cond rcpt) conds.

Definition first_fails (MapToLower : string -> string)
    (conds : list pipeline.destinationCond) (rcpt : string) : Prop :=
  exists cond rest,
    conds = cond :: rest /\ pipeline.matches MapToLower cond rcpt = false.

(** * Properties *)

(** ** The address matcher *)

(** The fuel of the two loops of [EqualFold] is enough: more fuel does not
    change the result. *)
Lemma SimpleFold_orbit (r : Z) :
  Go.SimpleFold r = r
  \/ Go.SimpleFold (Go.SimpleFold r) = r
  \/ Go.SimpleFold (Go.SimpleFold (Go.SimpleFold r)) = r.
Proof.
  assert (H : 0x41 <= r <= 0x5A \/ 0x61 <= r <= 0x7A \/ r = 0x17F \/ r = 0x212A
              \/ (~ 0x41 <= r <= 0x5A /\ ~ 0x61 <= r <= 0x7A /\ r <> 0x17F /\ r <> 0x212A))
    by lia.
  destruct H as [H|[H|[->|[->|H]]]].
  - assert (E : In r [0x41;0x42;0x43;0x44;0x45;0x46;0x47;0x48;0x49;0x4A;0x4B;0x4C;0x4D;
                      0x4E;0x4F;0x50;0x51;0x52;0x53;0x54;0x55;0x56;0x57;0x58;0x59;0x5A])
      by (simpl; lia).
    simpl in E. repeat (destruct E as [<-|E]; [vm_compute; auto|]). contradiction.
  - assert (E : In r [0x61;0x62;0x63;0x64;0x65;0x66;0x67;0x68;0x69;0x6A;0x6B;0x6C;0x6D;
                      0x6E;0x6F;0x70;0x71;0x72;0x73;0x74;0x75;0x76;0x77;0x78;0x79;0x7A])
      by (simpl; lia).
    simpl in E. repeat (destruct E as [<-|E]; [vm_compute; auto|]). contradiction.
  - vm_compute; auto.
  - vm_compute; auto.
  - left. unfold Go.SimpleFold, Go.between.
    repeat match goal with
           | |- context [(?a <=? ?b)] => destruct (Z.leb_spec a b)
           | |- context [(?a =? ?b)] => destruct (Z.eqb_spec a b)
           end; simpl; lia.
Qed.

Lemma foldTowards_fuel (k : nat) (sr tr : Z) :
  Go.foldTowards (4 + k) sr tr (Go.SimpleFold sr)
  = Go.foldTowards 4 sr tr (Go.SimpleFold sr).
Proof.
  assert (Hstop : forall n r, r = sr -> Go.foldTowards n sr tr r = r).
  { intros n r ->. destruct n; simpl; [reflexivity|]. now rewrite Z.eqb_refl. }
  change (4 + k)%nat with (S (S (S (S k)))).
  destruct (SimpleFold_orbit sr) as [H|[H|H]].
  - now rewrite !Hstop.
  - cbn [Go.foldTowards].
    destruct (negb (Go.SimpleFold sr =? sr) && (Go.SimpleFold sr <? tr)); [|reflexivity].
    rewrite H, Z.eqb_refl. reflexivity.
  - cbn [Go.foldTowards].
    destruct (negb (Go.SimpleFold sr =? sr) && (Go.SimpleFold sr <? tr)); [|reflexivity].
    destruct (negb (Go.SimpleFold (Go.SimpleFold sr) =? sr)
              && (Go.SimpleFold (Go.SimpleFold sr) <? tr)); [|reflexivity].
    rewrite H, Z.eqb_refl. reflexivity.
Qed.

Lemma drop_bytes_length (n : nat) (s : string) :
  (String.length (Go.drop_bytes n s) <= String.length s)%nat.
Proof.
  revert s. induction n as [|n IH]; intros [|c s]; simpl; auto.
Qed.

Lemma DecodeRuneInString_size (c : ascii) (s : string) :
  exists n, (Go.DecodeRuneInString (String c s)).2 = S n.
Proof.
  unfold Go.DecodeRuneInString.
  repeat match goal with
         | |- context [if ?b then _ else _] => destruct b
         | |- context [match ?x with EmptyString => _ | String _ _ => _ end] =>
           destruct x
         end; simpl; eauto.
Qed.

Lemma nextRune_shorter (c : ascii) (s : string) :
  (String.length (Go.nextRune (String c s)).2 <= String.length s)%nat.
Proof.
  unfold Go.nextRune.
  destruct (Go.byteZ c <? Go.RuneSelf); [simpl; lia|].
  destruct (DecodeRuneInString_size c s) as [n Hn].
  destruct (Go.DecodeRuneInString (String c s)) as [r size]. simpl in Hn. subst size.
  simpl. apply drop_bytes_length.
Qed.

Lemma EqualFold_loop_fuel (n m : nat) (s t : string) :
  (String.length s <= n)%nat -> (String.length s <= m)%nat ->
  Go.EqualFold_loop n s t = Go.EqualFold_loop m s t.
Proof.
  revert m s t. induction n as [|n IH]; intros m s t Hn Hm.
  - destruct s; [|simpl in Hn; lia]. destruct m; reflexivity.
  - destruct s as [|c s]; [destruct m; reflexivity|].
    destruct m as [|m]; [simpl in Hm; lia|].
    destruct t as [|c' t]; [reflexivity|].
    cbn [Go.EqualFold_loop].
    pose proof (nextRune_shorter c s) as Hs.
    destruct (Go.nextRune (String c s)) as [sr s'].
    destruct (Go.nextRune (String c' t)) as [tr t'].
    destruct (Go.foldEq sr tr); [|reflexivity].
    simpl in *. apply IH; lia.
Qed.

Lemma Split_nonempty (s : string) : Go.Split s at_sign <> [].
Proof.
  destruct s as [|c s]; simpl; [discriminate|].
  destruct (Ascii.eqb c at_sign); [discriminate|].
  destruct (Go.Split s at_sign); discriminate.
Qed.

Lemma Split_length (s : string) :
  length (Go.Split s at_sign) = S (count_at s).
Proof.
  induction s as [|c s IH]; simpl; [reflexivity|].
  destruct (Ascii.eqb c at_sign); simpl; [now rewrite IH|].
  destruct (Go.Split s at_sign) as [|p ps] eqn:E; simpl in *; [discriminate|].
  exact IH.
Qed.

Lemma Split_no_at (s : string) :
  count_at s = 0%nat -> Go.Split s at_sign = [s].
Proof.
  induction s as [|c s IH]; simpl; [reflexivity|].
  destruct (Ascii.eqb c at_sign); [discriminate|].
  intros H. now rewrite (IH H).
Qed.

Lemma Split_one_at (s : string) :
  count_at s = 1%nat ->
  Go.Split s at_sign = [before_at s; after_at s]
  /\ s = before_at s +:+ "@" +:+ after_at s
  /\ count_at (before_at s) = 0%nat /\ count_at (after_at s) = 0%nat.
Proof.
  induction s as [|c s IH]; simpl; [discriminate|].
  destruct (Ascii.eqb c at_sign) eqn:E.
  - intros H. injection H as H. apply Ascii.eqb_eq in E. subst c.
    rewrite (Split_no_at s H). simpl. auto.
  - intros H. destruct (IH H) as (-> & Hs & Hb & Ha). simpl.
    rewrite E. repeat split; [|assumption|assumption].
    change (String c s = String c (before_at s +:+ "@" +:+ after_at s)).
    f_equal. exact Hs.
Qed.

Lemma at_join (m dom : string) :
  count_at m = 0%nat ->
  before_at (m +:+ "@" +:+ dom) = m /\ after_at (m +:+ "@" +:+ dom) = dom
  /\ count_at (m +:+ "@" +:+ dom) = S (count_at dom).
Proof.
  induction m as [|c m IH]; simpl; [auto|].
  destruct (Ascii.eqb c at_sign); [discriminate|].
  intros H. destruct (IH H) as (-> & -> & ->). auto.
Qed.

Lemma length_zero (s : string) : (String.length s =? 0)%nat = true <-> s = "".
Proof. destruct s; simpl; split; congruence. Qed.

(** Every byte that [lowerByte] sends to a lower-case letter is that letter
    or its upper-case form. *)
Lemma lowerByte_inv (c x : ascii) :
  Go.lowerByte c = x ->
  c = x \/ c = ascii_of_N (N_of_ascii x - 32).
Proof.
  intros <-.
  destruct c as [[] [] [] [] [] [] [] []]; vm_compute; auto.
Qed.

Lemma postmaster_any_case (s : string) :
  Go.asciiLower s = "postmaster" ->
  count_at s = 0%nat /\ Go.EqualFold s "postmaster" = true.
Proof.
  intros H.
  do 10 (destruct s as [|? s]; [discriminate|]).
  destruct s; [|discriminate].
  simpl in H.
  repeat match goal with
         | H : String _ _ = String _ _ |- _ => injection H as ? H
         end.
  repeat match goal with
         | H : Go.lowerByte _ = _ |- _ =>
           apply lowerByte_inv in H; destruct H as [-> | ->]
         end; vm_compute; auto.
Qed.

(** C2, as the code has it.  [splitAddress] returns the mailbox and the
    domain of the address with their letters as given, not lowercased (its
    callers lowercase the domain).  It succeeds exactly on an address with
    one [@] between a non-empty mailbox and a non-empty domain, and on an
    address without [@] that is [postmaster] under Go's case folding, which
    is returned as it is with the empty domain; every other address gets
    the error "malformed address".  [postmaster] in any ASCII letter case
    is accepted. *)
Theorem splitAddress_cases (addr : string) :
  (forall mailbox domain : string,
     splitAddress addr = inr (mailbox, domain) <->
     (addr = mailbox +:+ "@" +:+ domain
      /\ count_at mailbox = 0%nat /\ count_at domain = 0%nat
      /\ mailbox <> "" /\ domain <> "")
     \/ (count_at addr = 0%nat /\ Go.EqualFold addr "postmaster" = true
         /\ mailbox = addr /\ domain = ""))
  /\ (forall e : error, splitAddress addr = inl e -> e = Errorf "malformed address")
  /\ (Go.asciiLower addr = "postmaster" -> splitAddress addr = inr (addr, "")).
Proof.
  split; [|split].
  - intros mailbox domain. unfold splitAddress.
    destruct (count_at addr) as [|[|n]] eqn:Hc.
    + rewrite (Split_no_at addr Hc).
      split.
      * destruct (Go.EqualFold addr "postmaster") eqn:E; [|discriminate].
        intros [= <- <-]. right. auto.
      * intros [(-> & Hm & _) | (_ & -> & -> & ->)]; [|reflexivity].
        destruct (at_join mailbox domain Hm) as (_ & _ & Hn). congruence.
    + destruct (Split_one_at addr Hc) as (-> & Hs & Hb & Ha).
      split.
      * destruct (String.length (before_at addr) =? 0)%nat eqn:E1; [discriminate|].
        destruct (String.length (after_at addr) =? 0)%nat eqn:E2; [discriminate|].
        simpl. intros [= <- <-]. left. repeat split; auto.
        -- intros E. rewrite <- length_zero in E. congruence.
        -- intros E. rewrite <- length_zero in E. congruence.
      * intros [(Hs' & Hm & Hd & Hm0 & Hd0) | (H0 & _)]; [|congruence].
        destruct (at_join mailbox domain Hm) as (Hb' & Ha' & _).
        rewrite <- Hs' in Hb', Ha'. rewrite Hb', Ha'.
        destruct (String.length mailbox =? 0)%nat eqn:E1;
          [apply length_zero in E1; contradiction|].
        destruct (String.length domain =? 0)%nat eqn:E2;
          [apply length_zero in E2; contradiction|].
        reflexivity.
    + pose proof (Split_length addr) as Hl. rewrite Hc in Hl.
      destruct (Go.Split addr at_sign) as [|p0 [|p1 [|p2 ps]]]; simpl in Hl;
        try discriminate.
      split; [discriminate|].
      intros [(-> & Hm & Hd & _) | (H0 & _)]; [|congruence].
      destruct (at_join mailbox domain Hm) as (_ & _ & Hn). congruence.
  - intros e. unfold splitAddress.
    destruct (Go.Split addr at_sign) as [|p0 [|p1 [|p2 ps]]].
    + congruence.
    + destruct (Go.EqualFold p0 "postmaster"); congruence.
    + destruct ((String.length p0 =? 0)%nat || (String.length p1 =? 0)%nat); congruence.
    + congruence.
  - intros H. destruct (postmaster_any_case addr H) as (Hc & Hf).
    unfold splitAddress. rewrite (Split_no_at addr Hc), Hf. reflexivity.
Qed.

(** C2, counterexample: the address [Bob@Example.ORG] comes back with its
    capitals, where the lowercased pair is [bob] and [example.org]. *)
Lemma splitAddress_keeps_capitals :
  splitAddress "Bob@Example.ORG" = inr ("Bob", "Example.ORG")
  /\ splitAddress_lowercased "Bob@Example.ORG" = inr ("bob", "example.org")
  /\ splitAddress "Bob@Example.ORG" <> splitAddress_lowercased "Bob@Example.ORG".
Proof. vm_compute. repeat split; discriminate. Qed.

(** Go's case folding also takes the long s (U+017F, the bytes C5 BF) for
    an s. *)
Lemma splitAddress_long_s :
  splitAddress ("po" +:+ String (ascii_of_nat 197) (String (ascii_of_nat 191) "tmaster"))
  = inr ("po" +:+ String (ascii_of_nat 197) (String (ascii_of_nat 191) "tmaster"), "").
Proof. reflexivity. Qed.

(** ** Scoring of check results *)

Lemma int32_small (z : Z) : - 2^31 <= z < 2^31 -> Go.int32 z = z.
Proof.
  intros H. unfold Go.int32.
  rewrite Z.mod_small by lia. lia.
Qed.

Lemma int32_range (z : Z) : - 2^31 <= Go.int32 z < 2^31.
Proof.
  unfold Go.int32.
  pose proof (Z.mod_pos_bound (z + 2^31) (2^32) ltac:(lia)). lia.
Qed.

Lemma reached_spec (threshold : option Z) (score : Z) :
  reached threshold score = true <->
  exists t, threshold = Some t /\ Go.int32 t <= score.
Proof.
  unfold reached. destruct threshold as [t|].
  - rewrite Z.leb_le. split; [eauto|]. now intros (? & [= <-] & ?).
  - split; [discriminate|]. now intros (? & [=] & _).
Qed.

Ltac unfold_checkResult :=
  unfold checkResult;
  repeat match goal with
         | |- context [match ?x with _ => _ end] => destruct x eqn:?
         end; simpl in *.

(** C10.  A check result with a [RejectErr] makes [checkResult] return that
    error and leaves the delivery as it was: the running score, the
    Quarantine flag of the message, the accumulated Authentication-Results
    and the accumulated header fields are unchanged. *)
Theorem checkResult_RejectErr (dd : dispatcherDelivery) (res : CheckResult.t)
    (err : error) :
  CheckResult.RejectErr res = Some err ->
  checkResult dd res = (Some err, dd)
  /\ checkScore (checkResult dd res).2 = checkScore dd
  /\ MsgMetadata.Quarantine (msgMeta (checkResult dd res).2)
     = MsgMetadata.Quarantine (msgMeta dd)
  /\ authRes (checkResult dd res).2 = authRes dd
  /\ header (checkResult dd res).2 = header dd.
Proof.
  intros H. unfold checkResult. rewrite H. auto.
Qed.

Lemma checkResult_RejectErr_witness :
  checkResult Ex.dd0 (Ex.reject 7) = (Some Ex.blocked, Ex.dd0)
  /\ checkScore (checkResult Ex.dd0 (Ex.reject 7)).2 = 0
  /\ MsgMetadata.Quarantine (msgMeta (checkResult Ex.dd0 (Ex.reject 7)).2) = false
  /\ authRes (checkResult Ex.dd0 (Ex.reject 7)).2 = []
  /\ header (checkResult Ex.dd0 (Ex.reject 7)).2 = [].
Proof.
  apply (checkResult_RejectErr Ex.dd0 (Ex.reject 7) Ex.blocked). reflexivity.
Defined.

Lemma checkResult_d (dd : dispatcherDelivery) (res : CheckResult.t) :
  d (checkResult dd res).2 = d dd.
Proof. unfold_checkResult; reflexivity. Qed.

(** C3, as the code has it.  For a check result without [RejectErr], the
    running score becomes the [int32] sum of the score and [ScoreAdjust].
    If [rejectScore] is set and the new score is at least [int32] of it,
    the call returns the SMTP error 550 with enhanced code 5.7.0, and the
    quarantine threshold is not examined: the Quarantine flag of the
    message is then the old flag or the flag of the check result, whatever
    [quarantineScore] is.  Otherwise the call returns [nil], and the
    Quarantine flag is the old flag, or the flag of the check result, or
    the quarantine threshold being reached; so if [quarantineScore] is set
    and the new score is at least [int32] of it, the flag is true
    afterwards, and if it is not set or the score is below it, the
    threshold does not set the flag. *)
Theorem checkResult_scoring (dd : dispatcherDelivery) (res : CheckResult.t) :
  CheckResult.RejectErr res = None ->
  let score := Go.int32 (checkScore dd + CheckResult.ScoreAdjust res) in
  checkScore (checkResult dd res).2 = score
  /\ (forall r : Z, rejectScore (d dd) = Some r -> Go.int32 r <= score ->
      (checkResult dd res).1
      = Some (SMTPError 550 (5, 7, 0)
                ("Message is rejected due to multiple local policy violations (score "
                   +:+ Go.fmt_d score +:+ ")"))
      /\ MsgMetadata.Quarantine (msgMeta (checkResult dd res).2)
         = MsgMetadata.Quarantine (msgMeta dd) || CheckResult.Quarantine res)
  /\ ((forall r : Z, rejectScore (d dd) = Some r -> score < Go.int32 r) ->
      (checkResult dd res).1 = None
      /\ (forall q : Z, quarantineScore (d dd) = Some q -> Go.int32 q <= score ->
          MsgMetadata.Quarantine (msgMeta (checkResult dd res).2) = true)
      /\ ((forall q : Z, quarantineScore (d dd) = Some q -> score < Go.int32 q) ->
          MsgMetadata.Quarantine (msgMeta (checkResult dd res).2)
          = MsgMetadata.Quarantine (msgMeta dd) || CheckResult.Quarantine res)).
Proof.
  intros H score. unfold checkResult. rewrite H.
  set (dd1 := if CheckResult.Quarantine res then set_Quarantine true dd else dd).
  assert (Hd : d dd1 = d dd) by (subst dd1; destruct (CheckResult.Quarantine res); reflexivity).
  assert (Hs : checkScore dd1 = checkScore dd)
    by (subst dd1; destruct (CheckResult.Quarantine res); reflexivity).
  assert (Hq1 : MsgMetadata.Quarantine (msgMeta dd1)
                = MsgMetadata.Quarantine (msgMeta dd) || CheckResult.Quarantine res).
  { subst dd1. destruct (CheckResult.Quarantine res); simpl.
    - rewrite orb_true_r. reflexivity.
    - rewrite orb_false_r. reflexivity. }
  cbn [set_checkScore d checkScore]. rewrite Hd, Hs. fold score.
  split; [|split].
  - destruct (reached (rejectScore (d dd)) score); [reflexivity|].
    destruct (reached (quarantineScore (d dd)) score);
      destruct (negb _); reflexivity.
  - intros r Hr Hle.
    assert (E : reached (rejectScore (d dd)) score = true)
      by (apply reached_spec; eauto).
    rewrite E. split; [reflexivity|]. exact Hq1.
  - intros Hlt.
    assert (E : reached (rejectScore (d dd)) score = false).
    { destruct (reached (rejectScore (d dd)) score) eqn:E; [|reflexivity].
      apply reached_spec in E as (r & Hr & Hle). specialize (Hlt r Hr). lia. }
    rewrite E. split; [|split].
    + destruct (reached (quarantineScore (d dd)) score);
        destruct (negb _); reflexivity.
    + intros q Hq Hle.
      assert (E' : reached (quarantineScore (d dd)) score = true)
        by (apply reached_spec; eauto).
      rewrite E'. destruct (negb _); reflexivity.
    + intros Hbelow.
      assert (E' : reached (quarantineScore (d dd)) score = false).
      { destruct (reached (quarantineScore (d dd)) score) eqn:E'; [|reflexivity].
        apply reached_spec in E' as (q & Hq & Hle). specialize (Hbelow q Hq). lia. }
      rewrite E'. destruct (negb _); exact Hq1.
Qed.

Lemma checkResult_scoring_witness :
  checkScore (checkResult Ex.dd0 (Ex.adjust 7)).2 = 7
  /\ (checkResult Ex.dd0 (Ex.adjust 7)).1 = None
  /\ MsgMetadata.Quarantine (msgMeta (checkResult Ex.dd0 (Ex.adjust 7)).2) = true.
Proof.
  destruct (checkResult_scoring Ex.dd0 (Ex.adjust 7) eq_refl) as (Hs & _ & Hq).
  split; [exact Hs|].
  destruct Hq as (Hn & Hq & _).
  - intros r [= <-]. vm_compute. reflexivity.
  - split; [exact Hn|]. apply (Hq 5); [reflexivity|]. vm_compute. discriminate.
Defined.

(** C3, counterexample.  With [rejectScore] 10 and [quarantineScore] 5, a
    check result that adjusts the score by 10 brings the running score to
    10, which is at least the quarantine threshold; the call returns the
    550 error and the Quarantine flag of the message is still false. *)
Lemma checkResult_reject_before_quarantine :
  CheckResult.RejectErr (Ex.adjust 10) = None
  /\ quarantineScore (d Ex.dd0) = Some 5
  /\ checkScore (checkResult Ex.dd0 (Ex.adjust 10)).2 = 10
  /\ (checkResult Ex.dd0 (Ex.adjust 10)).1
     = Some (SMTPError 550 (5, 7, 0)
         "Message is rejected due to multiple local policy violations (score 10)")
  /\ MsgMetadata.Quarantine (msgMeta (checkResult Ex.dd0 (Ex.adjust 10)).2) = false.
Proof. vm_compute. repeat split. Qed.

(** The [ScoreAdjust] of a check result with a [RejectErr] is not added to
    the running score. *)
Lemma checkResult_rejected_adjust_not_added :
  CheckResult.ScoreAdjust (Ex.reject 7) = 7
  /\ checkScore Ex.dd0 = 0
  /\ checkScore (checkResult Ex.dd0 (Ex.reject 7)).2 = 0.
Proof. vm_compute. repeat split. Qed.

(** The score is a 32-bit integer: the sum wraps around. *)
Lemma checkResult_score_wraps :
  checkScore (checkResult (set_checkScore (2^31 - 1) Ex.dd0) (Ex.adjust 1)).2 = - 2^31.
Proof. vm_compute. reflexivity. Qed.

(** ** The Quarantine flag *)

Lemma checkResult_Quarantine (dd : dispatcherDelivery) (res : CheckResult.t) :
  MsgMetadata.Quarantine (msgMeta dd) = true ->
  MsgMetadata.Quarantine (msgMeta (checkResult dd res).2) = true.
Proof. intros H. unfold_checkResult; auto. Qed.

Lemma processAll_Quarantine (results : list CheckResult.t) (dd : dispatcherDelivery) :
  MsgMetadata.Quarantine (msgMeta dd) = true ->
  MsgMetadata.Quarantine (msgMeta (processAll dd results)) = true.
Proof.
  revert dd. induction results as [|res results IH]; intros dd H; [exact H|].
  apply IH. now apply checkResult_Quarantine.
Qed.

(** ** Commit and Abort *)

Lemma ranges_entries {V : Type} (m : gmap nat V) (order : list (nat * V)) :
  ranges m order ->
  NoDup order.*1 /\ forall (k : nat) (v : V), (k, v) ∈ order <-> m !! k = Some v.
Proof.
  unfold ranges. intros H. split.
  - rewrite H. apply NoDup_fst_map_to_list.
  - intros k v. rewrite H. apply elem_of_map_to_list.
Qed.

Lemma Commit_range_ok (ds : list (nat * Delivery.t)) (log : history) :
  commits_ok ds log -> Commit_range ds log = (None, log ++ commitEvents ds).
Proof.
  revert log. induction ds as [|[t dl] ds IH]; intros log H; simpl.
  - now rewrite app_nil_r.
  - destruct H as [H1 H2]. rewrite H1, (IH _ H2).
    now rewrite <- app_assoc.
Qed.

Lemma Commit_range_fails (before after : list (nat * Delivery.t)) (t : nat)
    (dl : Delivery.t) (err : error) (log : history) :
  commits_ok before log ->
  Delivery.Commit dl (log ++ commitEvents before) = Some err ->
  Commit_range (before ++ (t, dl) :: after) log
  = (Some err, log ++ commitEvents before ++ [EvCommit (Delivery.id dl)]).
Proof.
  revert log. induction before as [|[t' dl'] before IH]; intros log H Hf; simpl in *.
  - rewrite app_nil_r in Hf. now rewrite Hf.
  - destruct H as [H1 H2]. rewrite H1.
    rewrite (IH (log ++ [EvCommit (Delivery.id dl')]) H2).
    + now rewrite <- app_assoc.
    + now rewrite <- app_assoc.
Qed.

(** C7.  [Commit] calls [Commit] on the opened deliveries one by one, in
    the order of the range over the map, which yields every opened
    delivery once.  At the first delivery whose [Commit] fails it returns
    that error, and the log ends with that call: the deliveries after it
    are not committed.  If every [Commit] succeeds it returns [nil], having
    committed each opened delivery once. *)
Theorem Commit_stops_at_first_failure (dd : dispatcherDelivery)
    (order : list (nat * Delivery.t)) (log : history) :
  ranges (deliveries dd) order ->
  (NoDup order.*1
   /\ forall (t : nat) (dl : Delivery.t),
        (t, dl) ∈ order <-> deliveries dd !! t = Some dl)
  /\ (forall before after t dl err,
        order = before ++ (t, dl) :: after ->
        commits_ok before log ->
        Delivery.Commit dl (log ++ commitEvents before) = Some err ->
        Commit dd order log
        = (Some err, log ++ commitEvents before ++ [EvCommit (Delivery.id dl)]))
  /\ (commits_ok order log ->
      Commit dd order log = (None, log ++ commitEvents order)).
Proof.
  intros H. split; [now apply ranges_entries|]. split.
  - intros before after t dl err -> Hok Hf. now apply Commit_range_fails.
  - apply Commit_range_ok.
Qed.

Lemma ranges_order3 : ranges (deliveries Ex.dd3) Ex.order3.
Proof.
  unfold ranges.
  replace (map_to_list (deliveries Ex.dd3)) with (rev Ex.order3)
    by (vm_compute; reflexivity).
  apply Permutation_rev.
Qed.

Lemma ranges_order2 : ranges (deliveries Ex.dd2) Ex.order2.
Proof.
  unfold ranges.
  replace (map_to_list (deliveries Ex.dd2)) with (rev Ex.order2)
    by (vm_compute; reflexivity).
  apply Permutation_rev.
Qed.

Lemma Commit_stops_at_first_failure_witness :
  Commit Ex.dd3 Ex.order3 [] = (Some Ex.failure, [EvCommit 100; EvCommit 101])
  /\ Commit Ex.dd2 Ex.order2 [] = (None, [EvCommit 100; EvCommit 102]).
Proof.
  split.
  - destruct (Commit_stops_at_first_failure Ex.dd3 Ex.order3 [] ranges_order3)
      as (_ & Hfail & _).
    apply (Hfail [(0%nat, Ex.delivery 100 None None)]
                 [(2%nat, Ex.delivery 102 None None)]
                 1%nat (Ex.delivery 101 (Some Ex.failure) (Some Ex.failure))
                 Ex.failure);
      [reflexivity | simpl; auto | reflexivity].
  - destruct (Commit_stops_at_first_failure Ex.dd2 Ex.order2 [] ranges_order2)
      as (_ & _ & Hok).
    apply Hok. simpl. auto.
Defined.

Lemma lastObserved_cons (o : option error) (outcomes : list (option error)) :
  lastObserved (o :: outcomes)
  = match lastObserved outcomes with
    | Some err => Some err
    | None => o
    end.
Proof.
  unfold lastObserved. destruct o as [err|]; simpl.
  - now rewrite last_cons.
  - now destruct (last _).
Qed.

Lemma Abort_range_spec (ds : list (nat * Delivery.t)) (lastErr : option error)
    (log : history) :
  Abort_range ds lastErr log
  = (match lastObserved (abortOutcomes ds log) with
     | Some err => Some err
     | None => lastErr
     end, log ++ abortEvents ds).
Proof.
  revert lastErr log.
  induction ds as [|[t dl] ds IH]; intros lastErr log.
  - simpl. now rewrite app_nil_r.
  - cbn [Abort_range abortOutcomes abortEvents map snd].
    rewrite lastObserved_cons.
    destruct (Delivery.Abort dl log) as [err|]; rewrite IH, <- app_assoc;
      destruct (lastObserved _); reflexivity.
Qed.

Lemma lastObserved_none (outcomes : list (option error)) :
  Forall (eq None) outcomes -> lastObserved outcomes = None.
Proof.
  unfold lastObserved. induction 1 as [|o outs Ho _ IH]; [reflexivity|].
  subst o. exact IH.
Qed.

(** C8.  [Abort] calls [Abort] on every opened delivery, in the order of
    the range over the map, also after a call has failed, and returns the
    last error that a call returned, [nil] when every call succeeded.
    Afterwards the log holds an [Abort] call for every opened delivery. *)
Theorem Abort_calls_every_delivery (dd : dispatcherDelivery)
    (order : list (nat * Delivery.t)) (log : history) :
  ranges (deliveries dd) order ->
  Abort dd order log
  = (lastObserved (abortOutcomes order log), log ++ abortEvents order)
  /\ (Forall (eq None) (abortOutcomes order log) -> (Abort dd order log).1 = None)
  /\ (forall (t : nat) (dl : Delivery.t),
        deliveries dd !! t = Some dl ->
        EvAbort (Delivery.id dl) ∈ (Abort dd order log).2)
  /\ NoDup order.*1.
Proof.
  intros H. destruct (ranges_entries _ _ H) as [Hnd Hin].
  assert (E : Abort dd order log
              = (lastObserved (abortOutcomes order log), log ++ abortEvents order)).
  { unfold Abort. rewrite Abort_range_spec.
    destruct (lastObserved (abortOutcomes order log)); reflexivity. }
  split; [exact E|]. split; [|split; [|exact Hnd]].
  - intros Hall. rewrite E. simpl. now apply lastObserved_none.
  - intros t dl Hl. rewrite E. simpl.
    apply elem_of_app. right. unfold abortEvents.
    apply (list_elem_of_fmap_2 (fun e : nat * Delivery.t => EvAbort (Delivery.id e.2))
             order (t, dl)).
    now apply Hin.
Qed.

Lemma Abort_calls_every_delivery_witness :
  Abort Ex.dd3 Ex.order3 [] = (Some Ex.failure, [EvAbort 100; EvAbort 101; EvAbort 102]).
Proof.
  exact (proj1 (Abort_calls_every_delivery Ex.dd3 Ex.order3 [] ranges_order3)).
Defined.

(** ** Start and AddRcpt *)

Section DispatcherProperties.

Variable MapToLower : string -> string.

Lemma checkResult_fields (dd : dispatcherDelivery) (res : CheckResult.t) :
  let dd' := (checkResult dd res).2 in
  d dd' = d dd /\ deliveries dd' = deliveries dd
  /\ sourceBlock dd' = sourceBlock dd /\ sourceAddr dd' = sourceAddr dd
  /\ rcptChecksState dd' = rcptChecksState dd.
Proof. unfold_checkResult; auto. Qed.

Lemma runCheck_spec (dd : dispatcherDelivery) (log : history) (state : CheckState.t)
    (h : hook) :
  exists res,
    runCheck dd log state h
    = ((checkResult dd res).1, (checkResult dd res).2,
       log ++ [EvCheck (CheckState.id state) h]).
Proof.
  unfold runCheck.
  match goal with |- context [checkResult dd ?r] => exists r; destruct (checkResult dd r) end.
  reflexivity.
Qed.

Lemma runCheck_inv (dd dd' : dispatcherDelivery) (log log' : history)
    (state : CheckState.t) (h : hook) (e : option error) :
  runCheck dd log state h = (e, dd', log') ->
  log' = log ++ [EvCheck (CheckState.id state) h]
  /\ d dd' = d dd /\ deliveries dd' = deliveries dd
  /\ sourceBlock dd' = sourceBlock dd /\ sourceAddr dd' = sourceAddr dd
  /\ rcptChecksState dd' = rcptChecksState dd
  /\ (MsgMetadata.Quarantine (msgMeta dd) = true ->
      MsgMetadata.Quarantine (msgMeta dd') = true).
Proof.
  destruct (runCheck_spec dd log state h) as [res ->].
  intros [= <- <- <-].
  destruct (checkResult_fields dd res) as (? & ? & ? & ? & ?).
  repeat split; auto. apply checkResult_Quarantine.
Qed.

Lemma AddRcpt_targets_Quarantine (targets : list DeliveryTarget.t)
    (dd : dispatcherDelivery) (log : history) (to : string) :
  msgMeta (AddRcpt_targets dd log to targets).1.2 = msgMeta dd
  /\ sourceBlock (AddRcpt_targets dd log to targets).1.2 = sourceBlock dd.
Proof.
  revert dd log. induction targets as [|target rest IH]; intros dd log; simpl; [auto|].
  destruct (deliveries dd !! DeliveryTarget.id target) as [dl|].
  - destruct (Delivery.AddRcpt dl log to); [auto|]. apply IH.
  - destruct (DeliveryTarget.Start target log) as [err|dl]; [auto|].
    destruct (Delivery.AddRcpt dl _ to); [auto|].
    destruct (IH (set_deliveries (<[DeliveryTarget.id target:=dl]> (deliveries dd)) dd)
                 (log ++ [EvStart (DeliveryTarget.id target) (Some (Delivery.id dl))]
                      ++ [EvAddRcpt (DeliveryTarget.id target) (Delivery.id dl) to]))
      as [H1 H2].
    rewrite <- app_assoc. rewrite H1, H2. auto.
Qed.

(** The steps of [AddRcpt_block], taken apart. *)
Ltac step_runCheck :=
  match goal with
  | |- context [runCheck ?dd ?log ?st ?h] =>
    let e := fresh "e" in let dd' := fresh "dd" in let log' := fresh "log" in
    let E := fresh "E" in
    destruct (runCheck dd log st h) as [[e dd'] log'] eqn:E;
    apply runCheck_inv in E;
    destruct E as (? & ? & ? & ? & ? & ? & ?)
  | H : context [runCheck ?dd ?log ?st ?h] |- _ =>
    let e := fresh "e" in let dd' := fresh "dd" in let log' := fresh "log" in
    let E := fresh "E" in
    destruct (runCheck dd log st h) as [[e dd'] log'] eqn:E;
    apply runCheck_inv in E;
    destruct E as (? & ? & ? & ? & ? & ? & ?)
  end.

Ltac chain :=
  simpl in *;
  first [ reflexivity | assumption | etransitivity; [eassumption | chain] ].

Lemma AddRcpt_block_Quarantine (dd : dispatcherDelivery) (log : history)
    (to : string) (b : rcptBlock.t) :
  (MsgMetadata.Quarantine (msgMeta dd) = true ->
   MsgMetadata.Quarantine (msgMeta (AddRcpt_block dd log to b).1.2) = true)
  /\ sourceBlock (AddRcpt_block dd log to b).1.2 = sourceBlock dd.
Proof.
  unfold AddRcpt_block.
  destruct (rcptBlock.rejectErr b); [auto|].
  destruct (rcptChecksState dd !! rcptBlock.id b) as [st|].
  - step_runCheck. destruct e; simpl; [split; [auto|chain]|].
    destruct (AddRcpt_targets_Quarantine (rcptBlock.targets b) dd0 log0 to) as [-> ->].
    split; [auto|chain].
  - destruct (CheckGroup.NewMessage (rcptBlock.checks b) log) as [err|st]; [auto|].
    step_runCheck. destruct e; simpl; [split; [auto|chain]|].
    step_runCheck. destruct e; simpl; [split; [auto|chain]|].
    step_runCheck. destruct e; simpl; [split; [auto|chain]|].
    match goal with
    | |- context [AddRcpt_targets ?a ?l to ?ts] =>
      destruct (AddRcpt_targets_Quarantine ts a l to) as [-> ->]
    end.
    split; [auto|chain].
Qed.

Lemma AddRcpt_cases (dd : dispatcherDelivery) (log : history) (to : string)
    (r : option error * dispatcherDelivery * history) :
  AddRcpt MapToLower dd log to = Some r ->
  (exists b, r = AddRcpt_block dd log to b) \/ (exists e, r = (Some e, dd, log)).
Proof.
  unfold AddRcpt.
  destruct (_ !! ToLower MapToLower to) as [b|]; [intros [= <-]; eauto|].
  destruct (splitAddress to) as [e|[m domain]]; [intros [= <-]; eauto|].
  destruct (_ !! ToLower MapToLower domain) as [b|]; [intros [= <-]; eauto|].
  destruct (sourceBlock dd) as [sb|]; [intros [= <-]; eauto|discriminate].
Qed.

Lemma AddRcpt_Quarantine (dd dd' : dispatcherDelivery) (log log' : history)
    (to : string) (e : option error) :
  AddRcpt MapToLower dd log to = Some (e, dd', log') ->
  (MsgMetadata.Quarantine (msgMeta dd) = true ->
   MsgMetadata.Quarantine (msgMeta dd') = true)
  /\ sourceBlock dd' = sourceBlock dd.
Proof.
  intros H. apply AddRcpt_cases in H as [[b H]|[e' H]].
  - pose proof (AddRcpt_block_Quarantine dd log to b) as HQ.
    rewrite <- H in HQ. exact HQ.
  - injection H as _ -> _. auto.
Qed.

Lemma Start_global_continues (d0 : Dispatcher) (msgMeta0 : MsgMetadata.t)
    (mailFrom : string) (gcs : CheckState.t) (dd : dispatcherDelivery)
    (log : history) :
  Start_global d0 msgMeta0 mailFrom = inr (gcs, dd, log) ->
  log = [EvNewMessage (CheckGroup.id (globalChecks d0)) (Some (CheckState.id gcs));
         EvCheck (CheckState.id gcs) HConnection;
         EvCheck (CheckState.id gcs) (HSender mailFrom)]
  /\ d dd = d0 /\ deliveries dd = ∅
  /\ (MsgMetadata.Quarantine msgMeta0 = true ->
      MsgMetadata.Quarantine (msgMeta dd) = true).
Proof.
  unfold Start_global.
  destruct (CheckGroup.NewMessage (globalChecks d0) []) as [e|st]; [discriminate|].
  step_runCheck. destruct e; [discriminate|].
  step_runCheck. destruct e; [discriminate|].
  intros [= <- <- <-]. subst. simpl in *.
  repeat split; [chain | chain | auto].
Qed.

Lemma Start_global_returns (d0 : Dispatcher) (msgMeta0 m : MsgMetadata.t)
    (mailFrom : string) (res : error + dispatcherDelivery) (log : history) :
  Start_global d0 msgMeta0 mailFrom = inl (res, m, log) ->
  Forall check_event log
  /\ (forall s, EvClose s ∉ log)
  /\ (exists e, res = inl e)
  /\ (MsgMetadata.Quarantine msgMeta0 = true -> MsgMetadata.Quarantine m = true).
Proof.
  unfold Start_global.
  destruct (CheckGroup.NewMessage (globalChecks d0) []) as [e|st].
  - intros [= <- <- <-]. simpl. repeat split; eauto.
    + repeat constructor.
    + intros s Hs. apply list_elem_of_singleton in Hs. discriminate.
  - step_runCheck. destruct e.
    + intros [= <- <- <-]. subst. simpl in *. repeat split; eauto.
      * repeat constructor.
      * intros s Hs. repeat (apply elem_of_cons in Hs as [Hs|Hs]; [discriminate|]).
        inversion Hs.
    + step_runCheck. destruct e; [|discriminate].
      intros [= <- <- <-]. subst. simpl in *. repeat split; eauto.
      * repeat constructor.
      * intros s Hs. repeat (apply elem_of_cons in Hs as [Hs|Hs]; [discriminate|]).
        inversion Hs.
Qed.

(** What [Start] does once the source block [b] is chosen. *)
Lemma Start_source_spec (dd : dispatcherDelivery) (log log' : history)
    (gcs : CheckState.t) (b : sourceBlock.t) (mailFrom : string)
    (res : error + dispatcherDelivery) (m : MsgMetadata.t) :
  Start_source dd log gcs b mailFrom = (res, m, log') ->
  (MsgMetadata.Quarantine (msgMeta dd) = true -> MsgMetadata.Quarantine m = true)
  /\ (forall dd', res = inr dd' ->
        sourceBlock dd' = Some b /\ deliveries dd' = deliveries dd
        /\ m = msgMeta dd')
  /\ (exists ext, log' = log ++ ext /\ Forall check_event ext
        /\ forall s, EvClose s ∈ ext ->
           ext = [EvNewMessage (CheckGroup.id (sourceBlock.checks b)) None; EvClose s]).
Proof.
  unfold Start_source.
  destruct (sourceBlock.rejectErr b) as [e|].
  { intros [= <- <- <-]. simpl. split; [auto|]. split; [discriminate|].
    exists []. rewrite app_nil_r. repeat split; [constructor|].
    intros s Hs. inversion Hs. }
  destruct (CheckGroup.NewMessage (sourceBlock.checks b) log) as [e|st].
  { intros [= <- <- <-]. simpl. split; [auto|]. split; [discriminate|].
    eexists. split; [symmetry; apply app_assoc|]. split; [repeat constructor|].
    intros s Hs. apply elem_of_cons in Hs as [Hs|Hs]; [discriminate|].
    apply list_elem_of_singleton in Hs. injection Hs as ->. reflexivity. }
  step_runCheck. destruct e.
  { intros [= <- <- <-]. subst. simpl in *. split; [auto|]. split; [discriminate|].
    eexists. rewrite app_nil_r, <- app_assoc. split; [reflexivity|].
    split; [repeat constructor|].
    intros s Hs. repeat (apply elem_of_cons in Hs as [Hs|Hs]; [discriminate|]).
    inversion Hs. }
  step_runCheck. destruct e.
  { intros [= <- <- <-]. subst. simpl in *. split; [auto|]. split; [discriminate|].
    eexists. rewrite app_nil_r, <- !app_assoc. split; [reflexivity|].
    split; [repeat constructor|].
    intros s Hs. repeat (apply elem_of_cons in Hs as [Hs|Hs]; [discriminate|]).
    inversion Hs. }
  intros [= <- <- <-]. subst. simpl in *. split; [auto|]. split.
  { intros dd' [= <-]. simpl. repeat split; chain. }
  eexists. rewrite app_nil_r, <- !app_assoc. split; [reflexivity|].
  split; [repeat constructor|].
  intros s Hs. repeat (apply elem_of_cons in Hs as [Hs|Hs]; [discriminate|]).
  inversion Hs.
Qed.

(** [Start] either returns from the global checks, refuses a malformed
    sender, or goes on with one source block. *)
Lemma Start_cases (d0 : Dispatcher) (msgMeta0 : MsgMetadata.t) (mailFrom : string) :
  (exists r, Start_global d0 msgMeta0 mailFrom = inl r
             /\ Start MapToLower d0 msgMeta0 mailFrom = r)
  \/ (exists gcs dd log,
        Start_global d0 msgMeta0 mailFrom = inr (gcs, dd, log)
        /\ ((exists e, Start MapToLower d0 msgMeta0 mailFrom
                       = (inl (invalidAddress "sender" e), msgMeta dd, log))
            \/ (exists b, Start MapToLower d0 msgMeta0 mailFrom
                          = Start_source dd log gcs b mailFrom))).
Proof.
  unfold Start.
  destruct (Start_global d0 msgMeta0 mailFrom) as [r|[[gcs dd] log]]; [eauto|].
  right. exists gcs, dd, log. split; [reflexivity|].
  destruct (perSource d0 !! ToLower MapToLower mailFrom) as [b|]; [eauto|].
  destruct (splitAddress mailFrom) as [e|[m domain]].
  - left. exists e. simpl. now rewrite app_nil_r.
  - destruct (perSource d0 !! ToLower MapToLower domain) as [b|]; eauto.
Qed.

Lemma Start_Quarantine (d0 : Dispatcher) (msgMeta0 : MsgMetadata.t) (mailFrom : string) :
  MsgMetadata.Quarantine msgMeta0 = true ->
  MsgMetadata.Quarantine (Start MapToLower d0 msgMeta0 mailFrom).1.2 = true.
Proof.
  intros HQ.
  destruct (Start_cases d0 msgMeta0 mailFrom)
    as [([[res m] log] & Hg & ->) | (gcs & dd & log & Hg & [[e ->] | [b ->]])].
  - apply Start_global_returns in Hg as (_ & _ & _ & H). auto.
  - apply Start_global_continues in Hg as (_ & _ & _ & H). simpl. auto.
  - apply Start_global_continues in Hg as (_ & _ & _ & H).
    destruct (Start_source dd log gcs b mailFrom) as [[res m] log'] eqn:E.
    apply Start_source_spec in E as (HQ' & _). simpl. auto.
Qed.

(** C4.  The Quarantine flag of a message is monotone: once it is true, it
    is true after [checkResult] has processed a check result, after any
    sequence of check results, after [Start] and after [AddRcpt]. *)
Theorem Quarantine_monotone (dd : dispatcherDelivery) (res : CheckResult.t)
    (results : list CheckResult.t) (d0 : Dispatcher) (mailFrom to : string)
    (log : history) :
  MsgMetadata.Quarantine (msgMeta dd) = true ->
  MsgMetadata.Quarantine (msgMeta (checkResult dd res).2) = true
  /\ MsgMetadata.Quarantine (msgMeta (processAll dd results)) = true
  /\ MsgMetadata.Quarantine (Start MapToLower d0 (msgMeta dd) mailFrom).1.2 = true
  /\ (forall e dd' log',
        AddRcpt MapToLower dd log to = Some (e, dd', log') ->
        MsgMetadata.Quarantine (msgMeta dd') = true).
Proof.
  intros H. split; [|split; [|split]].
  - now apply checkResult_Quarantine.
  - now apply processAll_Quarantine.
  - now apply Start_Quarantine.
  - intros e dd' log' E. apply AddRcpt_Quarantine in E as [HQ _]. auto.
Qed.

Lemma resolve_order_Start (d0 : Dispatcher) (msgMeta0 : MsgMetadata.t)
    (mailFrom : string) (gcs : CheckState.t) (dd : dispatcherDelivery)
    (log : history) :
  Start_global d0 msgMeta0 mailFrom = inr (gcs, dd, log) ->
  match resolve_order MapToLower (perSource d0) (defaultSource d0) mailFrom with
  | inl e =>
    Start MapToLower d0 msgMeta0 mailFrom
    = (inl (SMTPError 501 (5, 1, 3) ("Invalid sender address: " +:+ Error_ e)),
       msgMeta dd, log)
  | inr b =>
    Start MapToLower d0 msgMeta0 mailFrom = Start_source dd log gcs b mailFrom
  end.
Proof.
  intros Hg. unfold Start, resolve_order. rewrite Hg.
  destruct (perSource d0 !! ToLower MapToLower mailFrom) as [b|]; [reflexivity|].
  destruct (splitAddress mailFrom) as [e|[m domain]].
  - simpl. now rewrite app_nil_r.
  - destruct (perSource d0 !! ToLower MapToLower domain) as [b|]; reflexivity.
Qed.

Lemma resolve_order_AddRcpt (dd : dispatcherDelivery) (log : history) (to : string)
    (sb : sourceBlock.t) :
  sourceBlock dd = Some sb ->
  match resolve_order MapToLower (sourceBlock.perRcpt sb) (sourceBlock.defaultRcpt sb) to with
  | inl e =>
    AddRcpt MapToLower dd log to
    = Some (Some (SMTPError 501 (5, 1, 3)
                    ("Invalid recipient address: " +:+ Error_ e)), dd, log)
  | inr b => AddRcpt MapToLower dd log to = Some (AddRcpt_block dd log to b)
  end.
Proof.
  intros Hsb. unfold AddRcpt, resolve_order. rewrite Hsb. simpl.
  destruct (sourceBlock.perRcpt sb !! ToLower MapToLower to) as [b|]; [reflexivity|].
  destruct (splitAddress to) as [e|[m domain]]; [reflexivity|].
  destruct (sourceBlock.perRcpt sb !! ToLower MapToLower domain) as [b|]; reflexivity.
Qed.

(** C1, as the code has it.  Once the global checks have passed, [Start]
    resolves the source block of the sender, and [AddRcpt] the recipient
    block of the recipient inside the source block of the delivery, in the
    order of [resolve_order]: the exact lowercased address first; when
    there is no such block the address has to pass [splitAddress], and the
    call returns the SMTP error 501 5.1.3 without choosing a block if it
    does not; then the lowercased domain; then the default block.  When the
    chosen block has a reject error, the call returns that error and the
    log is the one before the resolution: the block's check state has not
    been opened and no delivery has been started.  Otherwise the call goes
    on with the chosen block. *)
Theorem resolution_order_and_reject (d0 : Dispatcher) (msgMeta0 : MsgMetadata.t)
    (mailFrom : string) (gcs : CheckState.t) (dd : dispatcherDelivery)
    (log : history) (dd2 : dispatcherDelivery) (log2 : history) (to : string)
    (sb : sourceBlock.t) :
  Start_global d0 msgMeta0 mailFrom = inr (gcs, dd, log) ->
  sourceBlock dd2 = Some sb ->
  log = [EvNewMessage (CheckGroup.id (globalChecks d0)) (Some (CheckState.id gcs));
         EvCheck (CheckState.id gcs) HConnection;
         EvCheck (CheckState.id gcs) (HSender mailFrom)]
  /\ match resolve_order MapToLower (perSource d0) (defaultSource d0) mailFrom with
     | inl e =>
       Start MapToLower d0 msgMeta0 mailFrom
       = (inl (SMTPError 501 (5, 1, 3) ("Invalid sender address: " +:+ Error_ e)),
          msgMeta dd, log)
     | inr b =>
       match sourceBlock.rejectErr b with
       | Some err => Start MapToLower d0 msgMeta0 mailFrom = (inl err, msgMeta dd, log)
       | None =>
         Start MapToLower d0 msgMeta0 mailFrom = Start_source dd log gcs b mailFrom
         /\ forall dd', (Start MapToLower d0 msgMeta0 mailFrom).1.1 = inr dd' ->
                        sourceBlock dd' = Some b
       end
     end
  /\ match resolve_order MapToLower (sourceBlock.perRcpt sb)
             (sourceBlock.defaultRcpt sb) to with
     | inl e =>
       AddRcpt MapToLower dd2 log2 to
       = Some (Some (SMTPError 501 (5, 1, 3)
                       ("Invalid recipient address: " +:+ Error_ e)), dd2, log2)
     | inr b =>
       match rcptBlock.rejectErr b with
       | Some err => AddRcpt MapToLower dd2 log2 to = Some (Some err, dd2, log2)
       | None => AddRcpt MapToLower dd2 log2 to = Some (AddRcpt_block dd2 log2 to b)
       end
     end.
Proof.
  intros Hg Hsb. split; [|split].
  - now apply Start_global_continues in Hg as (? & _).
  - pose proof (resolve_order_Start _ _ _ _ _ _ Hg) as H.
    destruct (resolve_order MapToLower (perSource d0) (defaultSource d0) mailFrom)
      as [e|b]; [exact H|].
    destruct (sourceBlock.rejectErr b) as [err|] eqn:Hr.
    + rewrite H. unfold Start_source. rewrite Hr. simpl. now rewrite app_nil_r.
    + split; [exact H|]. intros dd' Hd. rewrite H in Hd.
      destruct (Start_source dd log gcs b mailFrom) as [[res m] log'] eqn:E.
      apply Start_source_spec in E as (_ & Hdd & _).
      now destruct (Hdd dd' Hd).
  - pose proof (resolve_order_AddRcpt dd2 log2 to sb Hsb) as H.
    destruct (resolve_order MapToLower (sourceBlock.perRcpt sb)
                (sourceBlock.defaultRcpt sb) to) as [e|b]; [exact H|].
    destruct (rcptBlock.rejectErr b) as [err|] eqn:Hr; [|exact H].
    rewrite H. unfold AddRcpt_block. now rewrite Hr.
Qed.

(** [Start] closes a check state on one path only: when [NewMessage] of the
    source block has failed.  On every other failing path nothing is
    closed. *)
Lemma Start_closes_only_after_failed_NewMessage (d0 : Dispatcher)
    (msgMeta0 : MsgMetadata.t) (mailFrom : string) (s : nat) :
  EvClose s ∈ (Start MapToLower d0 msgMeta0 mailFrom).2 ->
  exists pre g,
    (Start MapToLower d0 msgMeta0 mailFrom).2 = pre ++ [EvNewMessage g None; EvClose s].
Proof.
  destruct (Start_cases d0 msgMeta0 mailFrom)
    as [([[res m] log] & Hg & ->) | (gcs & dd & log & Hg & [[e ->] | [b ->]])].
  - apply Start_global_returns in Hg as (_ & Hn & _). intros H. now apply Hn in H.
  - apply Start_global_continues in Hg as (-> & _). simpl. intros H.
    repeat (apply elem_of_cons in H as [H|H]; [discriminate|]). inversion H.
  - apply Start_global_continues in Hg as (-> & _).
    destruct (Start_source dd _ gcs b mailFrom) as [[res m] log'] eqn:E.
    apply Start_source_spec in E as (_ & _ & ext & -> & _ & Hc). cbn [snd].
    intros H. apply elem_of_app in H as [H|H].
    + repeat (apply elem_of_cons in H as [H|H]; [discriminate|]). inversion H.
    + rewrite (Hc s H). eauto.
Qed.

(** *** Memoization of deliveries *)














End DispatcherProperties.

(** ** The dispatcher on concrete messages *)

Lemma Start_a_x :
  Start Ex.unicodeLower Ex.disp Ex.meta "a@x" = (inr Ex.dd0, Ex.meta, Ex.log0).
Proof. vm_compute. reflexivity. Qed.

Lemma Start_global_a_bad :
  Start_global Ex.disp Ex.meta "a@Bad.Example"
  = inr (Ex.state 10 Ex.accept, Ex.afterGlobal,
         [EvNewMessage 0 (Some 10%nat); EvCheck 10 HConnection;
          EvCheck 10 (HSender "a@Bad.Example")]).
Proof. vm_compute. reflexivity. Qed.

Lemma resolution_order_and_reject_witness :
  Start Ex.unicodeLower Ex.disp Ex.meta "a@Bad.Example"
  = (inl Ex.blocked, Ex.meta,
     [EvNewMessage 0 (Some 10%nat); EvCheck 10 HConnection;
      EvCheck 10 (HSender "a@Bad.Example")])
  /\ AddRcpt Ex.unicodeLower Ex.dd0 Ex.log0 "Bob@Spam.Example"
     = Some (Some Ex.blocked, Ex.dd0, Ex.log0).
Proof.
  destruct (resolution_order_and_reject Ex.unicodeLower Ex.disp Ex.meta
              "a@Bad.Example" (Ex.state 10 Ex.accept) Ex.afterGlobal
              [EvNewMessage 0 (Some 10%nat); EvCheck 10 HConnection;
               EvCheck 10 (HSender "a@Bad.Example")]
              Ex.dd0 Ex.log0 "Bob@Spam.Example" Ex.source
              Start_global_a_bad eq_refl) as (_ & H1 & H2).
  split; [exact H1 | exact H2].
Defined.

(** C1, counterexample.  The empty sender matches no block of the
    dispatcher, so the resolution of the specification takes the default
    source block, which has no reject error; [Start] returns the error 501
    5.1.3 instead and chooses no block. *)
Lemma Start_refuses_empty_sender :
  resolve_claimed Ex.unicodeLower (perSource Ex.disp) (defaultSource Ex.disp) ""
  = defaultSource Ex.disp
  /\ sourceBlock.rejectErr (defaultSource Ex.disp) = None
  /\ Start Ex.unicodeLower Ex.disp Ex.meta ""
     = (inl (SMTPError 501 (5, 1, 3) "Invalid sender address: malformed address"),
        Ex.meta,
        [EvNewMessage 0 (Some 10%nat); EvCheck 10 HConnection; EvCheck 10 (HSender "")]).
Proof. vm_compute. repeat split. Qed.

(** The same for a recipient without a domain. *)
Lemma AddRcpt_refuses_malformed_recipient :
  resolve_claimed Ex.unicodeLower (sourceBlock.perRcpt Ex.source)
    (sourceBlock.defaultRcpt Ex.source) "bob"
  = sourceBlock.defaultRcpt Ex.source
  /\ AddRcpt Ex.unicodeLower Ex.dd0 Ex.log0 "bob"
     = Some (Some (SMTPError 501 (5, 1, 3)
                     "Invalid recipient address: malformed address"),
             Ex.dd0, Ex.log0).
Proof. vm_compute. repeat split. Qed.

Lemma Quarantine_monotone_witness :
  MsgMetadata.Quarantine
    (msgMeta (processAll (set_Quarantine true Ex.dd0)
                [Ex.adjust 1; Ex.reject 2; Ex.accept])) = true
  /\ MsgMetadata.Quarantine
       (Start Ex.unicodeLower Ex.disp Ex.quarantined "a@x").1.2 = true.
Proof.
  destruct (Quarantine_monotone Ex.unicodeLower (set_Quarantine true Ex.dd0)
              Ex.accept [Ex.adjust 1; Ex.reject 2; Ex.accept] Ex.disp
              "a@x" "b@y" Ex.log0 eq_refl) as (_ & H1 & H2 & _).
  split; [exact H1 | exact H2].
Defined.

(** Two recipients of one target: one [Start] of the target, and both
    recipients added to the delivery it made. *)
Lemma AddRcpts_two_recipients :
  snd <$> AddRcpts Ex.unicodeLower Ex.dd0 Ex.log0 ["b@y"; "c@y"]
  = Some (Ex.log0 ++
          [EvNewMessage 2 (Some 12%nat); EvCheck 12 HConnection;
           EvCheck 12 (HSender "a@x"); EvCheck 12 (HRcpt "b@y");
           EvStart 0 (Some 100%nat); EvAddRcpt 0 100 "b@y";
           EvCheck 12 (HRcpt "c@y"); EvAddRcpt 0 100 "c@y"]).
Proof. vm_compute. reflexivity. Qed.

(** C5, on concrete messages.  A rejection by the global check, the reject
    error of the source block and a rejection by the check of the source
    block make [Start] fail with check states open and no [Close] in the
    log; only the failure of [NewMessage] of the source block closes the
    global check state.  [Abort] calls the deliveries and closes no check
    state either. *)
Theorem Start_failure_leaves_check_states_open :
  Start Ex.unicodeLower Ex.strict Ex.meta "a@x"
  = (inl Ex.blocked, Ex.meta, [EvNewMessage 0 (Some 10%nat); EvCheck 10 HConnection])
  /\ Start Ex.unicodeLower Ex.disp Ex.meta "a@bad.example"
     = (inl Ex.blocked, Ex.meta,
        [EvNewMessage 0 (Some 10%nat); EvCheck 10 HConnection;
         EvCheck 10 (HSender "a@bad.example")])
  /\ Start Ex.unicodeLower Ex.disp Ex.meta "a@strict.example"
     = (inl Ex.blocked, Ex.meta,
        [EvNewMessage 0 (Some 10%nat); EvCheck 10 HConnection;
         EvCheck 10 (HSender "a@strict.example");
         EvNewMessage 6 (Some 16%nat); EvCheck 16 HConnection])
  /\ Start Ex.unicodeLower Ex.disp Ex.meta "a@odd.example"
     = (inl (Errorf "check is not available"), Ex.meta,
        [EvNewMessage 0 (Some 10%nat); EvCheck 10 HConnection;
         EvCheck 10 (HSender "a@odd.example");
         EvNewMessage 5 None; EvClose 10])
  /\ Abort Ex.dd3 Ex.order3 Ex.log0
     = (Some Ex.failure, Ex.log0 ++ [EvAbort 100; EvAbort 101; EvAbort 102]).
Proof. vm_compute. repeat split. Qed.

(** ** The MTA-STS cache *)

(** Whenever a policy has been downloaded and cannot be stored, [fetch]
    returns the cached policy, not the downloaded one. *)
Lemma fetch_lookup_store_fails (env : mtasts.Env) (domain record dnsId cachedId : string)
    (validCache : bool) (cachedPolicy : option mtasts.Policy)
    (policy : mtasts.Policy) (err : error) :
  mtasts.LookupTXT env ("_mta-sts." +:+ domain) = inr [record] ->
  mtasts.readDNSRecord env record = inr dnsId ->
  negb validCache || negb (String.eqb dnsId cachedId) = true ->
  mtasts.downloadPolicy env domain = inr policy ->
  mtasts.store env domain dnsId (mtasts.Now env) policy = Some err ->
  mtasts.fetch_lookup env domain validCache cachedId cachedPolicy
  = (false, cachedPolicy, None).
Proof.
  intros H1 H2 H3 H4 H5. unfold mtasts.fetch_lookup.
  now rewrite H1, H2, H3, H4, H5.
Qed.

(** C9, on concrete caches.  With no cache file, a policy on the policy
    host and a cache directory that cannot be written, [fetch] returns no
    policy and no error; with an outdated cache file it returns the cached
    policy.  In neither case does it return the downloaded policy. *)
Theorem fetch_store_failure_returns_cached :
  mtasts.downloadPolicy Ex.readonly "example.org" = inr Ex.policy
  /\ mtasts.fetch Ex.readonly "example.org" = Some (false, None, None)
  /\ mtasts.fetch Ex.outdated "example.org" = Some (false, Some Ex.oldPolicy, None)
  /\ Some Ex.oldPolicy <> Some Ex.policy.
Proof. vm_compute. repeat split. discriminate. Qed.

(** * Further properties of the dispatcher *)

(** ** checkResult *)

Lemma checkResult_score_cases (dd : dispatcherDelivery) (res : CheckResult.t) :
  CheckResult.RejectErr res = None ->
  checkScore (checkResult dd res).2
  = Go.int32 (checkScore dd + CheckResult.ScoreAdjust res)
  /\ (checkResult dd res).1
     = if reached (rejectScore (d dd))
            (Go.int32 (checkScore dd + CheckResult.ScoreAdjust res))
       then Some (scoreError (Go.int32 (checkScore dd + CheckResult.ScoreAdjust res)))
       else None.
Proof.
  intros Hr. unfold checkResult. rewrite Hr.
  destruct (CheckResult.Quarantine res); cbn [set_Quarantine set_checkScore d checkScore];
    destruct (reached (rejectScore (d dd)) _); simpl; auto;
    repeat match goal with
           | |- context [if ?b then _ else _] => destruct b
           end; simpl; auto.
Qed.

Lemma checkResult_nil_inv (dd : dispatcherDelivery)
    (res : CheckResult.t) :
  (checkResult dd res).1 = None ->
  CheckResult.RejectErr res = None
  /\ checkScore (checkResult dd res).2
     = Go.int32 (checkScore dd + CheckResult.ScoreAdjust res)
  /\ forall r : Z, rejectScore (d dd) = Some r ->
       checkScore (checkResult dd res).2 < Go.int32 r.
Proof.
  intros H.
  destruct (CheckResult.RejectErr res) as [e|] eqn:Hr.
  { unfold checkResult in H. rewrite Hr in H. discriminate. }
  destruct (checkResult_score_cases dd res Hr) as (Hs & He).
  split; [reflexivity|]. split; [exact Hs|].
  intros r Hset. rewrite Hs. rewrite He in H.
  destruct (reached (rejectScore (d dd)) _) eqn:E; [discriminate|].
  destruct (Z.lt_ge_cases (Go.int32 (checkScore dd + CheckResult.ScoreAdjust res))
              (Go.int32 r)) as [Hlt|Hge]; [exact Hlt|].
  assert (E' : reached (rejectScore (d dd))
                 (Go.int32 (checkScore dd + CheckResult.ScoreAdjust res)) = true)
    by (apply reached_spec; eauto).
  congruence.
Qed.

(** X1.  [checkResult] returns [nil] only for a check result without
    [RejectErr] and with the new running score below the reject threshold,
    when one is configured. *)
Theorem checkResult_nil_below_rejectScore (dd : dispatcherDelivery)
    (res : CheckResult.t) :
  (checkResult dd res).1 = None ->
  CheckResult.RejectErr res = None
  /\ checkScore (checkResult dd res).2
     = Go.int32 (checkScore dd + CheckResult.ScoreAdjust res)
  /\ forall r : Z, rejectScore (d dd) = Some r ->
       checkScore (checkResult dd res).2 < Go.int32 r.
Proof. apply checkResult_nil_inv. Qed.

Lemma checkResult_nil_below_rejectScore_witness :
  checkScore (checkResult Ex.dd0 (Ex.adjust 7)).2 = 7
  /\ checkScore (checkResult Ex.dd0 (Ex.adjust 7)).2 < Go.int32 10.
Proof.
  destruct (checkResult_nil_below_rejectScore Ex.dd0 (Ex.adjust 7) eq_refl)
    as (_ & Hs & Hlt).
  split; [exact Hs|]. apply Hlt. reflexivity.
Defined.

(** X2.  When [checkResult] returns [nil], the Authentication-Results of
    the check result have been appended to the accumulated ones, its header
    fields have been put on top of the accumulated header one by one, so
    that they are there in reverse order, and the Quarantine flag of the
    message is the disjunction of the old flag, the flag of the check
    result and the quarantine threshold being reached. *)
Theorem checkResult_nil_accumulates (dd : dispatcherDelivery) (res : CheckResult.t) :
  (checkResult dd res).1 = None ->
  authRes (checkResult dd res).2 = authRes dd ++ CheckResult.AuthResult res
  /\ header (checkResult dd res).2 = rev (CheckResult.Header res) ++ header dd
  /\ MsgMetadata.Quarantine (msgMeta (checkResult dd res).2)
     = MsgMetadata.Quarantine (msgMeta dd) || CheckResult.Quarantine res
       || reached (quarantineScore (d dd))
            (Go.int32 (checkScore dd + CheckResult.ScoreAdjust res)).
Proof.
  assert (Hfold : forall (fs : list (string * string)) (h : Header.t),
             fold_left (fun h field => Header.Add field.1 field.2 h) fs h = rev fs ++ h).
  { induction fs as [|[k v] fs IH]; intros h; simpl; [reflexivity|].
    rewrite IH, <- app_assoc. reflexivity. }
  unfold checkResult.
  destruct (CheckResult.RejectErr res); [discriminate|].
  destruct (CheckResult.Quarantine res) eqn:HQ; cbn [set_Quarantine set_checkScore d checkScore];
    (destruct (reached (rejectScore (d dd)) _); [discriminate|]);
    destruct (reached (quarantineScore (d dd)) _) eqn:Hq;
    destruct (CheckResult.AuthResult res) as [|a l] eqn:Ha; simpl;
    intros _; rewrite ?Hfold, ?app_nil_r, ?orb_true_r, ?orb_false_r;
    repeat split; try reflexivity.
  all: unfold Header.Fields; rewrite Hfold; reflexivity.
Qed.

Lemma checkResult_nil_accumulates_witness :
  authRes (checkResult Ex.dd0 (Ex.adjust 7)).2 = []
  /\ header (checkResult Ex.dd0 (Ex.adjust 7)).2 = []
  /\ MsgMetadata.Quarantine (msgMeta (checkResult Ex.dd0 (Ex.adjust 7)).2) = true.
Proof.
  exact (checkResult_nil_accumulates Ex.dd0 (Ex.adjust 7) eq_refl).
Defined.

(** X3.  When [checkResult] rejects because of the score, the score and the
    Quarantine flag of the check result have been applied, but its
    Authentication-Results and header fields are not recorded. *)
Theorem checkResult_score_rejection_drops_results (dd : dispatcherDelivery)
    (res : CheckResult.t) (r : Z) :
  CheckResult.RejectErr res = None ->
  rejectScore (d dd) = Some r ->
  Go.int32 r <= Go.int32 (checkScore dd + CheckResult.ScoreAdjust res) ->
  authRes (checkResult dd res).2 = authRes dd
  /\ header (checkResult dd res).2 = header dd
  /\ MsgMetadata.Quarantine (msgMeta (checkResult dd res).2)
     = MsgMetadata.Quarantine (msgMeta dd) || CheckResult.Quarantine res.
Proof.
  intros Hr Hset Hle. unfold checkResult. rewrite Hr.
  assert (E : forall dd1, d dd1 = d dd -> checkScore dd1 = checkScore dd ->
            reached (rejectScore (d (set_checkScore
                       (Go.int32 (checkScore dd1 + CheckResult.ScoreAdjust res)) dd1)))
                    (checkScore (set_checkScore
                       (Go.int32 (checkScore dd1 + CheckResult.ScoreAdjust res)) dd1))
            = true).
  { intros dd1 Hd Hs. simpl. rewrite Hd, Hs. apply reached_spec. eauto. }
  destruct (CheckResult.Quarantine res).
  - rewrite (E (set_Quarantine true dd) eq_refl eq_refl). simpl.
    now rewrite orb_true_r.
  - rewrite (E dd eq_refl eq_refl). simpl. now rewrite orb_false_r.
Qed.

Lemma checkResult_score_rejection_drops_results_witness :
  authRes (checkResult Ex.dd0 (Ex.adjust 10)).2 = []
  /\ header (checkResult Ex.dd0 (Ex.adjust 10)).2 = []
  /\ MsgMetadata.Quarantine (msgMeta (checkResult Ex.dd0 (Ex.adjust 10)).2) = false.
Proof.
  apply (checkResult_score_rejection_drops_results Ex.dd0 (Ex.adjust 10) 10);
    [reflexivity | reflexivity | vm_compute; discriminate].
Defined.

(** X4.  Once the running score has reached the reject threshold, a further
    check result without [RejectErr] whose adjustment is not negative and
    does not overflow the score is rejected with 550 5.7.0 as well. *)
Theorem checkResult_rejection_persists (dd : dispatcherDelivery)
    (res : CheckResult.t) (r : Z) :
  rejectScore (d dd) = Some r ->
  Go.int32 r <= checkScore dd ->
  CheckResult.RejectErr res = None ->
  0 <= CheckResult.ScoreAdjust res ->
  checkScore dd + CheckResult.ScoreAdjust res < 2^31 ->
  (checkResult dd res).1
  = Some (scoreError (checkScore dd + CheckResult.ScoreAdjust res)).
Proof.
  intros Hset Hle Hr Hadj Hmax.
  pose proof (int32_range r) as Hrange.
  assert (Hs : Go.int32 (checkScore dd + CheckResult.ScoreAdjust res)
               = checkScore dd + CheckResult.ScoreAdjust res)
    by (apply int32_small; lia).
  destruct (checkResult_score_cases dd res Hr) as (_ & ->).
  rewrite Hs.
  assert (E : reached (rejectScore (d dd))
                (checkScore dd + CheckResult.ScoreAdjust res) = true)
    by (apply reached_spec; exists r; split; [exact Hset | lia]).
  now rewrite E.
Qed.

Lemma checkResult_rejection_persists_witness :
  (checkResult (set_checkScore 12 Ex.dd0) Ex.accept).1 = Some (scoreError 12).
Proof.
  apply (checkResult_rejection_persists (set_checkScore 12 Ex.dd0) Ex.accept 10);
    [reflexivity | vm_compute; discriminate | reflexivity | simpl; lia
     | vm_compute; reflexivity].
Defined.

(** ** Start and AddRcpt *)

Section DispatcherFurther.

Variable MapToLower : string -> string.

Lemma same_session_refl (dd : dispatcherDelivery) : same_session dd dd.
Proof. repeat split. Qed.

Lemma same_session_trans (dd1 dd2 dd3 : dispatcherDelivery) :
  same_session dd1 dd2 -> same_session dd2 dd3 -> same_session dd1 dd3.
Proof.
  intros (A1 & A2 & A3 & A4 & A5) (B1 & B2 & B3 & B4 & B5).
  repeat split; etransitivity; eassumption.
Qed.

Lemma checkResult_frame (dd : dispatcherDelivery) (res : CheckResult.t) :
  same_session dd (checkResult dd res).2
  /\ deliveries (checkResult dd res).2 = deliveries dd
  /\ rcptChecksState (checkResult dd res).2 = rcptChecksState dd.
Proof. unfold same_session. unfold_checkResult; repeat split. Qed.

(** What one check adds: the event of the hook, nothing to the session,
    and, when it is accepted, a score below the reject threshold. *)
Lemma runCheck_frame (dd dd' : dispatcherDelivery) (log log' : history)
    (state : CheckState.t) (h : hook) (e : option error) :
  runCheck dd log state h = (e, dd', log') ->
  log' = log ++ [EvCheck (CheckState.id state) h]
  /\ same_session dd dd'
  /\ deliveries dd' = deliveries dd
  /\ rcptChecksState dd' = rcptChecksState dd
  /\ (e = None -> forall r, rejectScore (d dd) = Some r -> checkScore dd' < Go.int32 r).
Proof.
  destruct (runCheck_spec dd log state h) as [res ->].
  intros [= <- <- <-].
  destruct (checkResult_frame dd res) as (? & ? & ?).
  split; [reflexivity|]. split; [assumption|]. split; [assumption|].
  split; [assumption|].
  intros Hn r Hr.
  destruct (checkResult_nil_inv dd res Hn) as (_ & _ & H2). auto.
Qed.

Ltac fields :=
  simpl in *;
  first [ reflexivity | assumption | etransitivity; [eassumption | fields] ].

Ltac step_check :=
  match goal with
  | |- context [runCheck ?dd ?log ?st ?h] =>
    let e := fresh "e" in let dd' := fresh "dd" in let log' := fresh "log" in
    let E := fresh "E" in
    destruct (runCheck dd log st h) as [[e dd'] log'] eqn:E;
    apply runCheck_frame in E;
    destruct E as (? & ? & ? & ? & ?)
  end.

Lemma Start_global_state (d0 : Dispatcher) (msgMeta0 : MsgMetadata.t)
    (mailFrom : string) (gcs : CheckState.t) (dd : dispatcherDelivery)
    (log : history) :
  Start_global d0 msgMeta0 mailFrom = inr (gcs, dd, log) ->
  globalChecksState dd = Some gcs /\ sourceChecksState dd = None
  /\ rcptChecksState dd = ∅ /\ deliveries dd = ∅ /\ d dd = d0.
Proof.
  unfold Start_global.
  destruct (CheckGroup.NewMessage (globalChecks d0) []) as [e|st]; [discriminate|].
  step_check. destruct e; [discriminate|].
  step_check. destruct e; [discriminate|].
  intros [= <- <- <-]. simpl.
  repeat match goal with
         | H : same_session _ _ |- _ => destruct H as (? & ? & ? & ? & ?)
         end.
  simpl in *. repeat split; fields.
Qed.

(** X5.  When [Start] returns a delivery, the sender has been resolved to a
    source block without reject error; the delivery holds the global and
    the source check state, the source block and the sender, and no
    recipient check state and no delivery yet; its score is below the
    reject threshold; and the log is the global [NewMessage],
    [CheckConnection] and [CheckSender], then the same three of the source
    block, with no [Close]. *)
Theorem Start_returns_delivery (d0 : Dispatcher) (msgMeta0 m : MsgMetadata.t)
    (mailFrom : string) (dd : dispatcherDelivery) (log : history) :
  Start MapToLower d0 msgMeta0 mailFrom = (inr dd, m, log) ->
  exists (gcs scs : CheckState.t) (b : sourceBlock.t),
    resolve_order MapToLower (perSource d0) (defaultSource d0) mailFrom = inr b
    /\ sourceBlock.rejectErr b = None
    /\ d dd = d0
    /\ globalChecksState dd = Some gcs
    /\ sourceChecksState dd = Some scs
    /\ sourceBlock dd = Some b
    /\ sourceAddr dd = mailFrom
    /\ deliveries dd = ∅
    /\ rcptChecksState dd = ∅
    /\ m = msgMeta dd
    /\ log = [EvNewMessage (CheckGroup.id (globalChecks d0)) (Some (CheckState.id gcs));
              EvCheck (CheckState.id gcs) HConnection;
              EvCheck (CheckState.id gcs) (HSender mailFrom);
              EvNewMessage (CheckGroup.id (sourceBlock.checks b))
                (Some (CheckState.id scs));
              EvCheck (CheckState.id scs) HConnection;
              EvCheck (CheckState.id scs) (HSender mailFrom)]
    /\ forall r : Z, rejectScore d0 = Some r -> checkScore dd < Go.int32 r.
Proof.
  intros H.
  destruct (Start_global d0 msgMeta0 mailFrom) as [[[r m'] l']|[[gcs dd0] log0]] eqn:Hg.
  { apply Start_global_returns in Hg as Hr.
    unfold Start in H. rewrite Hg in H. injection H as -> _ _.
    destruct Hr as (_ & _ & [e He] & _). discriminate. }
  pose proof (resolve_order_Start MapToLower _ _ _ _ _ _ Hg) as Hres.
  destruct (Start_global_continues _ _ _ _ _ _ Hg) as (Hlog & _).
  destruct (Start_global_state _ _ _ _ _ _ Hg) as (G1 & G2 & G3 & G4 & G5).
  destruct (resolve_order MapToLower (perSource d0) (defaultSource d0) mailFrom)
    as [e|b]; [rewrite Hres in H; discriminate|].
  rewrite Hres in H. clear Hres. exists gcs.
  unfold Start_source in H.
  destruct (sourceBlock.rejectErr b) eqn:Hrej; [discriminate|].
  destruct (CheckGroup.NewMessage (sourceBlock.checks b) log0) as [e|scs]; [discriminate|].
  revert H. step_check. destruct e; [discriminate|].
  step_check. destruct e; [discriminate|].
  intros [= <- <- <-]. exists scs, b. subst. simpl in *.
  repeat match goal with
         | H : same_session _ _ |- _ => destruct H as (? & ? & ? & ? & ?)
         end.
  simpl in *.
  repeat split; try reflexivity; try fields.
  intros r Hr. apply H8; [reflexivity|]. now rewrite H0.
Qed.

Ltac events :=
  repeat (constructor; [simpl; tauto|]); constructor.

Ltac close :=
  first [ reflexivity | assumption | discriminate | apply same_session_refl
        | events | (intros ? ? Ht; inversion Ht; fail) | idtac ].

(** The loop over the targets: it calls targets and deliveries only, keeps
    the session and the check states, never replaces a delivery, and when
    it ends without error every target has a delivery that got the
    recipient. *)
Lemma AddRcpt_targets_spec (targets : list DeliveryTarget.t)
    (dd : dispatcherDelivery) (log : history) (to : string) :
  exists calls,
    (AddRcpt_targets dd log to targets).2 = log ++ calls
    /\ Forall (fun ev => ~ check_event ev) calls
    /\ same_session dd (AddRcpt_targets dd log to targets).1.2
    /\ rcptChecksState (AddRcpt_targets dd log to targets).1.2 = rcptChecksState dd
    /\ deliveries dd ⊆ deliveries (AddRcpt_targets dd log to targets).1.2
    /\ ((AddRcpt_targets dd log to targets).1.1 = None ->
        forall target, target ∈ targets ->
          exists dl,
            deliveries (AddRcpt_targets dd log to targets).1.2
              !! DeliveryTarget.id target = Some dl
            /\ EvAddRcpt (DeliveryTarget.id target) (Delivery.id dl) to ∈ calls).
Proof.
  revert dd log. induction targets as [|target rest IH]; intros dd log.
  { exists []. simpl. rewrite app_nil_r. split_and!; close. }
  cbn [AddRcpt_targets].
  destruct (deliveries dd !! DeliveryTarget.id target) as [dl|] eqn:Hl.
  - destruct (Delivery.AddRcpt dl log to) as [err|].
    + exists [EvAddRcpt (DeliveryTarget.id target) (Delivery.id dl) to]. simpl.
      split_and!; close.
    + destruct (IH dd (log ++ [EvAddRcpt (DeliveryTarget.id target) (Delivery.id dl) to]))
        as (calls & Hlog & Hcalls & Hs & Hr & Hd & Hall).
      exists (EvAddRcpt (DeliveryTarget.id target) (Delivery.id dl) to :: calls).
      split; [rewrite Hlog, <- app_assoc; reflexivity|].
      split; [constructor; [simpl; tauto|exact Hcalls]|].
      split; [exact Hs|]. split; [exact Hr|]. split; [exact Hd|].
      intros Hn t Ht. apply elem_of_cons in Ht as [->|Ht].
      * exists dl. split; [eapply lookup_weaken; eassumption|]. apply elem_of_cons; auto.
      * destruct (Hall Hn t Ht) as (dl' & H1 & H2).
        exists dl'. split; [exact H1|]. apply elem_of_cons; auto.
  - destruct (DeliveryTarget.Start target log) as [err|dl].
    + exists [EvStart (DeliveryTarget.id target) None]. simpl.
      split_and!; close.
    + set (dd1 := set_deliveries (<[DeliveryTarget.id target:=dl]> (deliveries dd)) dd).
      set (log1 := log ++ [EvStart (DeliveryTarget.id target) (Some (Delivery.id dl))]).
      assert (Hsub : deliveries dd ⊆ deliveries dd1)
        by (apply insert_subseteq; exact Hl).
      destruct (Delivery.AddRcpt dl log1 to) as [err|].
      * exists [EvStart (DeliveryTarget.id target) (Some (Delivery.id dl));
                EvAddRcpt (DeliveryTarget.id target) (Delivery.id dl) to].
        simpl. subst log1. rewrite <- app_assoc.
        split_and!; close.
      * destruct (IH dd1 (log1 ++ [EvAddRcpt (DeliveryTarget.id target) (Delivery.id dl) to]))
          as (calls & Hlog & Hcalls & Hs & Hr & Hd & Hall).
        exists (EvStart (DeliveryTarget.id target) (Some (Delivery.id dl))
                  :: EvAddRcpt (DeliveryTarget.id target) (Delivery.id dl) to :: calls).
        split; [rewrite Hlog; subst log1; rewrite <- !app_assoc; reflexivity|].
        split; [repeat (constructor; [simpl; tauto|]); exact Hcalls|].
        split; [exact Hs|]. split; [exact Hr|].
        split; [etransitivity; eassumption|].
        intros Hn t Ht. apply elem_of_cons in Ht as [->|Ht].
        -- exists dl. split.
           ++ eapply lookup_weaken; [|exact Hd]. apply lookup_insert_eq.
           ++ apply elem_of_cons; right. apply elem_of_cons; auto.
        -- destruct (Hall Hn t Ht) as (dl' & H1 & H2).
           exists dl'. split; [exact H1|].
           apply elem_of_cons; right. apply elem_of_cons; auto.
Qed.

Ltac sess := eauto 6 using same_session_trans, same_session_refl.

Ltac stopped t1 t2 :=
  split; [reflexivity|]; split; [events|]; split; [events|]; split; [sess|];
  split; [t1|]; split; [t2|]; discriminate.

(** [AddRcpt] for the chosen block: first the events of the checks, then
    the calls of targets and deliveries. *)
Lemma AddRcpt_block_spec (dd : dispatcherDelivery) (log : history) (to : string)
    (b : rcptBlock.t) :
  exists checks calls,
    (AddRcpt_block dd log to b).2 = log ++ checks ++ calls
    /\ Forall check_event checks
    /\ Forall (fun ev => ~ check_event ev) calls
    /\ same_session dd (AddRcpt_block dd log to b).1.2
    /\ rcptChecksState dd ⊆ rcptChecksState (AddRcpt_block dd log to b).1.2
    /\ deliveries dd ⊆ deliveries (AddRcpt_block dd log to b).1.2
    /\ ((AddRcpt_block dd log to b).1.1 = None ->
        rcptBlock.rejectErr b = None
        /\ forall target, target ∈ rcptBlock.targets b ->
             exists dl,
               deliveries (AddRcpt_block dd log to b).1.2
                 !! DeliveryTarget.id target = Some dl
               /\ EvAddRcpt (DeliveryTarget.id target) (Delivery.id dl) to ∈ calls).
Proof.
  unfold AddRcpt_block.
  destruct (rcptBlock.rejectErr b) as [err|] eqn:Hrej.
  { exists [], []. simpl. rewrite app_nil_r. stopped ltac:(reflexivity) ltac:(reflexivity). }
  destruct (rcptChecksState dd !! rcptBlock.id b) as [st|] eqn:Hst.
  - step_check. destruct e.
    + exists [EvCheck (CheckState.id st) (HRcpt to)], []. simpl. subst.
      stopped ltac:(rewrite H2; reflexivity) ltac:(rewrite H1; reflexivity).
    + destruct (AddRcpt_targets_spec (rcptBlock.targets b) dd0 log0 to)
        as (calls & Hlog & Hcalls & Hs & Hr & Hd & Hall).
      exists [EvCheck (CheckState.id st) (HRcpt to)], calls. subst log0.
      split; [rewrite Hlog, <- app_assoc; reflexivity|].
      split; [events|]. split; [exact Hcalls|].
      split; [sess|].
      split; [rewrite Hr, H2; reflexivity|].
      split; [rewrite <- H1; exact Hd|]. auto.
  - destruct (CheckGroup.NewMessage (rcptBlock.checks b) log) as [err|st].
    + eexists [_], []. simpl. stopped ltac:(reflexivity) ltac:(reflexivity).
    + step_check. destruct e.
      { eexists [_; _], []. simpl. subst. rewrite <- app_assoc.
        stopped ltac:(rewrite H2; reflexivity) ltac:(rewrite H1; reflexivity). }
      step_check. destruct e.
      { eexists [_; _; _], []. simpl. subst. rewrite <- !app_assoc.
        stopped ltac:(rewrite H7, H2; reflexivity) ltac:(rewrite H6, H1; reflexivity). }
      step_check.
      assert (Hsub : rcptChecksState dd ⊆ rcptChecksState dd2).
      { rewrite H12. simpl. rewrite H7, H2. apply insert_subseteq. exact Hst. }
      assert (Hsess : same_session dd dd2).
      { eapply same_session_trans; [eassumption|].
        eapply same_session_trans; [eassumption|].
        destruct H10 as (? & ? & ? & ? & ?). repeat split; assumption. }
      assert (Hdel : deliveries dd2 = deliveries dd).
      { rewrite H11. simpl. rewrite H6, H1. reflexivity. }
      destruct e.
      { eexists [_; _; _; _], []. simpl. subst. rewrite <- !app_assoc.
        split; [reflexivity|]. split; [events|]. split; [events|].
        split; [exact Hsess|]. split; [exact Hsub|].
        split; [rewrite Hdel; reflexivity|]. discriminate. }
      destruct (AddRcpt_targets_spec (rcptBlock.targets b) dd2 log2 to)
        as (calls & Hlog & Hcalls & Hs & Hr & Hd & Hall).
      eexists [_; _; _; _], calls. subst.
      split; [rewrite Hlog, <- !app_assoc; reflexivity|].
      split; [events|]. split; [exact Hcalls|].
      split; [sess|].
      split; [rewrite Hr; exact Hsub|].
      split; [rewrite <- Hdel; exact Hd|]. auto.
Qed.

(** X6.  A call of [AddRcpt] leaves the dispatcher, the global and the
    source check state, the sender and the source block of the delivery as
    they are; it only adds entries to the maps of recipient check states
    and of deliveries, never changing or removing one; and it appends to
    the log first events of checks, then calls of targets and deliveries:
    no target is touched before the checks of the recipient are done. *)
Theorem AddRcpt_only_adds (dd dd' : dispatcherDelivery) (log log' : history)
    (to : string) (e : option error) :
  AddRcpt MapToLower dd log to = Some (e, dd', log') ->
  same_session dd dd'
  /\ rcptChecksState dd ⊆ rcptChecksState dd'
  /\ deliveries dd ⊆ deliveries dd'
  /\ exists checks calls,
       log' = log ++ checks ++ calls
       /\ Forall check_event checks
       /\ Forall (fun ev => ~ check_event ev) calls.
Proof.
  intros H. apply AddRcpt_cases in H as [[b H]|[e' H]].
  - destruct (AddRcpt_block_spec dd log to b)
      as (checks & calls & Hlog & Hc & Hd & Hs & Hr & Hdel & _).
    rewrite <- H in Hlog, Hs, Hr, Hdel. simpl in *.
    split; [exact Hs|]. split; [exact Hr|]. split; [exact Hdel|].
    exists checks, calls. auto.
  - injection H as _ -> ->.
    split; [apply same_session_refl|]. split; [reflexivity|]. split; [reflexivity|].
    exists [], []. rewrite app_nil_r. repeat split; constructor.
Qed.

(** X7.  When [AddRcpt] returns [nil], the recipient block it resolved has
    no reject error, and every target of that block has a delivery in the
    map of deliveries on which [AddRcpt] has been called for the
    recipient. *)
Theorem AddRcpt_nil_reaches_every_target (dd dd' : dispatcherDelivery)
    (log log' : history) (to : string) (sb : sourceBlock.t) (b : rcptBlock.t) :
  sourceBlock dd = Some sb ->
  resolve_order MapToLower (sourceBlock.perRcpt sb) (sourceBlock.defaultRcpt sb) to
  = inr b ->
  AddRcpt MapToLower dd log to = Some (None, dd', log') ->
  rcptBlock.rejectErr b = None
  /\ forall target, target ∈ rcptBlock.targets b ->
       exists dl,
         deliveries dd' !! DeliveryTarget.id target = Some dl
         /\ EvAddRcpt (DeliveryTarget.id target) (Delivery.id dl) to ∈ log'.
Proof.
  intros Hsb Hres H.
  pose proof (resolve_order_AddRcpt MapToLower dd log to sb Hsb) as E.
  rewrite Hres in E. rewrite E in H. injection H as H.
  destruct (AddRcpt_block_spec dd log to b)
    as (checks & calls & Hlog & _ & _ & _ & _ & _ & Hall).
  rewrite H in Hlog, Hall. simpl in *.
  destruct (Hall eq_refl) as [Hrej Ht]. split; [exact Hrej|].
  intros target Hin. destruct (Ht target Hin) as (dl & H1 & H2).
  exists dl. split; [exact H1|]. rewrite Hlog.
  apply elem_of_app; right. apply elem_of_app; right. exact H2.
Qed.

(** X8.  When the resolved recipient block has no reject error and its
    check state is already in the map, [AddRcpt] does not call
    [NewMessage], [CheckConnection] or [CheckSender] again: the only check
    event it logs is [CheckRcpt] on the stored state, the map of check
    states is unchanged, and when that check is rejected the error is
    returned and no target or delivery is called. *)
Theorem AddRcpt_reuses_check_state (dd : dispatcherDelivery) (log : history)
    (to : string) (sb : sourceBlock.t) (b : rcptBlock.t) (st : CheckState.t) :
  sourceBlock dd = Some sb ->
  resolve_order MapToLower (sourceBlock.perRcpt sb) (sourceBlock.defaultRcpt sb) to
  = inr b ->
  rcptBlock.rejectErr b = None ->
  rcptChecksState dd !! rcptBlock.id b = Some st ->
  exists e dd' calls,
    AddRcpt MapToLower dd log to
    = Some (e, dd', log ++ EvCheck (CheckState.id st) (HRcpt to) :: calls)
    /\ Forall (fun ev => ~ check_event ev) calls
    /\ rcptChecksState dd' = rcptChecksState dd
    /\ forall e0,
         (checkResult dd (CheckState.CheckRcpt st log to)).1 = Some e0 ->
         e = Some e0 /\ calls = [].
Proof.
  intros Hsb Hres Hrej Hst.
  pose proof (resolve_order_AddRcpt MapToLower dd log to sb Hsb) as E.
  rewrite Hres in E. rewrite E. clear E.
  unfold AddRcpt_block. rewrite Hrej, Hst.
  unfold runCheck.
  destruct (checkResult dd (CheckState.CheckRcpt st log to)) as [[e0|] dd1] eqn:Hc.
  - exists (Some e0), dd1, []. simpl.
    pose proof (checkResult_frame dd (CheckState.CheckRcpt st log to)) as (_ & _ & Hr).
    rewrite Hc in Hr. simpl in Hr.
    split; [reflexivity|]. split; [constructor|]. split; [exact Hr|].
    intros e1 [= <-]. auto.
  - pose proof (checkResult_frame dd (CheckState.CheckRcpt st log to)) as (_ & _ & Hr).
    rewrite Hc in Hr. simpl in Hr.
    destruct (AddRcpt_targets_spec (rcptBlock.targets b) dd1
                (log ++ [EvCheck (CheckState.id st) (HRcpt to)]) to)
      as (calls & Hlog & Hcalls & _ & Hr' & _ & _).
    destruct (AddRcpt_targets dd1 _ to (rcptBlock.targets b)) as [[e dd2] log2].
    simpl in *. exists e, dd2, calls.
    split; [rewrite Hlog, <- app_assoc; reflexivity|].
    split; [exact Hcalls|]. split; [congruence|]. discriminate.
Qed.

(** X9.  When the resolved recipient block has no reject error and no check
    state in the map yet, and [AddRcpt] returns [nil], the check state that
    [NewMessage] of the block has given is now in the map under the block,
    and the log shows [NewMessage], [CheckConnection], [CheckSender] for the
    sender of the delivery and [CheckRcpt], in this order, before the calls
    of targets and deliveries. *)
Theorem AddRcpt_opens_check_state (dd dd' : dispatcherDelivery) (log log' : history)
    (to : string) (sb : sourceBlock.t) (b : rcptBlock.t) :
  sourceBlock dd = Some sb ->
  resolve_order MapToLower (sourceBlock.perRcpt sb) (sourceBlock.defaultRcpt sb) to
  = inr b ->
  rcptChecksState dd !! rcptBlock.id b = None ->
  AddRcpt MapToLower dd log to = Some (None, dd', log') ->
  exists st calls,
    CheckGroup.NewMessage (rcptBlock.checks b) log = inr st
    /\ rcptChecksState dd' = <[rcptBlock.id b := st]> (rcptChecksState dd)
    /\ log' = log ++ [EvNewMessage (CheckGroup.id (rcptBlock.checks b))
                        (Some (CheckState.id st));
                      EvCheck (CheckState.id st) HConnection;
                      EvCheck (CheckState.id st) (HSender (sourceAddr dd));
                      EvCheck (CheckState.id st) (HRcpt to)] ++ calls
    /\ Forall (fun ev => ~ check_event ev) calls.
Proof.
  intros Hsb Hres Hst H.
  pose proof (resolve_order_AddRcpt MapToLower dd log to sb Hsb) as E.
  rewrite Hres in E. rewrite E in H. injection H as H. clear E.
  unfold AddRcpt_block in H.
  destruct (rcptBlock.rejectErr b); [discriminate|].
  rewrite Hst in H.
  destruct (CheckGroup.NewMessage (rcptBlock.checks b) log) as [err|st];
    [discriminate|].
  exists st. revert H.
  step_check. destruct e; [discriminate|].
  step_check. destruct e; [discriminate|].
  step_check. destruct e; [discriminate|].
  destruct (AddRcpt_targets_spec (rcptBlock.targets b) dd2 log2 to)
    as (calls & Hlog & Hcalls & _ & Hr & _ & _).
  intros Heq. rewrite Heq in Hlog, Hr. simpl in *.
  exists calls. split; [reflexivity|].
  split; [rewrite Hr, H12; simpl; rewrite H7, H2; reflexivity|].
  split; [|exact Hcalls].
  rewrite Hlog. subst.
  destruct H0 as (_ & _ & _ & -> & _).
  rewrite <- !app_assoc. reflexivity.
Qed.

(** X10.  [Start] calls no target and no delivery, whatever it returns:
    its log holds events of checks only. *)
Theorem Start_calls_no_target (d0 : Dispatcher) (msgMeta0 : MsgMetadata.t)
    (mailFrom : string) :
  Forall check_event (Start MapToLower d0 msgMeta0 mailFrom).2.
Proof.
  destruct (Start_cases MapToLower d0 msgMeta0 mailFrom)
    as [([[res m] log] & Hg & ->) | (gcs & dd & log & Hg & [[e ->] | [b ->]])].
  - now apply Start_global_returns in Hg as (H & _).
  - apply Start_global_continues in Hg as (-> & _). simpl. repeat constructor.
  - apply Start_global_continues in Hg as (-> & _).
    destruct (Start_source dd _ gcs b mailFrom) as [[res m] log'] eqn:E.
    apply Start_source_spec in E as (_ & _ & ext & -> & Hext & _). cbn [snd].
    apply Forall_app. split; [repeat constructor|exact Hext].
Qed.

End DispatcherFurther.

Lemma AddRcpt_b_y :
  exists dd',
    AddRcpt Ex.unicodeLower Ex.dd0 Ex.log0 "b@y"
    = Some (None, dd',
            Ex.log0 ++ [EvNewMessage 2 (Some 12%nat); EvCheck 12 HConnection;
                        EvCheck 12 (HSender "a@x"); EvCheck 12 (HRcpt "b@y");
                        EvStart 0 (Some 100%nat); EvAddRcpt 0 100 "b@y"]).
Proof. eexists. vm_compute. reflexivity. Qed.

Lemma AddRcpt_only_adds_witness :
  exists dd' log',
    AddRcpt Ex.unicodeLower Ex.dd0 Ex.log0 "b@y" = Some (None, dd', log')
    /\ same_session Ex.dd0 dd'
    /\ rcptChecksState Ex.dd0 ⊆ rcptChecksState dd'
    /\ deliveries Ex.dd0 ⊆ deliveries dd'.
Proof.
  destruct AddRcpt_b_y as [dd' H]. eexists dd', _. split; [exact H|].
  destruct (AddRcpt_only_adds Ex.unicodeLower _ _ _ _ _ _ H) as (H1 & H2 & H3 & _).
  auto.
Defined.

Lemma AddRcpt_nil_reaches_every_target_witness :
  exists dd' log',
    AddRcpt Ex.unicodeLower Ex.dd0 Ex.log0 "b@y" = Some (None, dd', log')
    /\ forall target, target ∈ rcptBlock.targets Ex.rcpt ->
         exists dl,
           deliveries dd' !! DeliveryTarget.id target = Some dl
           /\ EvAddRcpt (DeliveryTarget.id target) (Delivery.id dl) "b@y" ∈ log'.
Proof.
  destruct AddRcpt_b_y as [dd' H]. eexists dd', _. split; [exact H|].
  refine (proj2 (AddRcpt_nil_reaches_every_target Ex.unicodeLower Ex.dd0 dd' Ex.log0 _ "b@y"
                   Ex.source Ex.rcpt eq_refl _ H)).
  vm_compute. reflexivity.
Defined.

Lemma AddRcpt_opens_check_state_witness :
  exists dd' log' st calls,
    AddRcpt Ex.unicodeLower Ex.dd0 Ex.log0 "b@y" = Some (None, dd', log')
    /\ CheckGroup.NewMessage (rcptBlock.checks Ex.rcpt) Ex.log0 = inr st
    /\ rcptChecksState dd' = <[rcptBlock.id Ex.rcpt := st]> (rcptChecksState Ex.dd0)
    /\ log' = Ex.log0 ++ [EvNewMessage (CheckGroup.id (rcptBlock.checks Ex.rcpt))
                            (Some (CheckState.id st));
                          EvCheck (CheckState.id st) HConnection;
                          EvCheck (CheckState.id st) (HSender (sourceAddr Ex.dd0));
                          EvCheck (CheckState.id st) (HRcpt "b@y")] ++ calls.
Proof.
  destruct AddRcpt_b_y as [dd' H].
  assert (Hres : resolve_order Ex.unicodeLower (sourceBlock.perRcpt Ex.source)
                   (sourceBlock.defaultRcpt Ex.source) "b@y" = inr Ex.rcpt)
    by (vm_compute; reflexivity).
  destruct (AddRcpt_opens_check_state Ex.unicodeLower Ex.dd0 dd' Ex.log0 _ "b@y"
              Ex.source Ex.rcpt
              eq_refl Hres eq_refl H) as (st & calls & H1 & H2 & H3 & _).
  eexists dd', _, st, calls. split; [exact H|]. auto.
Defined.


Lemma Start_returns_delivery_witness :
  exists (gcs scs : CheckState.t) (b : sourceBlock.t),
    resolve_order Ex.unicodeLower (perSource Ex.disp) (defaultSource Ex.disp) "a@x"
    = inr b
    /\ sourceBlock.rejectErr b = None
    /\ d Ex.dd0 = Ex.disp
    /\ globalChecksState Ex.dd0 = Some gcs
    /\ sourceChecksState Ex.dd0 = Some scs
    /\ sourceBlock Ex.dd0 = Some b
    /\ sourceAddr Ex.dd0 = "a@x"
    /\ deliveries Ex.dd0 = ∅
    /\ rcptChecksState Ex.dd0 = ∅
    /\ Ex.meta = msgMeta Ex.dd0
    /\ Ex.log0 = [EvNewMessage (CheckGroup.id (globalChecks Ex.disp))
                    (Some (CheckState.id gcs));
                  EvCheck (CheckState.id gcs) HConnection;
                  EvCheck (CheckState.id gcs) (HSender "a@x");
                  EvNewMessage (CheckGroup.id (sourceBlock.checks b))
                    (Some (CheckState.id scs));
                  EvCheck (CheckState.id scs) HConnection;
                  EvCheck (CheckState.id scs) (HSender "a@x")]
    /\ forall r : Z, rejectScore Ex.disp = Some r -> checkScore Ex.dd0 < Go.int32 r.
Proof.
  exact (Start_returns_delivery Ex.unicodeLower Ex.disp Ex.meta Ex.meta "a@x"
           Ex.dd0 Ex.log0 Start_a_x).
Defined.

(** * Further properties of the MTA-STS cache *)

Lemma fetch_lookup_hit (env : mtasts.Env) (domain cachedId : string)
    (validCache : bool) (cachedPolicy p : option mtasts.Policy)
    (err : option error) :
  mtasts.fetch_lookup env domain validCache cachedId cachedPolicy = (true, p, err) ->
  validCache = true /\ p = cachedPolicy /\ err = None
  /\ exists records,
       mtasts.LookupTXT env ("_mta-sts." +:+ domain) = inr records
       /\ forall record dnsId,
            records = [record] ->
            mtasts.readDNSRecord env record = inr dnsId -> dnsId = cachedId.
Proof.
  unfold mtasts.fetch_lookup.
  destruct (mtasts.LookupTXT env _) as [e|records];
    [destruct (mtasts.permanentDNSError env e); discriminate|].
  destruct records as [|record [|r2 rs]].
  - destruct validCache; [|discriminate]. intros [= <- <-].
    repeat split. exists []. split; [reflexivity|]. discriminate.
  - destruct (mtasts.readDNSRecord env record) as [e|dnsId] eqn:Hr.
    + destruct validCache; [|discriminate]. intros [= <- <-].
      repeat split. exists [record]. split; [reflexivity|].
      intros r i [= <-]. congruence.
    + destruct validCache; simpl.
      * destruct (String.eqb dnsId cachedId) eqn:Heq; simpl.
        -- intros [= <- <-]. repeat split. exists [record]. split; [reflexivity|].
           intros r i [= <-] Hi. rewrite Hr in Hi. injection Hi as <-.
           now apply String.eqb_eq.
        -- destruct (mtasts.downloadPolicy env domain) as [e|pol]; [discriminate|].
           destruct (mtasts.store env domain dnsId (mtasts.Now env) pol); discriminate.
      * destruct (mtasts.downloadPolicy env domain) as [e|pol]; [discriminate|].
        destruct (mtasts.store env domain dnsId (mtasts.Now env) pol); discriminate.
  - destruct validCache; [|discriminate]. intros [= <- <-].
    repeat split. eexists. split; [reflexivity|]. discriminate.
Qed.

(** X11.  [fetch] reports a cache hit only with the policy of an unexpired
    cache file and without error, after a DNS lookup that succeeded, and
    never when the DNS record is the only one, can be read and carries
    another id than the cache file. *)
Theorem fetch_hit_is_valid_cache (env : mtasts.Env) (domain : string)
    (p : option mtasts.Policy) (err : option error) :
  mtasts.fetch env domain = Some (true, p, err) ->
  err = None
  /\ exists cachedId fetchTime policy records,
       mtasts.load env domain = inr (cachedId, fetchTime, Some policy)
       /\ p = Some policy
       /\ mtasts.expired env fetchTime (mtasts.MaxAge policy) = false
       /\ mtasts.LookupTXT env ("_mta-sts." +:+ domain) = inr records
       /\ forall record dnsId,
            records = [record] ->
            mtasts.readDNSRecord env record = inr dnsId -> dnsId = cachedId.
Proof.
  unfold mtasts.fetch.
  destruct (mtasts.load env domain) as [e|[[cachedId fetchTime] [policy|]]].
  - destruct (negb (mtasts.IsNotExist env e)); [discriminate|].
    intros [= H]. apply fetch_lookup_hit in H as (H & _). discriminate.
  - intros [= H]. apply fetch_lookup_hit in H as (Hv & -> & -> & records & Hl & Hid).
    split; [reflexivity|].
    exists cachedId, fetchTime, policy, records.
    repeat split; auto. now apply negb_true_iff in Hv.
  - discriminate.
Qed.

Lemma fetch_hit_is_valid_cache_witness :
  None = (None : option error)
  /\ exists cachedId fetchTime policy records,
       mtasts.load Ex2.cached "example.org" = inr (cachedId, fetchTime, Some policy)
       /\ Some Ex.oldPolicy = Some policy
       /\ mtasts.expired Ex2.cached fetchTime (mtasts.MaxAge policy) = false
       /\ mtasts.LookupTXT Ex2.cached ("_mta-sts." +:+ "example.org") = inr records
       /\ forall record dnsId,
            records = [record] ->
            mtasts.readDNSRecord Ex2.cached record = inr dnsId -> dnsId = cachedId.
Proof.
  exact (fetch_hit_is_valid_cache Ex2.cached "example.org" (Some Ex.oldPolicy) None
           eq_refl).
Defined.

(** X12.  A cache hit does not depend on the policy host or on the cache
    directory being writable: with another [downloadPolicy] and another
    [store], [fetch] returns the same hit. *)
Theorem fetch_hit_without_download (env : mtasts.Env) (domain : string)
    (p : option mtasts.Policy) (err : option error)
    (download : string -> error + mtasts.Policy)
    (store : string -> string -> Z -> mtasts.Policy -> option error) :
  mtasts.fetch env domain = Some (true, p, err) ->
  mtasts.fetch
    {| mtasts.load := mtasts.load env; mtasts.IsNotExist := mtasts.IsNotExist env;
       mtasts.expired := mtasts.expired env; mtasts.LookupTXT := mtasts.LookupTXT env;
       mtasts.permanentDNSError := mtasts.permanentDNSError env;
       mtasts.readDNSRecord := mtasts.readDNSRecord env;
       mtasts.downloadPolicy := download; mtasts.Now := mtasts.Now env;
       mtasts.store := store |} domain
  = Some (true, p, err).
Proof.
  unfold mtasts.fetch, mtasts.fetch_lookup. simpl.
  destruct (mtasts.load env domain) as [e|[[cachedId fetchTime] [policy|]]];
    [destruct (negb (mtasts.IsNotExist env e)); [discriminate|] | | discriminate];
    (destruct (mtasts.LookupTXT env _) as [e'|[|record [|r2 rs]]]; [auto| auto | | auto]);
    (destruct (mtasts.readDNSRecord env record) as [e''|dnsId]; [auto|]);
    simpl;
    try (destruct (mtasts.downloadPolicy env domain) as [?|pol];
         [discriminate|destruct (mtasts.store env domain dnsId (mtasts.Now env) pol);
                       discriminate]).
  destruct (negb (negb (mtasts.expired env fetchTime (mtasts.MaxAge policy)))
            || negb (dnsId =? cachedId)%string); [|auto].
  destruct (mtasts.downloadPolicy env domain) as [?|pol]; [discriminate|].
  destruct (mtasts.store env domain dnsId (mtasts.Now env) pol); discriminate.
Qed.

(** X13.  When [fetch] returns an error, it returns no policy and no cache
    hit; and when the DNS lookup fails, [fetch] returns an error, whether or
    not there is an unexpired cache file. *)
Theorem fetch_error_carries_no_policy (env : mtasts.Env) (domain : string)
    (hit : bool) (p : option mtasts.Policy) (err : option error) :
  mtasts.fetch env domain = Some (hit, p, err) ->
  (is_Some err -> hit = false /\ p = None)
  /\ (forall e, mtasts.LookupTXT env ("_mta-sts." +:+ domain) = inl e -> is_Some err).
Proof.
  assert (L : forall validCache cachedId cachedPolicy,
             mtasts.fetch_lookup env domain validCache cachedId cachedPolicy
             = (hit, p, err) ->
             (is_Some err -> hit = false /\ p = None)
             /\ (forall e, mtasts.LookupTXT env ("_mta-sts." +:+ domain) = inl e ->
                           is_Some err)).
  { intros validCache cachedId cachedPolicy. unfold mtasts.fetch_lookup.
    destruct (mtasts.LookupTXT env _) as [e|records].
    - destruct (mtasts.permanentDNSError env e); intros [= <- <- <-]; eauto.
    - intros H. split; [|discriminate]. revert H.
      repeat match goal with
             | |- context [match ?x with _ => _ end] => destruct x
             end; intros [= <- <- <-]; intros [e0 He]; try discriminate; auto. }
  unfold mtasts.fetch.
  destruct (mtasts.load env domain) as [e|[[cachedId fetchTime] [policy|]]].
  - destruct (negb (mtasts.IsNotExist env e)).
    + intros [= <- <- <-]. split; eauto.
    + intros [= H]. eapply L; eassumption.
  - intros [= H]. eapply L; eassumption.
  - discriminate.
Qed.

Lemma fetch_error_carries_no_policy_witness :
  (is_Some (Some mtasts.ErrNoPolicy) -> false = false /\ None = (None : option mtasts.Policy))
  /\ (forall e, mtasts.LookupTXT Ex2.vanished ("_mta-sts." +:+ "example.org") = inl e ->
                is_Some (Some mtasts.ErrNoPolicy)).
Proof.
  exact (fetch_error_carries_no_policy Ex2.vanished "example.org" false None
           (Some mtasts.ErrNoPolicy) eq_refl).
Defined.

Lemma fetch_hit_without_download_witness :
  mtasts.fetch
    {| mtasts.load := mtasts.load Ex2.cached;
       mtasts.IsNotExist := mtasts.IsNotExist Ex2.cached;
       mtasts.expired := mtasts.expired Ex2.cached;
       mtasts.LookupTXT := mtasts.LookupTXT Ex2.cached;
       mtasts.permanentDNSError := mtasts.permanentDNSError Ex2.cached;
       mtasts.readDNSRecord := mtasts.readDNSRecord Ex2.cached;
       mtasts.downloadPolicy := fun _ => inr Ex.policy;
       mtasts.Now := mtasts.Now Ex2.cached;
       mtasts.store := fun _ _ _ _ => Some (Errorf "permission denied") |}
    "example.org"
  = Some (true, Some Ex.oldPolicy, None).
Proof.
  exact (fetch_hit_without_download Ex2.cached "example.org" (Some Ex.oldPolicy) None
           (fun _ => inr Ex.policy) (fun _ _ _ _ => Some (Errorf "permission denied"))
           eq_refl).
Defined.

Lemma AddRcpt_reuses_check_state_witness :
  exists e dd' calls,
    AddRcpt Ex.unicodeLower Ex2.dd1 Ex.log0 "c@y"
    = Some (e, dd', Ex.log0 ++ EvCheck 12 (HRcpt "c@y") :: calls)
    /\ Forall (fun ev => ~ check_event ev) calls
    /\ rcptChecksState dd' = rcptChecksState Ex2.dd1
    /\ forall e0,
         (checkResult Ex2.dd1
            (CheckState.CheckRcpt (Ex.state 12 Ex.accept) Ex.log0 "c@y")).1 = Some e0 ->
         e = Some e0 /\ calls = [].
Proof.
  assert (Hres : resolve_order Ex.unicodeLower (sourceBlock.perRcpt Ex.source)
                   (sourceBlock.defaultRcpt Ex.source) "c@y" = inr Ex.rcpt)
    by (vm_compute; reflexivity).
  exact (AddRcpt_reuses_check_state Ex.unicodeLower Ex2.dd1 Ex.log0 "c@y" Ex.source
           Ex.rcpt (Ex.state 12 Ex.accept) eq_refl Hres eq_refl eq_refl).
Defined.

(** ** The cache refresh *)

Lemma RefreshCache_entries_spec (env : mtasts.Env) (dir : list (string * bool))
    (removed : list string) :
  refresh.RefreshCache_entries env dir = Some removed ->
  forall name,
    name ∈ removed <->
    (name, false) ∈ dir
    /\ exists p e, mtasts.fetch env name = Some (false, p, Some e)
                   /\ refresh.isErrNoPolicy e = true.
Proof.
  revert removed. induction dir as [|[n isDir] dir IH]; intros removed; simpl.
  - intros [= <-] name. split; [intros H; inversion H|].
    intros [H _]. inversion H.
  - destruct isDir.
    + intros H name. rewrite (IH removed H name). split.
      * intros [H1 H2]. split; [apply elem_of_cons; auto|exact H2].
      * intros [H1 H2]. split; [|exact H2].
        apply elem_of_cons in H1 as [H1|H1]; [discriminate|exact H1].
    + destruct (mtasts.fetch env n) as [[[hit p] err]|] eqn:Hf; [|discriminate].
      destruct (refresh.RefreshCache_entries env dir) as [rest|]; [|discriminate].
      specialize (IH rest eq_refl). simpl. intros [= <-] name.
      rewrite elem_of_app, IH. split.
      * intros [H|[H1 H2]].
        -- destruct (negb hit && from_option refresh.isErrNoPolicy false err) eqn:Hc;
             [|inversion H].
           apply list_elem_of_singleton in H. subst name.
           apply andb_true_iff in Hc as [Hh He].
           destruct hit; [discriminate|]. destruct err as [e|]; [|discriminate].
           split; [apply elem_of_cons; auto|]. eauto.
        -- split; [apply elem_of_cons; auto|exact H2].
      * intros [H1 (p' & e & Hf' & He)].
        apply elem_of_cons in H1 as [[= ->]|H1].
        -- left. rewrite Hf in Hf'. injection Hf' as -> -> ->. simpl. rewrite He.
           apply list_elem_of_singleton. reflexivity.
        -- right. eauto.
Qed.

(** X14.  Once [ReadDir] has succeeded, [RefreshCache] returns [nil]
    whatever [fetch] returns for the entries.  It calls [os.Remove] exactly
    on the entries that are no directories and for which [fetch] reports
    [ErrNoPolicy] without a cache hit; so the cache file of a domain whose
    DNS lookup fails for good is removed, also when it has not expired. *)
Theorem RefreshCache_removes_on_ErrNoPolicy (env : mtasts.Env)
    (dir : list (string * bool)) (res : option error) (removed : list string) :
  refresh.RefreshCache env (inr dir) = Some (res, removed) ->
  res = None
  /\ (forall name,
        name ∈ removed <->
        (name, false) ∈ dir
        /\ exists p e, mtasts.fetch env name = Some (false, p, Some e)
                       /\ refresh.isErrNoPolicy e = true)
  /\ (forall name e cached,
        (name, false) ∈ dir ->
        mtasts.load env name = inr cached ->
        mtasts.LookupTXT env ("_mta-sts." +:+ name) = inl e ->
        mtasts.permanentDNSError env e = true ->
        name ∈ removed).
Proof.
  unfold refresh.RefreshCache.
  destruct (refresh.RefreshCache_entries env dir) as [rm|] eqn:E; [|discriminate].
  intros [= <- <-]. split; [reflexivity|].
  pose proof (RefreshCache_entries_spec env dir rm E) as Hspec.
  split; [exact Hspec|].
  intros name e [[cachedId fetchTime] cachedPolicy] Hin Hload Hdns Hperm.
  apply Hspec. split; [exact Hin|].
  exists None, mtasts.ErrNoPolicy. split; [|reflexivity].
  assert (Hsome : is_Some (mtasts.fetch env name)).
  { clear Hspec. revert rm E. induction dir as [|[n isDir] dir IH]; intros rm E.
    - inversion Hin.
    - simpl in E. apply elem_of_cons in Hin as [[= <- <-]|Hin].
      + destruct (mtasts.fetch env name); [eauto|discriminate].
      + destruct isDir; [eapply IH; eassumption|].
        destruct (mtasts.fetch env n) as [[[? ?] ?]|]; [|discriminate].
        destruct (refresh.RefreshCache_entries env dir) as [rest|]; [|discriminate].
        eapply IH; [exact Hin|reflexivity]. }
  destruct Hsome as [r Hr]. rewrite Hr. revert Hr.
  unfold mtasts.fetch, mtasts.fetch_lookup. rewrite Hload.
  destruct cachedPolicy as [pol|]; [|discriminate].
  rewrite Hdns, Hperm. intros [= <-]. reflexivity.
Qed.

Lemma RefreshCache_removes_on_ErrNoPolicy_witness :
  refresh.RefreshCache Ex2.vanished (inr [("example.org", false); ("lost+found", true)])
  = Some (None, ["example.org"])
  /\ "example.org" ∈ ["example.org"].
Proof.
  split; [reflexivity|].
  refine (proj2 (proj2 (RefreshCache_removes_on_ErrNoPolicy Ex2.vanished
            [("example.org", false); ("lost+found", true)] None ["example.org"]
            eq_refl)) "example.org" (Errorf "no such host") _ _ eq_refl eq_refl eq_refl).
  apply elem_of_cons. left. reflexivity.
Defined.

(** * The body of a message *)

Section BodyProperties.

Variable CheckBody : CheckState.t -> list bodyEvent -> Header.t -> CheckResult.t.
Variable DeliveryBody : Delivery.t -> list bodyEvent -> Header.t -> option error.
Variable Format : string -> list string -> string.

Lemma runCheckBody_spec (dd dd' : dispatcherDelivery) (blog blog' : list bodyEvent)
    (st : CheckState.t) (h : Header.t) (e : option error) :
  runCheckBody CheckBody dd blog st h = (e, dd', blog') ->
  blog' = blog ++ [EvCheckBody (CheckState.id st)]
  /\ globalChecksState dd' = globalChecksState dd
  /\ sourceChecksState dd' = sourceChecksState dd.
Proof.
  unfold runCheckBody.
  destruct (checkResult dd (CheckBody st blog h)) as [e0 dd0] eqn:E.
  intros [= <- <- <-].
  pose proof (checkResult_frame dd (CheckBody st blog h)) as ((_ & Hg & Hs & _) & _).
  rewrite E in Hg, Hs. auto.
Qed.

Lemma processAll_cons (dd : dispatcherDelivery) (res : CheckResult.t)
    (results : list CheckResult.t) :
  processAll dd (res :: results) = processAll (checkResult dd res).2 results.
Proof. reflexivity. Qed.

(** The loop over the check states when every check is accepted. *)
Lemma Body_rcptChecks_accepted (states : list (nat * CheckState.t))
    (dd : dispatcherDelivery) (blog : list bodyEvent) (h : Header.t) :
  accepted dd (bodyResults CheckBody states.*2 blog h) ->
  Body_rcptChecks CheckBody states dd blog h
  = (None, processAll dd (bodyResults CheckBody states.*2 blog h),
     blog ++ checkBodyEvents states.*2).
Proof.
  revert dd blog. induction states as [|[k st] states IH]; intros dd blog; simpl.
  - intros _. rewrite app_nil_r. reflexivity.
  - intros [Hn Hrest]. unfold runCheckBody.
    destruct (checkResult dd (CheckBody st blog h)) as [e dd1] eqn:E.
    simpl in Hn, Hrest. subst e.
    rewrite (IH dd1 _ Hrest). simpl. rewrite <- app_assoc. reflexivity.
Qed.

(** The loop over the check states up to the first check that is
    rejected. *)
Lemma Body_rcptChecks_rejected (passed : list CheckState.t)
    (states : list (nat * CheckState.t)) (dd : dispatcherDelivery)
    (blog : list bodyEvent) (h : Header.t) (st : CheckState.t)
    (later : list CheckState.t) (err : error) :
  states.*2 = passed ++ st :: later ->
  accepted dd (bodyResults CheckBody passed blog h) ->
  (checkResult (processAll dd (bodyResults CheckBody passed blog h))
     (CheckBody st (blog ++ checkBodyEvents passed) h)).1 = Some err ->
  Body_rcptChecks CheckBody states dd blog h
  = (Some err,
     (checkResult (processAll dd (bodyResults CheckBody passed blog h))
        (CheckBody st (blog ++ checkBodyEvents passed) h)).2,
     blog ++ checkBodyEvents (passed ++ [st])).
Proof.
  revert states dd blog. induction passed as [|p passed IH]; intros states dd blog.
  - destruct states as [|[k st'] states]; [discriminate|].
    simpl. intros [= -> _] _. rewrite app_nil_r. unfold processAll. simpl.
    intros Herr. unfold runCheckBody.
    destruct (checkResult dd (CheckBody st blog h)) as [e dd1].
    simpl in Herr. subst e. reflexivity.
  - destruct states as [|[k p'] states]; [discriminate|].
    change (bodyResults CheckBody (p :: passed) blog h)
      with (CheckBody p blog h
              :: bodyResults CheckBody passed
                   (blog ++ [EvCheckBody (CheckState.id p)]) h).
    rewrite !processAll_cons.
    cbn [fmap list_fmap snd accepted Body_rcptChecks app].
    intros [= -> Hst] [Hn Hrest] Herr. unfold runCheckBody.
    destruct (checkResult dd (CheckBody p blog h)) as [e dd1] eqn:E.
    cbn [fst snd] in Hn, Hrest, Herr |- *. subst e.
    assert (Hlog : (blog ++ [EvCheckBody (CheckState.id p)]) ++ checkBodyEvents passed
                   = blog ++ checkBodyEvents (p :: passed))
      by (rewrite <- app_assoc; reflexivity).
    rewrite <- Hlog in Herr |- *.
    rewrite (IH states dd1 (blog ++ [EvCheckBody (CheckState.id p)]) Hst Hrest Herr).
    f_equal. rewrite <- app_assoc. reflexivity.
Qed.

(** The loop over the deliveries, when all take the body and up to the
    first that fails. *)
Lemma Body_deliveries_ok (ds : list (nat * Delivery.t)) (blog : list bodyEvent)
    (h : Header.t) :
  bodies_ok DeliveryBody ds blog h ->
  Body_deliveries DeliveryBody ds blog h = (None, blog ++ bodyEvents ds h).
Proof.
  revert blog. induction ds as [|[k dl] ds IH]; intros blog; simpl.
  - intros _. rewrite app_nil_r. reflexivity.
  - intros [-> Hrest]. rewrite (IH _ Hrest), <- app_assoc. reflexivity.
Qed.

Lemma Body_deliveries_fails (before after : list (nat * Delivery.t)) (t : nat)
    (dl : Delivery.t) (blog : list bodyEvent) (h : Header.t) (err : error) :
  bodies_ok DeliveryBody before blog h ->
  DeliveryBody dl (blog ++ bodyEvents before h) h = Some err ->
  Body_deliveries DeliveryBody (before ++ (t, dl) :: after) blog h
  = (Some err, blog ++ bodyEvents before h ++ [EvBody (Delivery.id dl) h]).
Proof.
  revert blog. induction before as [|[k b] before IH]; intros blog; simpl.
  - intros _. rewrite app_nil_r. intros ->. reflexivity.
  - intros [-> Hrest] Hf. rewrite (IH _ Hrest).
    + rewrite <- !app_assoc. reflexivity.
    + rewrite <- app_assoc. exact Hf.
Qed.

(** [Body] as one loop over the global, the source and the recipient check
    states, followed by the loop over the deliveries. *)
Lemma Body_loops (dd : dispatcherDelivery) (rcptOrder : list (nat * CheckState.t))
    (delOrder : list (nat * Delivery.t)) (h : Header.t) (g s : CheckState.t) :
  globalChecksState dd = Some g -> sourceChecksState dd = Some s ->
  Body CheckBody DeliveryBody Format dd rcptOrder delOrder h
  = let '(e, dd1, blog) :=
      Body_rcptChecks CheckBody ((0%nat, g) :: (0%nat, s) :: rcptOrder) dd [] h in
    match e with
    | Some err => Some (Some err, dd1, blog)
    | None =>
      let '(e, blog) := Body_deliveries DeliveryBody delOrder blog (stamp Format dd1 h) in
      Some (e, dd1, blog)
    end.
Proof.
  intros Hg Hs. unfold Body. rewrite Hg. simpl.
  destruct (runCheckBody CheckBody dd [] g h) as [[e1 dd1] blog1] eqn:E1.
  pose proof (runCheckBody_spec _ _ _ _ _ _ _ E1) as (_ & _ & Hs1).
  destruct e1 as [err|]; [reflexivity|].
  rewrite Hs1, Hs.
  destruct (runCheckBody CheckBody dd1 blog1 s h) as [[e2 dd2] blog2].
  destruct e2 as [err|]; reflexivity.
Qed.

(** X15.  For a delivery that holds its global and its source check state,
    [Body] calls [CheckBody] on the global check state, on the source check
    state and on the recipient check states, in this order, each result
    going through [checkResult].  At the first check that is rejected it
    returns that error, and the log ends with that call: no later check
    and no delivery is called.  Only when all checks have been accepted
    does it give the body to the deliveries, in order, all with the same
    header; at the first delivery whose [Body] fails it returns that error
    and the deliveries after it are not called; if every delivery takes
    the body it returns [nil]. *)
Theorem Body_checks_before_deliveries (dd : dispatcherDelivery)
    (rcptOrder : list (nat * CheckState.t)) (delOrder : list (nat * Delivery.t))
    (msgHeader : Header.t) (g s : CheckState.t) :
  globalChecksState dd = Some g ->
  sourceChecksState dd = Some s ->
  let states := g :: s :: rcptOrder.*2 in
  (forall passed st later err,
     states = passed ++ st :: later ->
     accepted dd (bodyResults CheckBody passed [] msgHeader) ->
     (checkResult (processAll dd (bodyResults CheckBody passed [] msgHeader))
        (CheckBody st (checkBodyEvents passed) msgHeader)).1 = Some err ->
     Body CheckBody DeliveryBody Format dd rcptOrder delOrder msgHeader
     = Some (Some err,
             (checkResult (processAll dd (bodyResults CheckBody passed [] msgHeader))
                (CheckBody st (checkBodyEvents passed) msgHeader)).2,
             checkBodyEvents (passed ++ [st])))
  /\ (accepted dd (bodyResults CheckBody states [] msgHeader) ->
      let dd' := processAll dd (bodyResults CheckBody states [] msgHeader) in
      let hdr := stamp Format dd' msgHeader in
      (forall before t dl after err,
         delOrder = before ++ (t, dl) :: after ->
         bodies_ok DeliveryBody before (checkBodyEvents states) hdr ->
         DeliveryBody dl (checkBodyEvents states ++ bodyEvents before hdr) hdr
         = Some err ->
         Body CheckBody DeliveryBody Format dd rcptOrder delOrder msgHeader
         = Some (Some err, dd',
                 checkBodyEvents states ++ bodyEvents before hdr
                   ++ [EvBody (Delivery.id dl) hdr]))
      /\ (bodies_ok DeliveryBody delOrder (checkBodyEvents states) hdr ->
          Body CheckBody DeliveryBody Format dd rcptOrder delOrder msgHeader
          = Some (None, dd', checkBodyEvents states ++ bodyEvents delOrder hdr))).
Proof.
  intros Hg Hs states. rewrite (Body_loops dd rcptOrder delOrder msgHeader g s Hg Hs).
  split.
  - intros passed st later err Hst Hacc Herr.
    rewrite (Body_rcptChecks_rejected passed ((0%nat, g) :: (0%nat, s) :: rcptOrder)
               dd [] msgHeader st later err Hst Hacc Herr).
    reflexivity.
  - intros Hacc dd' hdr.
    rewrite (Body_rcptChecks_accepted ((0%nat, g) :: (0%nat, s) :: rcptOrder)
               dd [] msgHeader Hacc).
    change (((0%nat, g) :: (0%nat, s) :: rcptOrder).*2) with states.
    fold dd'. fold hdr. rewrite app_nil_l. split.
    + intros before t dl after err -> Hok Hf.
      rewrite (Body_deliveries_fails before after t dl _ hdr err Hok Hf).
      reflexivity.
    + intros Hok. rewrite (Body_deliveries_ok delOrder _ hdr Hok). reflexivity.
Qed.

Lemma fold_Add (fs : list (string * string)) (h : Header.t) :
  fold_left (fun h field => Header.Add field.1 field.2 h) fs h = rev fs ++ h.
Proof.
  revert h. induction fs as [|[k v] fs IH]; intros h; simpl; [reflexivity|].
  rewrite IH, <- app_assoc. reflexivity.
Qed.

Lemma checkResult_header (dd : dispatcherDelivery) (res : CheckResult.t) :
  header (checkResult dd res).2
  = match (checkResult dd res).1 with
    | None => rev (CheckResult.Header res) ++ header dd
    | Some _ => header dd
    end.
Proof.
  unfold checkResult.
  destruct (CheckResult.RejectErr res); [reflexivity|].
  destruct (CheckResult.Quarantine res); cbn [set_Quarantine set_checkScore d checkScore];
    (destruct (reached (rejectScore (d dd)) _); [reflexivity|]);
    destruct (reached (quarantineScore (d dd)) _);
    destruct (negb _); simpl; unfold Header.Fields; apply fold_Add.
Qed.

Lemma processAll_header (results : list CheckResult.t) (dd : dispatcherDelivery) :
  header (processAll dd results) = rev (acceptedFields dd results) ++ header dd.
Proof.
  revert dd. induction results as [|res results IH]; intros dd; [reflexivity|].
  change (processAll dd (res :: results))
    with (processAll (checkResult dd res).2 results).
  rewrite IH, checkResult_header. simpl.
  destruct (checkResult dd res).1; [reflexivity|].
  rewrite rev_app_distr, <- app_assoc. reflexivity.
Qed.

(** X16.  The header that [Body] gives to the deliveries for a delivery
    whose accumulated header comes from the check results [results]: on top
    the header fields of the accepted check results, in the order of the
    checks and, for each check, in the order of its fields; below them the
    Authentication-Results field, if any Authentication-Results have been
    accumulated; then the header of the message, unchanged. *)
Theorem stamp_keeps_order (dd : dispatcherDelivery) (results : list CheckResult.t)
    (msgHeader : Header.t) :
  header dd = [] ->
  stamp Format (processAll dd results) msgHeader
  = acceptedFields dd results
    ++ match authRes (processAll dd results) with
       | [] => msgHeader
       | found =>
         ("Authentication-Results",
          Format (hostname (d (processAll dd results))) found) :: msgHeader
       end.
Proof.
  intros Hh. unfold stamp, Header.Fields. rewrite fold_Add, processAll_header, Hh.
  rewrite app_nil_r, rev_involutive.
  destruct (authRes (processAll dd results)); reflexivity.
Qed.

End BodyProperties.

(** * The SMTP session *)

(** X17.  [Data] returns [nil] exactly when the delivery has accepted the
    body: it then has called [Commit], whose error, if any, is not
    returned, and the session holds no delivery any more.  When [Data]
    returns an error the session is as before, [Commit] has not been
    called, and the delivery has been called at most once, with [Body]. *)
Theorem Data_returns_Body_error_only (s s' : SMTP.Session) (log log' : list SMTP.call)
    (readHeader : error + Header.t) (prepare buffered e : option error) :
  SMTP.Data s log readHeader prepare buffered = Some (e, s', log') ->
  (e = None ->
   exists dl hdr,
     SMTP.delivery s = Some dl /\ readHeader = inr hdr
     /\ SMTP.Body dl log hdr = None
     /\ s' = SMTP.set_delivery None s
     /\ log' = log ++ [SMTP.CallBody (SMTP.id dl) true;
                       SMTP.CallCommit (SMTP.id dl)
                         (bool_decide (SMTP.Commit dl
                            (log ++ [SMTP.CallBody (SMTP.id dl) true]) = None))])
  /\ (is_Some e ->
      s' = s
      /\ (log' = log
          \/ exists dl, SMTP.delivery s = Some dl
                        /\ log' = log ++ [SMTP.CallBody (SMTP.id dl) false])).
Proof.
  unfold SMTP.Data.
  destruct readHeader as [err|hdr].
  { intros [= <- <- <-]. split; [discriminate|]. auto. }
  destruct (if SMTP.submission (SMTP.endp s) then prepare else None) as [err|].
  { intros [= <- <- <-]. split; [discriminate|]. auto. }
  destruct buffered as [err|].
  { intros [= <- <- <-]. split; [discriminate|]. auto. }
  destruct (SMTP.delivery s) as [dl|] eqn:Hd; [|discriminate].
  destruct (SMTP.Body dl log hdr) as [err|] eqn:Hb.
  - intros [= <- <- <-]. split; [discriminate|]. intros _. split; [reflexivity|].
    right. eauto.
  - intros [= <- <- <-]. split.
    + intros _. exists dl, hdr. rewrite <- app_assoc. auto.
    + intros [? [=]].
Qed.

Lemma protocol_app (l1 l2 : list SMTP.call) (prev : option SMTP.call) :
  SMTP.protocol prev (l1 ++ l2)
  <-> SMTP.protocol prev l1
      /\ SMTP.protocol (match last l1 with Some c => Some c | None => prev end) l2.
Proof.
  revert prev. induction l1 as [|c l1 IH]; intros prev; simpl; [tauto|].
  rewrite IH, last_cons. destruct (last l1); tauto.
Qed.

(** The invariant of a session: its log obeys the protocol, and while it
    holds a delivery the last call was not a [Commit] or an [Abort]. *)
Lemma session_step (s s' : SMTP.Session) (log log' : list SMTP.call)
    (c : SMTP.command) :
  SMTP.step s log c = Some (s', log') ->
  SMTP.protocol None log
  /\ (is_Some (SMTP.delivery s) ->
      exists p, last log = Some p /\ SMTP.terminal p = false) ->
  SMTP.protocol None log'
  /\ (is_Some (SMTP.delivery s') ->
      exists p, last log' = Some p /\ SMTP.terminal p = false).
Proof.
  intros Hstep [Hp Hd].
  assert (Hsnoc : forall c0, SMTP.allowed (last log) c0 ->
             SMTP.protocol None (log ++ [c0])).
  { intros c0 Hc0. apply protocol_app. split; [exact Hp|]. simpl. split; [|exact I].
    destruct (last log) eqn:Hl; [exact Hc0|].
    apply last_None in Hl. subst log. exact Hc0. }
  assert (Hnt : forall dl c0, SMTP.delivery s = Some dl ->
             match c0 with SMTP.CallCommit _ _ => False | _ => True end ->
             SMTP.allowed (last log) c0).
  { intros dl c0 Hdl Hc0. destruct (Hd (ex_intro _ dl Hdl)) as (p & Hl & Ht).
    rewrite Hl. split.
    - destruct c0; try exact I. contradiction.
    - rewrite Ht. discriminate. }
  destruct c as [rawID mailFrom|to|rh prep buf| |]; simpl in Hstep.
  - unfold SMTP.Mail in Hstep. destruct rawID as [err|hexID].
    + injection Hstep as <- <-. auto.
    + simpl in Hstep.
      destruct (SMTP.dispatcher_Start (SMTP.endp s) log mailFrom) as [dl err].
      injection Hstep as <- <-. split.
      * apply Hsnoc. split; [exact I|].
        destruct (last log); [intros _; exact I|exact I].
      * intros _. rewrite last_snoc. eauto.
  - unfold SMTP.Rcpt in Hstep. destruct (SMTP.delivery s) as [dl|] eqn:Hdl; [|discriminate].
    injection Hstep as <- <-. split.
    + apply Hsnoc. now apply (Hnt dl).
    + intros _. rewrite last_snoc. eauto.
  - destruct (SMTP.Data s log rh prep buf) as [[[e s1] log1]|] eqn:E; [|discriminate].
    injection Hstep as <- <-.
    unfold SMTP.Data in E.
    destruct rh as [err|hdr]; [injection E as <- <- <-; auto|].
    destruct (if SMTP.submission (SMTP.endp s) then prep else None);
      [injection E as <- <- <-; auto|].
    destruct buf; [injection E as <- <- <-; auto|].
    destruct (SMTP.delivery s) as [dl|] eqn:Hdl; [|discriminate].
    destruct (SMTP.Body dl log hdr).
    + injection E as <- <- <-. split.
      * apply Hsnoc. now apply (Hnt dl).
      * intros _. rewrite last_snoc. eauto.
    + injection E as <- <- <-. split.
      * apply protocol_app. split; [apply Hsnoc; now apply (Hnt dl)|].
        rewrite last_snoc. simpl. repeat split. discriminate.
      * simpl. intros [? [=]].
  - unfold SMTP.Reset, SMTP.abort in Hstep.
    destruct (SMTP.delivery s) as [dl|] eqn:Hdl.
    + injection Hstep as <- <-. split.
      * apply Hsnoc. now apply (Hnt dl).
      * simpl. intros [? [=]].
    + injection Hstep as <- <-. rewrite Hdl. auto.
  - unfold SMTP.Logout, SMTP.abort in Hstep.
    destruct (SMTP.delivery s) as [dl|] eqn:Hdl.
    + injection Hstep as <- <-. split.
      * apply Hsnoc. now apply (Hnt dl).
      * simpl. intros [? [=]].
    + injection Hstep as <- <-. rewrite Hdl. auto.
Qed.

(** X18.  Whatever commands a client sends to a new session, the calls
    that the session makes obey the protocol of a delivery: the first call
    is a [Start]; [Commit] is called only at once after a [Body] of the same
    delivery that returned without error; and after a [Commit] or an
    [Abort] nothing is called before the next [Start]. *)
Theorem session_obeys_protocol (s s' : SMTP.Session) (cs : list SMTP.command)
    (log : list SMTP.call) :
  SMTP.delivery s = None ->
  SMTP.run s [] cs = Some (s', log) ->
  SMTP.protocol None log.
Proof.
  intros Hd Hrun.
  assert (Hinv : forall cs s log s' log',
             SMTP.run s log cs = Some (s', log') ->
             SMTP.protocol None log
             /\ (is_Some (SMTP.delivery s) ->
                 exists p, last log = Some p /\ SMTP.terminal p = false) ->
             SMTP.protocol None log').
  { clear. induction cs as [|c cs IH]; intros s log s' log' Hrun Hinv; simpl in Hrun.
    - injection Hrun as <- <-. tauto.
    - destruct (SMTP.step s log c) as [[s1 log1]|] eqn:E; [|discriminate].
      eapply IH; [exact Hrun|]. eapply session_step; eassumption. }
  eapply Hinv; [exact Hrun|]. split; [exact I|].
  rewrite Hd. intros [? [=]].
Qed.

Lemma Data_returns_Body_error_only_witness :
  exists dl hdr,
    SMTP.delivery (SMTP.set_delivery (Some Ex2.unreliable) Ex2.session) = Some dl
    /\ (inr [] : error + Header.t) = inr hdr
    /\ SMTP.Body dl [SMTP.CallStart "a@x" true] hdr = None
    /\ SMTP.set_delivery None Ex2.session
       = SMTP.set_delivery None (SMTP.set_delivery (Some Ex2.unreliable) Ex2.session)
    /\ [SMTP.CallStart "a@x" true; SMTP.CallBody 7 true; SMTP.CallCommit 7 false]
       = [SMTP.CallStart "a@x" true]
         ++ [SMTP.CallBody (SMTP.id dl) true;
             SMTP.CallCommit (SMTP.id dl)
               (bool_decide (SMTP.Commit dl
                  ([SMTP.CallStart "a@x" true] ++ [SMTP.CallBody (SMTP.id dl) true])
                  = None))].
Proof.
  exact (proj1 (Data_returns_Body_error_only
                  (SMTP.set_delivery (Some Ex2.unreliable) Ex2.session)
                  (SMTP.set_delivery None Ex2.session)
                  [SMTP.CallStart "a@x" true]
                  [SMTP.CallStart "a@x" true; SMTP.CallBody 7 true; SMTP.CallCommit 7 false]
                  (inr []) None None None eq_refl) eq_refl).
Defined.

Lemma session_obeys_protocol_witness :
  SMTP.protocol None
    [SMTP.CallStart "a@x" true; SMTP.CallAddRcpt 7 "b@y"; SMTP.CallBody 7 true;
     SMTP.CallCommit 7 false; SMTP.CallStart "c@x" true; SMTP.CallAbort 7].
Proof.
  exact (session_obeys_protocol Ex2.session (SMTP.set_delivery None
           {| SMTP.endp := Ex2.endpoint; SMTP.delivery := None;
              SMTP.DeliveryID := "01"; SMTP.From := "c@x" |})
           [SMTP.CmdMail (inr "00") "a@x"; SMTP.CmdRcpt "b@y";
            SMTP.CmdData (inr []) None None; SMTP.CmdLogout;
            SMTP.CmdMail (inr "01") "c@x"; SMTP.CmdReset]
           _ eq_refl eq_refl).
Defined.

Lemma Body_checks_before_deliveries_witness :
  Body Ex2.strictBody Ex2.deliveryBody Ex2.format Ex2.dd1
    [(0%nat, Ex.state 12 Ex.accept)] [(0%nat, Ex.delivery 100 None None)]
    [("Subject", "hello")]
  = Some (Some Ex.blocked, Ex2.dd1,
          [EvCheckBody 10; EvCheckBody 11; EvCheckBody 12]).
Proof.
  refine (proj1 (Body_checks_before_deliveries Ex2.strictBody Ex2.deliveryBody
                   Ex2.format Ex2.dd1 [(0%nat, Ex.state 12 Ex.accept)]
                   [(0%nat, Ex.delivery 100 None None)] [("Subject", "hello")]
                   (Ex.state 10 Ex.accept) (Ex.state 11 Ex.accept) eq_refl eq_refl)
            [Ex.state 10 Ex.accept; Ex.state 11 Ex.accept] (Ex.state 12 Ex.accept)
            [] Ex.blocked eq_refl _ eq_refl).
  vm_compute. auto.
Defined.

Lemma stamp_keeps_order_witness :
  stamp Ex2.format (processAll Ex.dd0 [Ex2.signed; Ex.reject 0; Ex2.scanned])
    [("Subject", "hello")]
  = acceptedFields Ex.dd0 [Ex2.signed; Ex.reject 0; Ex2.scanned]
    ++ match authRes (processAll Ex.dd0 [Ex2.signed; Ex.reject 0; Ex2.scanned]) with
       | [] => [("Subject", "hello")]
       | found =>
         ("Authentication-Results",
          Ex2.format (hostname (d (processAll Ex.dd0
                                     [Ex2.signed; Ex.reject 0; Ex2.scanned]))) found)
         :: [("Subject", "hello")]
       end.
Proof.
  exact (stamp_keeps_order Ex2.format Ex.dd0 [Ex2.signed; Ex.reject 0; Ex2.scanned]
           [("Subject", "hello")] eq_refl).
Defined.

(** * The chain of tables *)

Lemma callbacks_lengths (ds : list table.directive) (s : table.Chain) :
  length (table.chain s) = length (table.optional s) ->
  length (table.chain (table.callbacks ds s))
  = length (table.optional (table.callbacks ds s)).
Proof.
  revert s. induction ds as [|dir ds IH]; intros s Hs; [exact Hs|].
  unfold table.callbacks. simpl. apply IH.
  destruct dir as [[err|tbl]|[err|tbl]]; simpl; try exact Hs;
    rewrite !length_app, Hs; reflexivity.
Qed.

Lemma Lookup_from_shape (steps : list table.Table) (opt : list bool) (i : nat)
    (key : string) :
  (i + length steps <= length opt)%nat ->
  exists val ok err,
    table.Lookup_from steps opt i key = Some (val, ok, err)
    /\ (ok = false -> val = "")
    /\ (is_Some err -> ok = false).
Proof.
  revert i key. induction steps as [|step steps IH]; intros i key Hlen; simpl in *.
  - exists key, true, None. split; [reflexivity|]. split; [discriminate|].
    intros [? [=]].
  - destruct (table.Lookup step key) as [[val ok] [e|]].
    + exists "", false, (Some e). auto.
    + destruct ok; simpl.
      * apply IH. lia.
      * destruct (lookup_lt_is_Some_2 opt i) as [b Hb]; [lia|]. rewrite Hb.
        destruct b; [apply IH; lia|].
        exists "", false, None. split; [reflexivity|]. split; [reflexivity|].
        intros [? [=]].
Qed.

(** X19.  For a chain that [Init] has built from any directives, of which
    some may have failed, [Lookup] never reads [optional] out of range.
    When it reports that the key is not found the value is empty, and with
    an error it reports that the key is not found. *)
Theorem Chain_Lookup_in_range (ds : list table.directive) (key : string) :
  exists val ok err,
    table.Chain_Lookup (table.callbacks ds table.NewChain) key = Some (val, ok, err)
    /\ (ok = false -> val = "")
    /\ (is_Some err -> ok = false).
Proof.
  apply Lookup_from_shape.
  rewrite (callbacks_lengths ds table.NewChain eq_refl). simpl. lia.
Qed.

Lemma Lookup_from_app (c1 c2 : list table.Table) (opt : list bool) (i : nat)
    (key : string) :
  table.Lookup_from (c1 ++ c2) opt i key
  = match table.Lookup_from c1 opt i key with
    | Some (val, true, None) => table.Lookup_from c2 opt (i + length c1) val
    | r => r
    end.
Proof.
  revert i key. induction c1 as [|step c1 IH]; intros i key; simpl.
  - rewrite Nat.add_0_r. reflexivity.
  - destruct (table.Lookup step key) as [[val ok] [e|]]; [reflexivity|].
    destruct ok; simpl.
    + rewrite IH. replace (i + S (length c1))%nat with (S i + length c1)%nat by lia.
      reflexivity.
    + destruct (opt !! i) as [[|]|]; try reflexivity.
      rewrite IH. replace (i + S (length c1))%nat with (S i + length c1)%nat by lia.
      reflexivity.
Qed.

Lemma Lookup_from_prefix (steps : list table.Table) (o1 o2 : list bool) (i : nat)
    (key : string) :
  (i + length steps <= length o1)%nat ->
  table.Lookup_from steps (o1 ++ o2) i key = table.Lookup_from steps o1 i key.
Proof.
  revert i key. induction steps as [|step steps IH]; intros i key Hlen; simpl in *;
    [reflexivity|].
  destruct (table.Lookup step key) as [[val ok] [e|]]; [reflexivity|].
  destruct ok; simpl; [apply IH; lia|].
  rewrite lookup_app_l by lia.
  destruct (o1 !! i) as [[|]|]; try reflexivity. apply IH. lia.
Qed.

Lemma Lookup_from_shift (steps : list table.Table) (o1 o2 : list bool) (i : nat)
    (key : string) :
  table.Lookup_from steps (o1 ++ o2) (length o1 + i) key
  = table.Lookup_from steps o2 i key.
Proof.
  revert i key. induction steps as [|step steps IH]; intros i key; simpl;
    [reflexivity|].
  destruct (table.Lookup step key) as [[val ok] [e|]]; [reflexivity|].
  replace (S (length o1 + i)) with (length o1 + S i)%nat by lia.
  destruct ok; simpl; [apply IH|].
  rewrite lookup_app_r by lia.
  replace (length o1 + i - length o1)%nat with i by lia.
  destruct (o2 !! i) as [[|]|]; try reflexivity. apply IH.
Qed.

(** X20.  A chain made of the steps of a chain [a] followed by the steps
    of a chain [b] looks a key up in [a] and then looks the value found up
    in [b]; when [a] does not find the key, fails or panics, so does the
    whole chain, and [b] is not asked. *)
Theorem Chain_Lookup_app (a b : table.Chain) (key : string) :
  length (table.chain a) = length (table.optional a) ->
  table.Chain_Lookup
    {| table.chain := table.chain a ++ table.chain b;
       table.optional := table.optional a ++ table.optional b |} key
  = match table.Chain_Lookup a key with
    | Some (val, true, None) => table.Chain_Lookup b val
    | r => r
    end.
Proof.
  intros Hlen. unfold table.Chain_Lookup. simpl.
  rewrite Lookup_from_app, Lookup_from_prefix by lia.
  destruct (table.Lookup_from (table.chain a) (table.optional a) 0 key)
    as [[[val [|]] [e|]]|]; try reflexivity.
  simpl. rewrite Hlen.
  rewrite <- (Nat.add_0_r (length (table.optional a))).
  apply Lookup_from_shift.
Qed.

Lemma Chain_Lookup_app_witness :
  table.Chain_Lookup
    {| table.chain := table.chain Ex2.aliasChain ++ table.chain Ex2.mailboxChain;
       table.optional := table.optional Ex2.aliasChain
                         ++ table.optional Ex2.mailboxChain |} "postmaster"
  = match table.Chain_Lookup Ex2.aliasChain "postmaster" with
    | Some (val, true, None) => table.Chain_Lookup Ex2.mailboxChain val
    | r => r
    end.
Proof. exact (Chain_Lookup_app Ex2.aliasChain Ex2.mailboxChain "postmaster" eq_refl). Defined.

(** * The registry of modules *)

Section RegistryProperties.

Variable NewModule : Type.

Lemma Registers_cons (name : string) (factory : NewModule) (ds : list string)
    (rs : list (string * NewModule * list string)) (st : registry.state NewModule) :
  registry.Registers NewModule ((name, factory, ds) :: rs) st
  = match registry.modules NewModule st !! name with
    | Some _ => None
    | None =>
      registry.Registers NewModule rs
        {| registry.modules := <[name := factory]> (registry.modules NewModule st);
           registry.ModuleDirectives :=
             registry.ModuleDirectives NewModule st ++ ds |}
    end.
Proof.
  simpl. unfold registry.Register.
  destruct (registry.modules NewModule st !! name); reflexivity.
Qed.

(** X21.  A sequence of calls of [Register] runs without panic exactly
    when the names are pairwise different and none of them is registered
    before. *)
Theorem Registers_panics_on_duplicates
    (rs : list (string * NewModule * list string)) (st : registry.state NewModule) :
  is_Some (registry.Registers NewModule rs st)
  <-> NoDup rs.*1.*1
      /\ forall name, name ∈ rs.*1.*1 -> registry.GetMod NewModule name st = None.
Proof.
  revert st. induction rs as [|[[name factory] ds] rs IH]; intros st.
  - simpl. split.
    + intros _. split; [constructor|]. intros name H. inversion H.
    + intros _. eauto.
  - rewrite Registers_cons. simpl. unfold registry.GetMod in *.
    destruct (registry.modules NewModule st !! name) as [f|] eqn:Hn.
    + split; [intros [? [=]]|]. intros [_ H].
      specialize (H name (list_elem_of_here _ _)). congruence.
    + rewrite IH. simpl. rewrite NoDup_cons. split.
      * intros [Hnd Hfree]. split; [split; [|exact Hnd]|].
        -- intros Hin. specialize (Hfree name Hin).
           rewrite lookup_insert_eq in Hfree. discriminate.
        -- intros n Hin. apply elem_of_cons in Hin as [->|Hin]; [exact Hn|].
           specialize (Hfree n Hin).
           destruct (decide (name = n)) as [->|Hne].
           ++ rewrite lookup_insert_eq in Hfree. discriminate.
           ++ rewrite lookup_insert_ne in Hfree by exact Hne. exact Hfree.
      * intros [[Hni Hnd] Hfree]. split; [exact Hnd|].
        intros n Hin. rewrite lookup_insert_ne.
        -- apply Hfree. apply elem_of_cons. auto.
        -- intros ->. contradiction.
Qed.

(** X22.  After a sequence of calls of [Register] that has not panicked,
    [GetMod] gives for every registered name the factory registered under
    it, the factories registered before are the ones they were, no other
    name has a factory, and [ModuleDirectives] has got the directives of
    the calls, in order, at its end. *)
Theorem Registers_GetMod (rs : list (string * NewModule * list string))
    (st st' : registry.state NewModule) :
  registry.Registers NewModule rs st = Some st' ->
  (forall name factory,
     registry.GetMod NewModule name st' = Some factory
     <-> registry.GetMod NewModule name st = Some factory
         \/ exists ds, (name, factory, ds) ∈ rs)
  /\ registry.ModuleDirectives NewModule st'
     = registry.ModuleDirectives NewModule st ++ concat rs.*2.
Proof.
  revert st. induction rs as [|[[n f] ds] rs IH]; intros st.
  - simpl. intros [= <-]. split.
    + intros name factory. split; [auto|]. intros [H|[ds H]]; [exact H|inversion H].
    + rewrite app_nil_r. reflexivity.
  - rewrite Registers_cons. unfold registry.GetMod in *.
    destruct (registry.modules NewModule st !! n) eqn:Hn; [discriminate|].
    intros H. destruct (IH _ H) as [Hget Hdirs]. simpl in Hget, Hdirs. split.
    + intros name factory. rewrite Hget. split.
      * intros [Hl|[ds' Hin]].
        -- destruct (decide (n = name)) as [->|Hne].
           ++ rewrite lookup_insert_eq in Hl. injection Hl as ->.
              right. exists ds. apply elem_of_cons. auto.
           ++ rewrite lookup_insert_ne in Hl by exact Hne. auto.
        -- right. exists ds'. apply elem_of_cons. auto.
      * intros [Hl|[ds' Hin]].
        -- left. rewrite lookup_insert_ne; [exact Hl|]. intros ->. congruence.
        -- apply elem_of_cons in Hin as [[= -> -> ->]|Hin].
           ++ left. apply lookup_insert_eq.
           ++ right. eauto.
    + rewrite Hdirs. simpl. rewrite app_assoc. reflexivity.
Qed.

End RegistryProperties.

Lemma Registers_GetMod_witness :
  exists st',
    registry.Registers nat Ex2.registrations Ex2.emptyRegistry = Some st'
    /\ (forall name factory,
          registry.GetMod nat name st' = Some factory
          <-> registry.GetMod nat name Ex2.emptyRegistry = Some factory
              \/ exists ds, (name, factory, ds) ∈ Ex2.registrations)
    /\ registry.ModuleDirectives nat st'
       = registry.ModuleDirectives nat Ex2.emptyRegistry
         ++ concat Ex2.registrations.*2.
Proof.
  eexists. split; [reflexivity|].
  exact (Registers_GetMod nat Ex2.registrations Ex2.emptyRegistry _ eq_refl).
Defined.

(** * The steps of the pipeline *)

Lemma readOpts_fold (args : list string) (acc : gmap string string) :
  exists res,
    fold_left (fun res arg =>
                 match res with
                 | None => None
                 | Some res =>
                   let parts := pipeline.SplitN arg "="%char 1 in
                   if (length parts =? 1)%nat then
                     match parts with
                     | p0 :: _ => Some (<[p0 := ""]> res)
                     | [] => None
                     end
                   else
                     match parts with
                     | p0 :: p1 :: _ => Some (<[p0 := p1]> res)
                     | _ => None
                     end
                 end) args (Some acc) = Some res
    /\ forall key, res !! key = if decide (key ∈ args) then Some "" else acc !! key.
Proof.
  revert acc. induction args as [|arg args IH]; intros acc.
  - exists acc. split; [reflexivity|]. intros key.
    destruct (decide (key ∈ [])) as [H|_]; [inversion H|reflexivity].
  - simpl. destruct (IH (<[arg := ""]> acc)) as (res & Hres & Hkey).
    exists res. split; [exact Hres|]. intros key. rewrite Hkey.
    destruct (decide (key ∈ args)) as [Hin|Hnin].
    + rewrite decide_True by (apply elem_of_cons; auto). reflexivity.
    + destruct (decide (arg = key)) as [->|Hne].
      * rewrite lookup_insert_eq, decide_True by (apply elem_of_cons; auto).
        reflexivity.
      * rewrite lookup_insert_ne by exact Hne.
        rewrite decide_False; [reflexivity|].
        intros H. apply elem_of_cons in H as [H|H]; [congruence|contradiction].
Qed.

(** X23.  [readOpts] does not panic, and it does not split an argument at
    its equals sign: every argument is, as a whole, a key of the options,
    with the empty value, and the options have no other key. *)
Theorem readOpts_keeps_arguments_whole (args : list string) :
  exists res,
    pipeline.readOpts args = Some res
    /\ forall key, res !! key = if decide (key ∈ args) then Some "" else None.
Proof.
  destruct (readOpts_fold args ∅) as (res & Hres & Hkey).
  exists res. split; [exact Hres|]. intros key. rewrite Hkey, lookup_empty.
  reflexivity.
Qed.

Section PipelineProperties.

Variable Context : Type.

(** A step that says not to go on and gives no error and no new body does
    not end the loop. *)
Lemma pass_steps_quiet_stop (step : pipeline.Step Context)
    (rest : list (pipeline.Step Context)) (ctx ctx' : Context) (buf : string) :
  step ctx buf = (pipeline.Nil, false, None, ctx') ->
  pipeline.pass_steps Context (step :: rest) ctx buf
  = pipeline.pass_steps Context rest ctx' buf.
Proof. intros H. simpl. rewrite H. reflexivity. Qed.

Lemma pass_steps_app_congr (before a b : list (pipeline.Step Context)) :
  (forall ctx buf, pipeline.pass_steps Context a ctx buf
                   = pipeline.pass_steps Context b ctx buf) ->
  forall ctx buf,
    pipeline.pass_steps Context (before ++ a) ctx buf
    = pipeline.pass_steps Context (before ++ b) ctx buf.
Proof.
  intros Hab. induction before as [|step before IH]; intros ctx buf; [apply Hab|].
  simpl. destruct (step ctx buf) as [[[r cont] err] ctx1].
  destruct (if negb cont then _ else _); [reflexivity|].
  destruct r as [| |[e|content]]; auto.
Qed.

(** X24.  A [stop] step among the steps of [passThroughPipeline] stops
    nothing: the steps after it run as if it were not there, and the result
    is the same. *)
Theorem stopStep_does_not_stop (before after : list (pipeline.Step Context))
    (ctx : Context) (msg : error + string) :
  pipeline.passThroughPipeline Context
    (before ++ pipeline.stopStep Context :: after) ctx msg
  = pipeline.passThroughPipeline Context (before ++ after) ctx msg.
Proof.
  destruct msg as [e|content]; [reflexivity|]. simpl.
  apply pass_steps_app_congr. intros ctx1 buf.
  apply pass_steps_quiet_stop. reflexivity.
Qed.

End PipelineProperties.

(** X25.  When the filter of a [filter] step answers [ErrSilentDrop], the
    message is not dropped: [passThroughPipeline] goes on with the steps
    after it, with the body as it was and the context as the filter left
    it. *)
Theorem filterStep_silent_drop_goes_on
    (Apply : pipeline.DeliveryContext -> string ->
             pipeline.reader * option pipeline.stepError * pipeline.DeliveryContext)
    (opts : gmap string string) (rest : list (pipeline.Step pipeline.DeliveryContext))
    (ctx ctx' : pipeline.DeliveryContext) (content : string) (r : pipeline.reader) :
  Apply (pipeline.set_Opts opts ctx) content = (r, Some pipeline.ErrSilentDrop, ctx') ->
  pipeline.passThroughPipeline pipeline.DeliveryContext
    (pipeline.filterStep Apply opts :: rest) ctx (inr content)
  = pipeline.passThroughPipeline pipeline.DeliveryContext rest ctx' (inr content).
Proof.
  intros H. simpl. unfold pipeline.filterStep. rewrite H. reflexivity.
Qed.

Lemma filterStep_silent_drop_goes_on_witness :
  pipeline.passThroughPipeline pipeline.DeliveryContext
    [pipeline.filterStep Ex2.dropAll ∅; pipeline.requireAuthStep] Ex2.ctx3
    (inr "Subject: hello")
  = pipeline.passThroughPipeline pipeline.DeliveryContext
      [pipeline.requireAuthStep] (pipeline.set_Opts ∅ Ex2.ctx3) (inr "Subject: hello").
Proof.
  exact (filterStep_silent_drop_goes_on Ex2.dropAll ∅ [pipeline.requireAuthStep]
           Ex2.ctx3 (pipeline.set_Opts ∅ Ex2.ctx3) "Subject: hello" pipeline.Nil
           eq_refl).
Defined.

Section DestinationProperties.

Variable MapToLower : string -> string.

Lemma sort_rcpt_spec (conds : list pipeline.destinationCond) (rcpt : string)
    (matched unmatched : list string) :
  exists k,
    pipeline.sort_rcpt MapToLower conds rcpt matched unmatched
    = (matched ++ (if any_matches MapToLower conds rcpt then [rcpt] else []),
       unmatched ++ replicate k rcpt)
    /\ (k <> 0%nat <-> first_fails MapToLower conds rcpt).
Proof.
  revert unmatched. induction conds as [|cond conds IH]; intros unmatched; simpl.
  - exists 0%nat. rewrite !app_nil_r. split; [reflexivity|].
    split; [congruence|]. intros (c & rest & [=] & _).
  - destruct (pipeline.matches MapToLower cond rcpt) eqn:Hm; simpl.
    + exists 0%nat. rewrite app_nil_r. split; [reflexivity|].
      split; [congruence|]. intros (c & rest & [= <- <-] & H). congruence.
    + destruct (IH (unmatched ++ [rcpt])) as (k & -> & _).
      exists (S k). rewrite <- app_assoc. split; [reflexivity|].
      split; [|discriminate]. intros _. exists cond, conds. auto.
Qed.

Lemma sort_rcpts_fold (conds : list pipeline.destinationCond) (to : list string)
    (matched unmatched : list string) :
  exists unmatched',
    fold_left (fun acc rcpt => pipeline.sort_rcpt MapToLower conds rcpt acc.1 acc.2)
      to (matched, unmatched)
    = (matched ++ List.filter (any_matches MapToLower conds) to, unmatched')
    /\ forall rcpt,
         rcpt ∈ unmatched'
         <-> rcpt ∈ unmatched \/ (rcpt ∈ to /\ first_fails MapToLower conds rcpt).
Proof.
  revert matched unmatched. induction to as [|r to IH]; intros matched unmatched.
  - exists unmatched. simpl. rewrite app_nil_r. split; [reflexivity|].
    intros rcpt. split; [auto|]. intros [H|[H _]]; [exact H|inversion H].
  - simpl. destruct (sort_rcpt_spec conds r matched unmatched) as (k & -> & Hk).
    destruct (IH (matched ++ (if any_matches MapToLower conds r then [r] else []))
                 (unmatched ++ replicate k r)) as (u' & -> & Hu').
    exists u'. split.
    + rewrite <- app_assoc. destruct (any_matches MapToLower conds r); reflexivity.
    + intros rcpt. rewrite Hu', elem_of_app, elem_of_cons. split.
      * intros [[H|H]|[H1 H2]]; [auto| |auto].
        apply elem_of_replicate in H as [-> Hk0]. right. split; [auto|].
        apply Hk. exact Hk0.
      * intros [H|[[->|H1] H2]]; [auto| |auto].
        left. right. apply elem_of_replicate. split; [reflexivity|].
        apply Hk. exact H2.
Qed.

(** X26.  The loop of a [destination] step over the recipients: the
    recipients given to the substeps are those that some condition matches,
    in their order; the recipients left in the context are those that the
    first condition does not match, whether or not a later one does. *)
Theorem sort_rcpts_spec (conds : list pipeline.destinationCond) (to : list string) :
  (pipeline.sort_rcpts MapToLower conds to).1
  = List.filter
      (fun rcpt => existsb (fun cond => pipeline.matches MapToLower cond rcpt) conds) to
  /\ forall rcpt,
       rcpt ∈ (pipeline.sort_rcpts MapToLower conds to).2
       <-> rcpt ∈ to
           /\ exists cond rest,
                conds = cond :: rest
                /\ pipeline.matches MapToLower cond rcpt = false.
Proof.
  unfold pipeline.sort_rcpts.
  destruct (sort_rcpts_fold conds to [] []) as (u' & -> & Hu'). simpl.
  split; [reflexivity|]. intros rcpt. rewrite Hu'. split.
  - intros [H|H]; [inversion H|exact H].
  - auto.
Qed.

Lemma filter_nil_iff (f : string -> bool) (l : list string) :
  List.filter f l = [] <-> forall x, x ∈ l -> f x = false.
Proof.
  induction l as [|a l IH]; simpl.
  - split; [|reflexivity]. intros _ x H. inversion H.
  - destruct (f a) eqn:Ha.
    + split; [discriminate|]. intros H.
      specialize (H a (list_elem_of_here _ _)). congruence.
    + rewrite IH. split.
      * intros H x Hx. apply elem_of_cons in Hx as [->|Hx]; auto.
      * intros H x Hx. apply H. apply elem_of_cons. auto.
Qed.

(** X27.  A [destination] step leaves the name of the user and the options
    of the context as they are, whatever its substeps do.  If no condition
    matches any recipient, it runs no substep: it gives no body, says to go
    on, and leaves the context unchanged.  Otherwise the recipients left in
    the context are those that the first condition does not match, and the
    step says to go on only if some recipient is left. *)
Theorem destinationStep_recipients (conds : list pipeline.destinationCond)
    (substeps : list (pipeline.Step pipeline.DeliveryContext))
    (ctx ctx' : pipeline.DeliveryContext) (msg : string) (r : pipeline.reader)
    (cont : bool) (err : option pipeline.stepError) :
  pipeline.destinationStep MapToLower conds substeps ctx msg = (r, cont, err, ctx') ->
  pipeline.AuthUser ctx' = pipeline.AuthUser ctx
  /\ pipeline.Opts ctx' = pipeline.Opts ctx
  /\ (((forall rcpt cond, rcpt ∈ pipeline.To ctx -> cond ∈ conds ->
          pipeline.matches MapToLower cond rcpt = false)
       /\ ctx' = ctx /\ r = pipeline.Nil /\ cont = true /\ err = None)
      \/ ((exists rcpt cond, rcpt ∈ pipeline.To ctx /\ cond ∈ conds
             /\ pipeline.matches MapToLower cond rcpt = true)
          /\ (forall rcpt,
                rcpt ∈ pipeline.To ctx'
                <-> rcpt ∈ pipeline.To ctx
                    /\ exists cond rest,
                         conds = cond :: rest
                         /\ pipeline.matches MapToLower cond rcpt = false)
          /\ (cont = true -> pipeline.To ctx' <> []))).
Proof.
  unfold pipeline.destinationStep.
  destruct (sort_rcpts_spec conds (pipeline.To ctx)) as [Hm Hu].
  destruct (pipeline.sort_rcpts MapToLower conds (pipeline.To ctx))
    as [matched unmatched]. simpl in Hm, Hu.
  destruct (length matched =? 0)%nat eqn:Hlen.
  - intros [= <- <- <- <-]. split; [reflexivity|]. split; [reflexivity|]. left.
    split; [|auto]. intros rcpt cond Hr Hc.
    apply Nat.eqb_eq, length_zero_iff_nil in Hlen. rewrite Hlen in Hm.
    symmetry in Hm. pose proof (proj1 (filter_nil_iff _ _) Hm rcpt Hr) as Hf.
    simpl in Hf. destruct (pipeline.matches MapToLower cond rcpt) eqn:E; [|reflexivity].
    assert (Hex : existsb (fun c => pipeline.matches MapToLower c rcpt) conds = true).
    { apply existsb_exists. exists cond. split; [|exact E].
      apply list_elem_of_In. exact Hc. }
    congruence.
  - destruct (pipeline.passThroughPipeline _ substeps _ _) as [[[newBody k] e] c].
    intros [= <- <- <- <-]. simpl. split; [reflexivity|]. split; [reflexivity|]. right.
    split; [|split; [exact Hu|]].
    + destruct matched as [|rcpt matched]; [discriminate|].
      assert (Hin : In rcpt (List.filter
                (fun rcpt => existsb (fun cond => pipeline.matches MapToLower cond rcpt)
                               conds) (pipeline.To ctx))).
      { rewrite <- Hm. left. reflexivity. }
      apply filter_In in Hin as [Hin Hex].
      apply existsb_exists in Hex as (cond & Hc & Hmatch).
      exists rcpt, cond. split; [apply list_elem_of_In; exact Hin|].
      split; [apply list_elem_of_In; exact Hc|exact Hmatch].
    + intros Hc Hnil. rewrite Hnil in Hc. simpl in Hc.
      rewrite andb_false_r in Hc. discriminate.
Qed.

Lemma sort_rcpts_one (cond : pipeline.destinationCond) (to matched unmatched : list string) :
  fold_left (fun acc rcpt => pipeline.sort_rcpt MapToLower [cond] rcpt acc.1 acc.2)
    to (matched, unmatched)
  = (matched ++ List.filter (pipeline.matches MapToLower cond) to,
     unmatched ++ List.filter (fun rcpt => negb (pipeline.matches MapToLower cond rcpt)) to).
Proof.
  revert matched unmatched. induction to as [|r to IH]; intros matched unmatched; simpl.
  - rewrite !app_nil_r. reflexivity.
  - destruct (pipeline.matches MapToLower cond r); simpl; rewrite IH, <- app_assoc;
      reflexivity.
Qed.

(** X28.  A [destination] step with one condition, which matches some
    recipient, splits the recipients in two: its substeps run on those that
    the condition matches, and the context is left with the others, in
    their order.  The body and the error are those of the substeps, and the
    step says to go on when the substeps say so and a recipient is left. *)
Theorem destinationStep_one_condition (cond : pipeline.destinationCond)
    (substeps : list (pipeline.Step pipeline.DeliveryContext))
    (ctx ctx' : pipeline.DeliveryContext) (msg : string) (r : pipeline.reader)
    (cont : bool) (err : option pipeline.stepError) :
  (exists rcpt, rcpt ∈ pipeline.To ctx
                /\ pipeline.matches MapToLower cond rcpt = true) ->
  pipeline.destinationStep MapToLower [cond] substeps ctx msg = (r, cont, err, ctx') ->
  pipeline.To ctx'
  = List.filter (fun rcpt => negb (pipeline.matches MapToLower cond rcpt))
      (pipeline.To ctx)
  /\ exists newBody shouldContinue e ctxCpy,
       pipeline.passThroughPipeline pipeline.DeliveryContext substeps
         (pipeline.set_To
            (List.filter (pipeline.matches MapToLower cond) (pipeline.To ctx)) ctx)
         (inr msg)
       = (newBody, shouldContinue, e, ctxCpy)
       /\ r = match newBody with
              | Some content => pipeline.Other (inr content)
              | None => pipeline.Nil
              end
       /\ cont = shouldContinue && negb (length (pipeline.To ctx') =? 0)%nat
       /\ err = option_map pipeline.Failed e.
Proof.
  intros (rcpt & Hin & Hm).
  unfold pipeline.destinationStep, pipeline.sort_rcpts.
  rewrite sort_rcpts_one. simpl.
  destruct (List.filter (pipeline.matches MapToLower cond) (pipeline.To ctx))
    as [|m ms] eqn:Hf.
  - pose proof (proj1 (filter_nil_iff _ _) Hf rcpt Hin). congruence.
  - simpl.
    destruct (pipeline.pass_steps pipeline.DeliveryContext substeps
                (pipeline.set_To (m :: ms) ctx) msg)
      as [[[b k] e] c] eqn:Hp.
    intros [= <- <- <- <-]. simpl. split; [reflexivity|].
    exists b, k, e, c. auto.
Qed.

End DestinationProperties.

Lemma destinationStep_ctx3 :
  pipeline.destinationStep Ex.unicodeLower [Ex2.forX; Ex2.forY] [] Ex2.ctx3 "hello"
  = (pipeline.Other (inr "hello"), true, None,
     pipeline.set_To ["b@y"; "c@z"; "c@z"] Ex2.ctx3).
Proof. vm_compute. reflexivity. Qed.

Lemma destinationStep_recipients_witness :
  pipeline.AuthUser (pipeline.set_To ["b@y"; "c@z"; "c@z"] Ex2.ctx3)
  = pipeline.AuthUser Ex2.ctx3
  /\ pipeline.Opts (pipeline.set_To ["b@y"; "c@z"; "c@z"] Ex2.ctx3)
     = pipeline.Opts Ex2.ctx3
  /\ (((forall rcpt cond, rcpt ∈ pipeline.To Ex2.ctx3 -> cond ∈ [Ex2.forX; Ex2.forY] ->
          pipeline.matches Ex.unicodeLower cond rcpt = false)
       /\ pipeline.set_To ["b@y"; "c@z"; "c@z"] Ex2.ctx3 = Ex2.ctx3
       /\ pipeline.Other (inr "hello") = pipeline.Nil
       /\ true = true /\ (None : option pipeline.stepError) = None)
      \/ ((exists rcpt cond, rcpt ∈ pipeline.To Ex2.ctx3 /\ cond ∈ [Ex2.forX; Ex2.forY]
             /\ pipeline.matches Ex.unicodeLower cond rcpt = true)
          /\ (forall rcpt,
                rcpt ∈ pipeline.To (pipeline.set_To ["b@y"; "c@z"; "c@z"] Ex2.ctx3)
                <-> rcpt ∈ pipeline.To Ex2.ctx3
                    /\ exists cond rest,
                         [Ex2.forX; Ex2.forY] = cond :: rest
                         /\ pipeline.matches Ex.unicodeLower cond rcpt = false)
          /\ (true = true
              -> pipeline.To (pipeline.set_To ["b@y"; "c@z"; "c@z"] Ex2.ctx3) <> []))).
Proof.
  exact (destinationStep_recipients Ex.unicodeLower [Ex2.forX; Ex2.forY] [] Ex2.ctx3
           _ "hello" _ _ _ destinationStep_ctx3).
Defined.

Lemma destinationStep_forX :
  pipeline.destinationStep Ex.unicodeLower [Ex2.forX] [] Ex2.ctx3 "hello"
  = (pipeline.Other (inr "hello"), true, None, pipeline.set_To ["b@y"; "c@z"] Ex2.ctx3).
Proof. vm_compute. reflexivity. Qed.

Lemma forX_matches : 
  exists rcpt, rcpt ∈ pipeline.To Ex2.ctx3
               /\ pipeline.matches Ex.unicodeLower Ex2.forX rcpt = true.
Proof. exists "a@x". split; [apply list_elem_of_here|vm_compute; reflexivity]. Qed.

Lemma destinationStep_one_condition_witness :
  pipeline.To (pipeline.set_To ["b@y"; "c@z"] Ex2.ctx3)
  = List.filter (fun rcpt => negb (pipeline.matches Ex.unicodeLower Ex2.forX rcpt))
      (pipeline.To Ex2.ctx3)
  /\ exists newBody shouldContinue e ctxCpy,
       pipeline.passThroughPipeline pipeline.DeliveryContext []
         (pipeline.set_To
            (List.filter (pipeline.matches Ex.unicodeLower Ex2.forX)
               (pipeline.To Ex2.ctx3)) Ex2.ctx3)
         (inr "hello")
       = (newBody, shouldContinue, e, ctxCpy)
       /\ pipeline.Other (inr "hello")
          = match newBody with
            | Some content => pipeline.Other (inr content)
            | None => pipeline.Nil
            end
       /\ true = shouldContinue
                 && negb (length (pipeline.To (pipeline.set_To ["b@y"; "c@z"] Ex2.ctx3))
                          =? 0)%nat
       /\ (None : option pipeline.stepError) = option_map pipeline.Failed e.
Proof.
  exact (destinationStep_one_condition Ex.unicodeLower Ex2.forX [] Ex2.ctx3 _ "hello"
           _ _ _ forX_matches destinationStep_forX).
Defined.

(** * One delivery for each target *)

Section Memoization.

Variable MapToLower : string -> string.





End Memoization.

